(** * SSD1322 driver: packed 4-bit framebuffer and differential updates

    A shallow embedding of the Go packages [image4bit] (the packed
    4-bit raster [HorizontalNibble]) and [ssd1322] (the device handle
    [Dev] with [NewSPI], [Write], [Draw], [calculateDiff],
    [extractRegion], [writeRect], [Halt] and the control commands
    [SetContrast], [Invert], [ScrollHorizontal] and [StopScroll]),
    followed by the properties that the specification states about
    them and by further properties of the code.

    Conventions of the embedding:
    - Go [int] is [Z].  Every [int] the driver computes on a frame of
      at most 480 x 128 pixels stays far inside the 64-bit range, so no
      wrap-around is written for [int]; [/] and [%] are Go's truncating
      [Z.quot] and [Z.rem].  Rectangles and points that a caller
      chooses freely ([NewHorizontalNibble], the source and the source
      point of [Draw]) are added, subtracted and multiplied by the
      code; the embedding is exact for them while those results stay
      in range, which the statements that depend on them ask for with
      [small_rect] and [small_point].
    - Go [byte]/[uint8] is a [Z] in [0,256); the conversions and shifts
      that can leave that range are wrapped with [u8].
    - A slice is a [list Z].  Indexing and slicing out of range, a
      negative [make] and a nil pointer dereference panic in Go; a
      function that can panic returns an [option], [None] being the
      panic.
    - Go [error] is [option string], [None] being [nil]. *)

From stdpp Require Import base decidable option numbers list list_numbers strings.
From Stdlib Require Import ZArith Lia.

Local Open Scope Z_scope.

(** ** Go primitives on bytes and slices *)

Definition u8 (z : Z) : Z := z mod 256.

Definition is_byte (z : Z) : Prop := 0 ≤ z < 256.

Definition error : Type := option string.

(** [s[i]] *)
Definition index (s : list Z) (i : Z) : option Z :=
  if decide (0 ≤ i) then s !! Z.to_nat i else None.

(** [s[i] = v] *)
Definition store (s : list Z) (i : Z) (v : Z) : option (list Z) :=
  if decide (0 ≤ i < Z.of_nat (length s))
  then Some (<[Z.to_nat i := v]> s) else None.

(** [s[lo:hi]] *)
Definition slice (s : list Z) (lo hi : Z) : option (list Z) :=
  if decide (0 ≤ lo ∧ lo ≤ hi ∧ hi ≤ Z.of_nat (length s))
  then Some (take (Z.to_nat (hi - lo)) (drop (Z.to_nat lo) s)) else None.

(** [make([]byte, n)] *)
Definition make (n : Z) : option (list Z) :=
  if decide (0 ≤ n) then Some (replicate (Z.to_nat n) 0) else None.

(** [copy(dst, src)]: the first [min(len(dst), len(src))] elements of
    [dst] are overwritten; the result is the new contents of [dst]. *)
Definition copy (dst src : list Z) : list Z :=
  take (length dst) src ++ drop (length src) dst.

(** A [for] loop whose counter takes the values [idxs] in turn and whose
    body updates the loop state [s] and may panic. *)
Fixpoint for_each {S : Type} (idxs : list Z) (body : Z → S → option S) (s : S)
  : option S :=
  match idxs with
  | [] => Some s
  | i :: idxs' => s' ← body i s; for_each idxs' body s'
  end.

(** ** Package [image] of the Go standard library (the parts used) *)

Module image.

Record Point := { X : Z; Y : Z }.

Record Rectangle := { Min : Point; Max : Point }.

#[global] Instance Point_eq_dec : EqDecision Point.
Proof. solve_decision. Defined.

#[global] Instance Rectangle_eq_dec : EqDecision Rectangle.
Proof. solve_decision. Defined.

Definition ZP : Point := {| X := 0; Y := 0 |}.

Definition ZR : Rectangle := {| Min := ZP; Max := ZP |}.

(** [image.Rect(x0, y0, x1, y1)] *)
Definition Rect (x0 y0 x1 y1 : Z) : Rectangle :=
  let '(x0, x1) := if x1 <? x0 then (x1, x0) else (x0, x1) in
  let '(y0, y1) := if y1 <? y0 then (y1, y0) else (y0, y1) in
  {| Min := {| X := x0; Y := y0 |}; Max := {| X := x1; Y := y1 |} |}.

Definition Dx (r : Rectangle) : Z := X (Max r) - X (Min r).

Definition Dy (r : Rectangle) : Z := Y (Max r) - Y (Min r).

Definition Empty (r : Rectangle) : bool :=
  (X (Max r) <=? X (Min r)) || (Y (Max r) <=? Y (Min r)).

Definition Intersect (r s : Rectangle) : Rectangle :=
  let x0 := if X (Min r) <? X (Min s) then X (Min s) else X (Min r) in
  let y0 := if Y (Min r) <? Y (Min s) then Y (Min s) else Y (Min r) in
  let x1 := if X (Max s) <? X (Max r) then X (Max s) else X (Max r) in
  let y1 := if Y (Max s) <? Y (Max r) then Y (Max s) else Y (Max r) in
  let r' := {| Min := {| X := x0; Y := y0 |};
               Max := {| X := x1; Y := y1 |} |} in
  if Empty r' then ZR else r'.

(** [p.In(r)] *)
Definition In (p : Point) (r : Rectangle) : bool :=
  (X (Min r) <=? X p) && (X p <? X (Max r)) &&
  (Y (Min r) <=? Y p) && (Y p <? Y (Max r)).

Definition PAdd (p q : Point) : Point :=
  {| X := X p + X q; Y := Y p + Y q |}.

Definition PSub (p q : Point) : Point :=
  {| X := X p - X q; Y := Y p - Y q |}.

(** [r.Add(p)] *)
Definition Add (r : Rectangle) (p : Point) : Rectangle :=
  {| Min := PAdd (Min r) p; Max := PAdd (Max r) p |}.

End image.

(** ** Package [image4bit] *)

Module image4bit.

(** [type Gray4 struct { Y uint8 }] *)
Record Gray4 := { Y : Z }.

(** A [color.Color] is a [Gray4] or any other colour, which is known
    through the four 32-bit channels its [RGBA] method returns. *)
Inductive Color :=
| ColorGray4 (c : Gray4)
| ColorRGBA (r g b a : Z).

Definition u32 (z : Z) : Z := z mod 2 ^ 32.

Definition RGBA (c : Gray4) : Z * Z * Z * Z :=
  let y := u32 (Z.land (Y c) 15 * 4369) in (y, y, y, 65535).

Definition toGray4 (c : Color) : Gray4 :=
  match c with
  | ColorGray4 g => g
  | ColorRGBA r g b _ =>
      let y := u32 (u32 (u32 (u32 (299 * r) + u32 (587 * g))
                         + u32 (114 * b)) + 500) ÷ 1000 in
      {| Y := u8 (Z.shiftr y 12) |}
  end.

Record HorizontalNibble := {
  Pix : list Z;
  Stride : Z;
  Rect : image.Rectangle
}.

(** [NewHorizontalNibble(r)]; [None] is the panic on an odd width.
    [r.Dx()], [r.Dy()] and [stride * h] are computed in [Z]: the
    definition is the code for rectangles on which they do not wrap and
    whose backing slice can be allocated. *)
Definition NewHorizontalNibble (r : image.Rectangle)
  : option HorizontalNibble :=
  let w := image.Dx r in
  let h := image.Dy r in
  if (w <? 0) || (h <? 0) then
    Some {| Pix := []; Stride := 0; Rect := r |}
  else if negb (Z.rem w 2 =? 0) then None
  else
    let stride := w ÷ 2 in
    pix ← make (stride * h);
    Some {| Pix := pix; Stride := stride; Rect := r |}.

Definition Bounds (p : HorizontalNibble) : image.Rectangle := Rect p.

Definition pixOffset (p : HorizontalNibble) (x y : Z) : Z * Z :=
  let offset := (y - image.Y (image.Min (Rect p))) * Stride p
                + (x - image.X (image.Min (Rect p))) ÷ 2 in
  let shift := 4 * (1 - Z.land x 1) in
  (offset, shift).

Definition Gray4At (p : HorizontalNibble) (x y : Z) : option Gray4 :=
  if negb (image.In {| image.X := x; image.Y := y |} (Rect p)) then
    Some {| Y := 0 |}
  else
    let '(offset, shift) := pixOffset p x y in
    b ← index (Pix p) offset;
    Some {| Y := Z.land (Z.shiftr b shift) 15 |}.

Definition At (p : HorizontalNibble) (x y : Z) : option Color :=
  ColorGray4 <$> Gray4At p x y.

(** The byte written by [Set] and [SetGray4]:
    [(b &^ (0x0F << shift)) | ((y & 0x0F) << shift)] on [uint8]. *)
Definition putNibble (b shift y : Z) : Z :=
  Z.lor (Z.ldiff b (u8 (Z.shiftl 15 shift)))
        (u8 (Z.shiftl (Z.land y 15) shift)).

Definition SetGray4 (p : HorizontalNibble) (x y : Z) (c : Gray4)
  : option HorizontalNibble :=
  if negb (image.In {| image.X := x; image.Y := y |} (Rect p)) then
    Some p
  else
    let '(offset, shift) := pixOffset p x y in
    b ← index (Pix p) offset;
    pix ← store (Pix p) offset (putNibble b shift (Y c));
    Some {| Pix := pix; Stride := Stride p; Rect := Rect p |}.

Definition Set_ (p : HorizontalNibble) (x y : Z) (c : Color)
  : option HorizontalNibble :=
  if negb (image.In {| image.X := x; image.Y := y |} (Rect p)) then
    Some p
  else
    let '(offset, shift) := pixOffset p x y in
    let gray4 := toGray4 c in
    b ← index (Pix p) offset;
    pix ← store (Pix p) offset (putNibble b shift (Y gray4));
    Some {| Pix := pix; Stride := Stride p; Rect := Rect p |}.

End image4bit.

(** ** Package [image/draw] of the Go standard library

    [draw.Draw(dst, r, src, sp, draw.Src)] for a destination that is a
    [HorizontalNibble]: the rectangle is clipped against both images
    and every pixel of it is written with [dst.Set(x, y, src.At(..))],
    the library's generic per-pixel path. *)

Module draw.

Import image image4bit.

(** An [image.Image] handed to the driver: either a pointer to a
    [HorizontalNibble], which the driver recognises, or any other
    image, known through its bounds and its [At] method. *)
Inductive Image :=
| ImageNibble (p : HorizontalNibble)
| ImageOther (bounds : Rectangle) (at_ : Z → Z → Color).

Definition Bounds (src : Image) : Rectangle :=
  match src with
  | ImageNibble p => image4bit.Bounds p
  | ImageOther b _ => b
  end.

Definition At (src : Image) (x y : Z) : option Color :=
  match src with
  | ImageNibble p => image4bit.At p x y
  | ImageOther _ f => Some (f x y)
  end.

(** [clip] of [image/draw], without a mask.  [Add], [Sub] and the
    shift of [sp] are computed in [Z]: the definition is the library's
    for bounds and points on which they do not wrap. *)
Definition clip (dstb : Rectangle) (r : Rectangle) (srcb : Rectangle)
    (sp : Point) : Rectangle * Point :=
  let orig := Min r in
  let r := Intersect r dstb in
  let r := Intersect r (Add srcb (PSub orig sp)) in
  let dx := X (Min r) - X orig in
  let dy := image.Y (Min r) - image.Y orig in
  (r, {| X := X sp + dx; image.Y := image.Y sp + dy |}).

Definition Draw (dst : HorizontalNibble) (r : Rectangle) (src : Image)
    (sp : Point) : option HorizontalNibble :=
  let '(r, sp) := clip (image4bit.Bounds dst) r (Bounds src) sp in
  if Empty r then Some dst
  else
    for_each (seqZ (image.Y (Min r)) (Dy r)) (λ y p,
      for_each (seqZ (X (Min r)) (Dx r)) (λ x p,
        c ← At src (X sp + x - X (Min r))
                   (image.Y sp + y - image.Y (Min r));
        Set_ p x y c) p) dst.

End draw.

(** ** The transport: SPI connection and GPIO pins

    The driver reaches the hardware through [p.Connect], [rst.Out],
    [dc.Out] and [c.Tx].  The bus keeps the log of those calls, in
    order, and a script of their results: each call consumes the head
    of the script and succeeds once the script is exhausted. *)

Inductive Level := Low | High.

Inductive Event :=
| Connect
| RstOut (l : Level)
| DcOut (l : Level)
| Tx (w : list Z).

Record Bus := { log : list Event; script : list error }.

Definition call (ev : Event) (b : Bus) : Bus * error :=
  ({| log := log b ++ [ev]; script := tail (script b) |},
   default None (head (script b))).

(** ** Package [ssd1322] *)

Module ssd1322.

Import image image4bit.

Record Opts := {
  W : Z;
  H : Z;
  Rotated : bool;
  Sequential : bool;
  SwapTopBottom : bool;
  RST : bool  (* whether a reset pin is given *)
}.

Record Dev := {
  rst : bool;
  rect : Rectangle;
  columnOffset : Z;
  buffer : list Z;
  next : option HorizontalNibble;
  lastDm : HorizontalNibble;
  minCol : Z; maxCol : Z;
  minRow : Z; maxRow : Z;
  halted : bool
}.

Definition set_halted (d : Dev) (h : bool) : Dev :=
  {| rst := rst d; rect := rect d; columnOffset := columnOffset d;
     buffer := buffer d; next := next d; lastDm := lastDm d;
     minCol := minCol d; maxCol := maxCol d;
     minRow := minRow d; maxRow := maxRow d; halted := h |}.

Definition set_buffer (d : Dev) (b : list Z) : Dev :=
  {| rst := rst d; rect := rect d; columnOffset := columnOffset d;
     buffer := b; next := next d; lastDm := lastDm d;
     minCol := minCol d; maxCol := maxCol d;
     minRow := minRow d; maxRow := maxRow d; halted := halted d |}.

Definition set_next (d : Dev) (n : option HorizontalNibble) : Dev :=
  {| rst := rst d; rect := rect d; columnOffset := columnOffset d;
     buffer := buffer d; next := n; lastDm := lastDm d;
     minCol := minCol d; maxCol := maxCol d;
     minRow := minRow d; maxRow := maxRow d; halted := halted d |}.

Definition set_lastDm (d : Dev) (l : HorizontalNibble) : Dev :=
  {| rst := rst d; rect := rect d; columnOffset := columnOffset d;
     buffer := buffer d; next := next d; lastDm := l;
     minCol := minCol d; maxCol := maxCol d;
     minRow := minRow d; maxRow := maxRow d; halted := halted d |}.

Definition set_Pix (p : HorizontalNibble) (pix : list Z) : HorizontalNibble :=
  {| Pix := pix; Stride := Stride p; Rect := image4bit.Rect p |}.

Definition errHalted : string := "ssd1322: halted".
Definition errBufferSize : string := "ssd1322: invalid buffer size".
Definition errWidth : string :=
  "ssd1322: width must be even and between 2 and 480".
Definition errHeight : string :=
  "ssd1322: height must be between 1 and 128".

Definition sendCommands (b : Bus) (cmds : list Z) : Bus * error :=
  let '(b, err) := call (DcOut Low) b in
  match err with
  | Some e => (b, Some e)
  | None => call (Tx cmds) b
  end.

Definition sendCommand (b : Bus) (cmd : Z) : Bus * error :=
  sendCommands b [cmd].

Definition sendData (b : Bus) (data : list Z) : Bus * error :=
  let '(b, err) := call (DcOut High) b in
  match err with
  | Some e => (b, Some e)
  | None => call (Tx data) b
  end.

Definition writeRect (d : Dev) (b : Bus) (x y width height : Z)
    (pixels : list Z) : Bus * error :=
  let colStart := u8 ((x + columnOffset d) ÷ 2) in
  let colEnd := u8 ((x + width - 1 + columnOffset d) ÷ 2) in
  let commands :=
    [21; colStart; colEnd; 117; u8 y; u8 (y + height - 1); 92] in
  let '(b, err) := sendCommands b commands in
  match err with
  | Some e => (b, Some e)
  | None => sendData b pixels
  end.

Definition writeFullFrame (d : Dev) (b : Bus) (pixels : list Z)
  : Bus * error :=
  writeRect d b 0 0 (Dx (rect d)) (Dy (rect d)) pixels.

Definition clearRAM (d : Dev) (b : Bus) : option (Bus * error) :=
  let colStart := u8 (columnOffset d ÷ 2) in
  let colEnd := u8 ((columnOffset d + Dx (rect d) - 1) ÷ 2) in
  let commands := [21; colStart; colEnd; 117; 0; u8 (Dy (rect d) - 1); 92] in
  let '(b, err) := sendCommands b commands in
  match err with
  | Some e => Some (b, Some e)
  | None =>
      zeros ← make (Dx (rect d) * Dy (rect d) ÷ 2);
      Some (sendData b zeros)
  end.

Definition errRstLow (e : string) : string :=
  "ssd1322: failed to pull RST low: " +:+ e.
Definition errRstHigh (e : string) : string :=
  "ssd1322: failed to pull RST high: " +:+ e.

(** The hardware reset of [init] (the two 200 ms sleeps are not
    modelled). *)
Definition reset (d : Dev) (b : Bus) : Bus * error :=
  if rst d then
    let '(b, err) := call (RstOut Low) b in
    match err with
    | Some e => (b, Some (errRstLow e))
    | None =>
        let '(b, err) := call (RstOut High) b in
        match err with
        | Some e => (b, Some (errRstHigh e))
        | None => (b, None)
        end
    end
  else (b, None).

Definition initCommands (opts : Opts) : list Z :=
  let cmds := [253; 18; 174; 179; 242; 202; u8 (H opts - 1); 162; 0; 161; 0] in
  let remap1 := if Rotated opts then 6 else 20 in
  let remap2 := 17 in
  let remap2 := if Sequential opts then Z.lor remap2 1 else remap2 in
  let remap2 := if SwapTopBottom opts then Z.lor remap2 2 else remap2 in
  cmds ++ [160; remap1; remap2; 171; 1; 180; 160; 253; 193; 255; 199; 15;
           185; 177; 226; 209; 130; 32; 187; 31; 182; 8; 190; 7; 166; 169].

Definition init (d : Dev) (b : Bus) (opts : Opts) : option (Bus * error) :=
  let '(b, err) := reset d b in
  match err with
  | Some e => Some (b, Some e)
  | None =>
      let '(b, err) := sendCommands b (initCommands opts) in
      match err with
      | Some e => Some (b, Some e)
      | None =>
          '(b, err) ← clearRAM d b;
          match err with
          | Some e => Some (b, Some e)
          | None => Some (sendCommand b 175)
          end
      end
  end.

Definition defaultOpts : Opts :=
  {| W := 256; H := 64; Rotated := false; Sequential := false;
     SwapTopBottom := false; RST := false |}.

Definition NewSPI (b : Bus) (o : option Opts)
  : option (Bus * option Dev * error) :=
  let opts := default defaultOpts o in
  if (W opts <=? 0) || negb (Z.rem (W opts) 2 =? 0) || (480 <? W opts) then
    Some (b, None, Some errWidth)
  else if (H opts <=? 0) || (128 <? H opts) then
    Some (b, None, Some errHeight)
  else
    let '(b, err) := call Connect b in
    match err with
    | Some e => Some (b, None, Some e)
    | None =>
        buf ← make (W opts * H opts ÷ 2);
        let d := {| rst := RST opts;
                    rect := image.Rect 0 0 (W opts) (H opts);
                    columnOffset := (480 - W opts) ÷ 2;
                    buffer := buf;
                    next := None;
                    lastDm := {| Pix := []; Stride := 0; image4bit.Rect := ZR |};
                    minCol := 0; maxCol := W opts - 1;
                    minRow := 0; maxRow := H opts - 1;
                    halted := false |} in
        '(b, err) ← init d b opts;
        match err with
        | Some e => Some (b, None, Some e)
        | None => Some (b, Some d, None)
        end
    end.

Definition Bounds (d : Dev) : Rectangle := rect d.

Definition Write (d : Dev) (b : Bus) (pixels : list Z)
  : Dev * Bus * (Z * error) :=
  if halted d then (d, b, (0, Some errHalted))
  else if negb (length pixels =? length (buffer d))%nat then
    (d, b, (0, Some errBufferSize))
  else
    let '(b, err) := writeFullFrame d b pixels in
    match err with
    | Some e => (d, b, (0, Some e))
    | None =>
        (set_buffer d (copy (buffer d) pixels), b,
         (Z.of_nat (length pixels), None))
    end.

(** The inner loop of [calculateDiff]: the byte columns of one row. *)
Definition diffColumns (last nxt : list Z) (rowStart stride : Z)
    (cols : Z * Z) : option (Z * Z) :=
  for_each (seqZ 0 stride) (λ x '(minCol, maxCol),
    a ← index last (rowStart + x);
    c ← index nxt (rowStart + x);
    if negb (a =? c) then
      let colStart := x * 2 in
      let colEnd := colStart + 1 in
      let minCol := if colStart <? minCol then colStart else minCol in
      let maxCol := if maxCol <? colEnd then colEnd else maxCol in
      Some (minCol, maxCol)
    else Some (minCol, maxCol)) cols.

(** The outer loop of [calculateDiff]: the rows of the frame. *)
Definition diffRows (last nxt : list Z) (height stride : Z)
    (box : Z * Z * Z * Z) : option (Z * Z * Z * Z) :=
  for_each (seqZ 0 height) (λ y '(minCol, maxCol, minRow, maxRow),
    let rowStart := y * stride in
    let rowEnd := rowStart + stride in
    ra ← slice last rowStart rowEnd;
    rc ← slice nxt rowStart rowEnd;
    if negb (bool_decide (ra = rc)) then
      let minRow := if y <? minRow then y else minRow in
      let maxRow := if maxRow <? y then y else maxRow in
      '(minCol, maxCol) ← diffColumns last nxt rowStart stride (minCol, maxCol);
      Some (minCol, maxCol, minRow, maxRow)
    else Some (minCol, maxCol, minRow, maxRow)) box.

(** The result is [(minCol, maxCol, minRow, maxRow)]. *)
Definition calculateDiff (d : Dev) : option (Z * Z * Z * Z) :=
  nxt ← next d;
  let width := Dx (rect d) in
  let height := Dy (rect d) in
  let stride := width ÷ 2 in
  '(minCol, maxCol, minRow, maxRow) ←
    diffRows (Pix (lastDm d)) (Pix nxt) height stride (width, -1, height, -1);
  let minCol := if negb (Z.rem minCol 2 =? 0) then minCol - 1 else minCol in
  let maxCol := if (Z.rem maxCol 2 =? 0) && (maxCol <? width - 1)
                then maxCol + 1 else maxCol in
  Some (minCol, maxCol, minRow, maxRow).

(** [copy(result[dstIdx:], src)] *)
Definition copyAt (result : list Z) (dstIdx : Z) (src : list Z)
  : option (list Z) :=
  tl ← slice result dstIdx (Z.of_nat (length result));
  Some (take (Z.to_nat dstIdx) result ++ copy tl src).

Definition extractRegion (d : Dev) (minCol maxCol minRow maxRow : Z)
  : option (list Z) :=
  nxt ← next d;
  let width := maxCol - minCol + 1 in
  let height := maxRow - minRow + 1 in
  let stride := Dx (rect d) ÷ 2 in
  let byteWidth := width ÷ 2 in
  result ← make (byteWidth * height);
  '(result, dstIdx) ←
    for_each (seqZ minRow (maxRow - minRow + 1)) (λ y '(result, dstIdx),
      let srcStart := y * stride + minCol ÷ 2 in
      row ← slice (Pix nxt) srcStart (srcStart + byteWidth);
      result ← copyAt result dstIdx row;
      Some (result, dstIdx + byteWidth)) (result, 0);
  Some result.

(** The lazy initialisation of the double buffer at the head of the
    slow path of [Draw]. *)
Definition initNext (d : Dev) : option Dev :=
  match next d with
  | Some _ => Some d
  | None =>
      n ← NewHorizontalNibble (rect d);
      pix ← make (Z.of_nat (length (buffer d)));
      let l := {| Pix := copy pix (buffer d); Stride := Stride n;
                  image4bit.Rect := rect d |} in
      Some (set_lastDm (set_next d (Some n)) l)
  end.

(** The test of the fast path of [Draw]: the source is a
    [HorizontalNibble] of the size of the display, drawn at the origin
    over the whole display. *)
Definition fullFrameSource (d : Dev) (dst : Rectangle) (src : draw.Image)
    (sp : Point) : option HorizontalNibble :=
  match src with
  | draw.ImageNibble srcImg =>
      if bool_decide (dst = rect d) && bool_decide (sp = ZP)
         && bool_decide (image4bit.Rect srcImg = rect d)
      then Some srcImg else None
  | draw.ImageOther _ _ => None
  end.

Definition Draw (d : Dev) (b : Bus) (dst : Rectangle) (src : draw.Image)
    (sp : Point) : option (Dev * Bus * error) :=
  if halted d then Some (d, b, Some errHalted)
  else
    let dst := Intersect dst (rect d) in
    if Empty dst then Some (d, b, None)
    else
      match fullFrameSource d dst src sp with
      | Some srcImg =>
          let '(b, err) := writeFullFrame d b (Pix srcImg) in
          Some (d, b, err)
      | None =>
          d ← initNext d;
          n ← next d;
          n ← draw.Draw n dst src sp;
          let d := set_next d (Some n) in
          '(minCol, maxCol, minRow, maxRow) ← calculateDiff d;
          if maxCol <? minCol then Some (d, b, None)
          else
            changedData ← extractRegion d minCol maxCol minRow maxRow;
            let '(b, err) :=
              writeRect d b minCol minRow (maxCol - minCol + 1)
                        (maxRow - minRow + 1) changedData in
            match err with
            | Some e => Some (d, b, Some e)
            | None =>
                let d := set_buffer d (copy (buffer d) (Pix n)) in
                let d := set_lastDm d
                           (set_Pix (lastDm d) (copy (Pix (lastDm d)) (Pix n))) in
                Some (d, b, None)
            end
      end.

Definition Halt (d : Dev) (b : Bus) : Dev * Bus * error :=
  let d := set_halted d true in
  let '(b, err) := sendCommand b 174 in
  (d, b, err).

Definition errScrollRow : string := "ssd1322: scroll row out of range".

(** [SetContrast(contrast byte)] *)
Definition SetContrast (d : Dev) (b : Bus) (contrast : Z) : Bus * error :=
  if halted d then (b, Some errHalted)
  else sendCommands b [193; contrast].

Definition Invert (d : Dev) (b : Bus) (invert : bool) : Bus * error :=
  if halted d then (b, Some errHalted)
  else
    let mode := if invert then 167 else 166 in
    sendCommand b mode.

(** [type ScrollSpeed byte] and its four constants. *)
Definition ScrollSpeed : Type := Z.
Definition Speed6Frames : ScrollSpeed := 0.
Definition Speed10Frames : ScrollSpeed := 1.
Definition Speed100Frames : ScrollSpeed := 2.
Definition Speed200Frames : ScrollSpeed := 3.

(** [ScrollHorizontal(startRow, endRow byte, speed ScrollSpeed, right bool)] *)
Definition ScrollHorizontal (d : Dev) (b : Bus) (startRow endRow : Z)
    (speed : ScrollSpeed) (right : bool) : Bus * error :=
  if halted d then (b, Some errHalted)
  else if (Dy (rect d) <=? startRow) || (Dy (rect d) <=? endRow) then
    (b, Some errScrollRow)
  else
    let scrollCmd := if right then 39 else 38 in
    sendCommands b [scrollCmd; 0; startRow; u8 speed; endRow; 0; 0; 47].

Definition StopScroll (d : Dev) (b : Bus) : Bus * error :=
  if halted d then (b, Some errHalted)
  else sendCommand b 46.

(** [ColorModel()] of the device: the conversion of [Gray4Model]. *)
Definition ColorModel (d : Dev) : Color → Gray4 := toGray4.

End ssd1322.

(** ** Notions used by the statements *)

Import image image4bit ssd1322.

(** The byte at row [y], byte column [x] is not the same in the two
    backing sequences. *)
Definition differs (last nxt : list Z) (stride y x : Z) : Prop :=
  index last (y * stride + x) ≠ index nxt (y * stride + x).

(** [(minCol, maxCol, minRow, maxRow)] is the least byte-aligned
    rectangle around the differing bytes of two frames of [w] x [h]
    pixels. *)
Definition minimal_box (last nxt : list Z) (w h : Z)
    (minCol maxCol minRow maxRow : Z) : Prop :=
  let stride := w ÷ 2 in
  0 ≤ minRow ∧ minRow ≤ maxRow ∧ maxRow < h ∧
  0 ≤ minCol ∧ minCol < maxCol ∧ maxCol < w ∧
  Z.even minCol = true ∧ Z.odd maxCol = true ∧
  (∀ y x, 0 ≤ y < h → 0 ≤ x < stride → differs last nxt stride y x →
          minRow ≤ y ≤ maxRow ∧ minCol ≤ 2 * x ∧ 2 * x + 1 ≤ maxCol) ∧
  (∃ x, 0 ≤ x < stride ∧ differs last nxt stride minRow x) ∧
  (∃ x, 0 ≤ x < stride ∧ differs last nxt stride maxRow x) ∧
  (∃ y, 0 ≤ y < h ∧ differs last nxt stride y (minCol ÷ 2)) ∧
  (∃ y, 0 ≤ y < h ∧ differs last nxt stride y (maxCol ÷ 2)).

(** The invariant of the row loop of [calculateDiff] once the rows
    below [k] are scanned, on frames of [h] rows of [s] bytes. *)
Definition box_inv (last nxt : list Z) (s h : Z) (k : Z)
    (t : Z * Z * Z * Z) : Prop :=
  let '(mc, xc, mr, xr) := t in
  (∀ y x, 0 ≤ y < k → 0 ≤ x < s → differs last nxt s y x →
          mr ≤ y ≤ xr ∧ mc ≤ 2 * x ∧ 2 * x + 1 ≤ xc) ∧
  ((mc = 2 * s ∧ xc = -1 ∧ mr = h ∧ xr = -1) ∨
   (0 ≤ mr ∧ mr ≤ xr ∧ xr < k ∧
    (∃ x, 0 ≤ x < s ∧ differs last nxt s mr x) ∧
    (∃ x, 0 ≤ x < s ∧ differs last nxt s xr x) ∧
    (∃ y x, 0 ≤ y < k ∧ 0 ≤ x < s ∧ differs last nxt s y x ∧ mc = 2 * x) ∧
    (∃ y x, 0 ≤ y < k ∧ 0 ≤ x < s ∧ differs last nxt s y x ∧ xc = 2 * x + 1))).

(** A pixel store as [NewHorizontalNibble] builds it and [Set],
    [SetGray4] keep it: an even width, [Stride] bytes per row and
    [Stride * height] bytes. *)
Definition store_ok (p : HorizontalNibble) : Prop :=
  Z.rem (Dx (image4bit.Rect p)) 2 = 0 ∧
  Stride p = Dx (image4bit.Rect p) ÷ 2 ∧
  Z.of_nat (length (Pix p)) = Stride p * Dy (image4bit.Rect p).

(** A device handle as [NewSPI] builds it and [Write], [Draw], [Halt]
    keep it. *)
Definition session_ok (d : Dev) : Prop :=
  Min (rect d) = ZP ∧
  0 < Dx (rect d) ∧ Dx (rect d) ≤ 480 ∧ Z.rem (Dx (rect d)) 2 = 0 ∧
  0 < Dy (rect d) ∧ Dy (rect d) ≤ 128 ∧
  columnOffset d = (480 - Dx (rect d)) ÷ 2 ∧
  Z.of_nat (length (buffer d)) = Dx (rect d) ÷ 2 * Dy (rect d) ∧
  match next d with
  | None => True
  | Some n =>
      image4bit.Rect n = rect d ∧ Stride n = Dx (rect d) ÷ 2 ∧
      Z.of_nat (length (Pix n)) = Dx (rect d) ÷ 2 * Dy (rect d) ∧
      Z.of_nat (length (Pix (lastDm d))) = Dx (rect d) ÷ 2 * Dy (rect d)
  end.

(** The rectangle lies inside the frame of the device. *)
Definition contained (d : Dev) (minCol maxCol minRow maxRow : Z) : Prop :=
  0 ≤ minCol ∧ minCol ≤ maxCol ∧ maxCol < Dx (rect d) ∧
  0 ≤ minRow ∧ minRow ≤ maxRow ∧ maxRow < Dy (rect d).

(** The payload of a rectangle in the words of the specification: for
    each row from [minRow] to [maxRow], the bytes of that row from byte
    column [minCol/2] to byte column [maxCol/2], both included. *)
Definition rowBytes (pix : list Z) (stride y lo hi : Z) : list Z :=
  take (Z.to_nat (hi - lo + 1)) (drop (Z.to_nat (y * stride + lo)) pix).

Definition payload_spec (pix : list Z) (stride : Z)
    (minCol maxCol minRow maxRow : Z) : list Z :=
  concat ((λ y, rowBytes pix stride y (minCol ÷ 2) (maxCol ÷ 2))
            <$> seqZ minRow (maxRow - minRow + 1)).

(** The calls that [writeRect] makes when nothing fails. *)
Definition rectCalls (colStart colEnd rowStart rowEnd : Z)
    (payload : list Z) : list Event :=
  [DcOut Low; Tx [21; colStart; colEnd; 117; rowStart; rowEnd; 92];
   DcOut High; Tx payload].

(** The transport calls [calls] made in turn, each one only if those
    before it succeeded, as [sendCommands], [sendData] and [writeRect]
    make theirs. *)
Fixpoint attempt (calls : list Event) (b : Bus) : Bus * error :=
  match calls with
  | [] => (b, None)
  | ev :: calls =>
      let '(b, err) := call ev b in
      match err with
      | Some e => (b, Some e)
      | None => attempt calls b
      end
  end.

(** [r] is the outcome of making the calls [calls] on the bus [b], told
    from the script of the bus.  When none of the results that the
    script holds for them is an error, all the calls are in the log, in
    order, and the outcome is [nil].  When the result for the call
    number [j] is the first error, the log has the calls up to that one
    and no other, and the outcome is that error. *)
Definition sends (calls : list Event) (b : Bus) (r : Bus * error) : Prop :=
  (Forall (λ res, res = None) (take (length calls) (script b)) →
   r = ({| log := log b ++ calls;
           script := drop (length calls) (script b) |}, None)) ∧
  (∀ (j : nat) (e : string),
     (j < length calls)%nat →
     Forall (λ res, res = None) (take j (script b)) →
     script b !! j = Some (Some e) →
     r = ({| log := log b ++ take (S j) calls;
             script := drop (S j) (script b) |}, Some e)).

(** Coordinates well inside the range of [int] on every platform:
    sums, differences and the byte count [stride * height] of
    rectangles made of them cannot wrap. *)
Definition small (z : Z) : Prop := -16384 ≤ z ≤ 16384.

Definition small_point (p : Point) : Prop := small (X p) ∧ small (image.Y p).

Definition small_rect (r : Rectangle) : Prop :=
  small_point (Min r) ∧ small_point (Max r).

(** Two stores with the same bounds, stride and number of bytes. *)
Definition same_shape (p q : HorizontalNibble) : Prop :=
  image4bit.Rect q = image4bit.Rect p ∧ Stride q = Stride p ∧
  length (Pix q) = length (Pix p).

(** The handle after a successful differential [Draw] of the frame
    [pix]: both [buffer] and the baseline [lastDm] hold it. *)
Definition committed (d : Dev) (pix : list Z) : Dev :=
  set_lastDm (set_buffer d pix) (set_Pix (lastDm d) pix).

(** The frame that the differential path of [Draw] compares the
    candidate with: [lastDm] once the double buffer exists, and the
    copy of [buffer] that its lazy initialisation makes before. *)
Definition baseline (d : Dev) : list Z :=
  match next d with
  | Some _ => Pix (lastDm d)
  | None => buffer d
  end.

(** An image that [Draw] can read without a panic: any image that is
    not a [HorizontalNibble], and a [HorizontalNibble] whose backing
    sequence has the size of its bounds. *)
Definition image_ok (src : draw.Image) : Prop :=
  match src with
  | draw.ImageNibble p => store_ok p
  | draw.ImageOther _ _ => True
  end.

(** The value that drawing the pixel [(x, y)] of [src] stores: its
    colour converted by [Gray4Model] and cut to the low nibble. *)
Definition shade (src : draw.Image) (x y : Z) : option Gray4 :=
  c ← draw.At src x y;
  Some {| image4bit.Y := Z.land (image4bit.Y (toGray4 c)) 15 |}.

(** ** Sequences of calls

    A call of the public interface of the driver, and a client that
    makes the calls [ops] in turn on one handle and keeps the error
    that each returns. *)
Inductive Op :=
| OpWrite (pixels : list Z)
| OpDraw (dst : Rectangle) (src : draw.Image) (sp : Point)
| OpHalt
| OpSetContrast (contrast : Z)
| OpInvert (invert : bool)
| OpScrollHorizontal (startRow endRow : Z) (speed : ScrollSpeed) (right : bool)
| OpStopScroll.

Definition step (op : Op) (d : Dev) (b : Bus) : option (Dev * Bus * error) :=
  match op with
  | OpWrite pixels =>
      let '(d, b, (_, err)) := Write d b pixels in Some (d, b, err)
  | OpDraw dst src sp => Draw d b dst src sp
  | OpHalt => Some (Halt d b)
  | OpSetContrast contrast =>
      let '(b, err) := SetContrast d b contrast in Some (d, b, err)
  | OpInvert invert =>
      let '(b, err) := Invert d b invert in Some (d, b, err)
  | OpScrollHorizontal startRow endRow speed toRight =>
      let '(b, err) := ScrollHorizontal d b startRow endRow speed toRight in
      Some (d, b, err)
  | OpStopScroll =>
      let '(b, err) := StopScroll d b in Some (d, b, err)
  end.

Fixpoint run (ops : list Op) (d : Dev) (b : Bus)
  : option (Dev * Bus * list error) :=
  match ops with
  | [] => Some (d, b, [])
  | op :: ops =>
      '(d, b, err) ← step op d b;
      '(d, b, errs) ← run ops d b;
      Some (d, b, err :: errs)
  end.

Definition op_ok (op : Op) : Prop :=
  match op with
  | OpDraw _ src _ => image_ok src
  | _ => True
  end.

(** ** Sample devices and frames *)

Definition idle : Bus := {| log := []; script := [] |}.

(** A bus whose [k]-th next call fails. *)
Definition failing (k : nat) (e : string) : Bus :=
  {| log := []; script := replicate k None ++ [Some e] |}.

(** The handle that [NewSPI] returns for a [w] x [h] display. *)
Definition fresh (w h : Z) : Dev :=
  {| rst := false; rect := image.Rect 0 0 w h;
     columnOffset := (480 - w) ÷ 2;
     buffer := replicate (Z.to_nat (w * h ÷ 2)) 0;
     next := None;
     lastDm := {| Pix := []; Stride := 0; image4bit.Rect := ZR |};
     minCol := 0; maxCol := w - 1; minRow := 0; maxRow := h - 1;
     halted := false |}.

Definition frame (w h : Z) (pix : list Z) : HorizontalNibble :=
  {| Pix := pix; Stride := w ÷ 2; image4bit.Rect := image.Rect 0 0 w h |}.

(** A handle whose double buffer is in use. *)
Definition drawn (w h : Z) (last nxt : list Z) : Dev :=
  set_lastDm (set_next (fresh w h) (Some (frame w h nxt))) (frame w h last).

(** An image of one colour. *)
Definition uniform (r : Rectangle) (v : Z) : draw.Image :=
  draw.ImageOther r (λ _ _, ColorGray4 {| image4bit.Y := v |}).

(** The 8 x 2 store of the driver's own test of [extractRegion]. *)
Definition store82 : Dev :=
  drawn 8 2 (replicate 8 0) [0; 17; 34; 51; 68; 85; 102; 119].

(** The 4 x 2 frames of the driver's own test of [calculateDiff]. *)
Definition diff42 : Dev := drawn 4 2 [0; 0; 0; 0] [171; 205; 0; 0].

(** A 4 x 1 display, and its session once an image of grey level 5
    has been drawn on it. *)
Definition r41 : Rectangle := image.Rect 0 0 4 1.

Definition shown5 : Dev :=
  set_lastDm
    (set_buffer (drawn 4 1 [0; 0] [85; 85]) [85; 85])
    (frame 4 1 [85; 85]).

Definition sent5 : Bus :=
  {| log := rectCalls 119 120 0 0 [85; 85]; script := [] |}.

(** * Properties *)

(** ** Loops and slices *)

(** The rule of the loop invariant for a counting loop whose body
    cannot panic while the invariant holds. *)
Lemma for_each_inv {S : Type} (P : Z → S → Prop) (body : Z → S → option S)
    (k n : Z) (s : S) :
  0 ≤ n →
  P k s →
  (∀ i t, k ≤ i < k + n → P i t → ∃ t', body i t = Some t' ∧ P (i + 1) t') →
  ∃ s', for_each (seqZ k n) body s = Some s' ∧ P (k + n) s'.
Proof.
  intros Hn. revert k s.
  pattern n. apply natlike_ind; [| |exact Hn]; clear n Hn.
  - intros k s HP _. rewrite seqZ_nil by lia. exists s. simpl.
    by rewrite Z.add_0_r.
  - intros n Hn IH k s HP Hstep.
    rewrite seqZ_cons by lia. simpl.
    destruct (Hstep k s) as (t & Hb & Ht); [lia|done|].
    rewrite Hb. simpl.
    replace (Z.pred (Z.succ n)) with n by lia.
    destruct (IH (Z.succ k) t) as (s' & Hs' & HP').
    + by replace (Z.succ k) with (k + 1) by lia.
    + intros i u Hi. apply Hstep. lia.
    + exists s'. split; [done|]. by replace (k + Z.succ n) with (Z.succ k + n) by lia.
Qed.

Lemma index_nonneg (l : list Z) (i : Z) :
  0 ≤ i → index l i = l !! Z.to_nat i.
Proof. intros. unfold index. by rewrite decide_True by lia. Qed.

Lemma index_Some (l : list Z) (i : Z) :
  0 ≤ i < Z.of_nat (length l) → ∃ v, index l i = Some v.
Proof.
  intros Hi. unfold index. rewrite decide_True by lia.
  destruct (lookup_lt_is_Some_2 l (Z.to_nat i)) as [v Hv]; [lia|]. eauto.
Qed.

Lemma slice_Some (l : list Z) (lo hi : Z) :
  0 ≤ lo → lo ≤ hi → hi ≤ Z.of_nat (length l) →
  slice l lo hi = Some (take (Z.to_nat (hi - lo)) (drop (Z.to_nat lo) l)).
Proof. intros. unfold slice. by rewrite decide_True by lia. Qed.

Lemma slice_eq_iff (a c : list Z) (lo n : Z) :
  0 ≤ lo → 0 ≤ n →
  lo + n ≤ Z.of_nat (length a) → lo + n ≤ Z.of_nat (length c) →
  take (Z.to_nat n) (drop (Z.to_nat lo) a) = take (Z.to_nat n) (drop (Z.to_nat lo) c)
  ↔ ∀ x, 0 ≤ x < n → index a (lo + x) = index c (lo + x).
Proof.
  intros Hlo Hn Ha Hc. split.
  - intros Heq x Hx. rewrite !index_nonneg by lia.
    replace (Z.to_nat (lo + x)) with (Z.to_nat lo + Z.to_nat x)%nat by lia.
    apply (f_equal (λ l, l !! Z.to_nat x)) in Heq.
    by rewrite !lookup_take_lt, !lookup_drop in Heq by lia.
  - intros Hx. apply list_eq. intros i.
    destruct (decide (i < Z.to_nat n)%nat) as [Hi|Hi].
    + rewrite !lookup_take_lt by lia. rewrite !lookup_drop.
      specialize (Hx (Z.of_nat i)). rewrite !index_nonneg in Hx by lia.
      replace (Z.to_nat (lo + Z.of_nat i)) with (Z.to_nat lo + i)%nat in Hx by lia.
      apply Hx. lia.
    + rewrite !lookup_take_ge by lia. done.
Qed.

(** ** The differential scan *)

Section Diff.

Variables (last nxt : list Z) (s h : Z).
Hypothesis Hs : 0 ≤ s.
Hypothesis Hlast : Z.of_nat (length last) = s * h.
Hypothesis Hnxt : Z.of_nat (length nxt) = s * h.

(** The column loop on row [y] widens [(mc, xc)] just enough to cover
    the differing bytes of that row. *)
Lemma diffColumns_spec (y mc xc : Z) :
  0 ≤ y < h →
  ∃ mc' xc',
    diffColumns last nxt (y * s) s (mc, xc) = Some (mc', xc') ∧
    mc' ≤ mc ∧ xc ≤ xc' ∧
    (∀ x, 0 ≤ x < s → differs last nxt s y x → mc' ≤ 2 * x ∧ 2 * x + 1 ≤ xc') ∧
    (mc' = mc ∨ ∃ x, 0 ≤ x < s ∧ differs last nxt s y x ∧ mc' = 2 * x) ∧
    (xc' = xc ∨ ∃ x, 0 ≤ x < s ∧ differs last nxt s y x ∧ xc' = 2 * x + 1).
Proof.
  intros Hy.
  set (P := λ (i : Z) (t : Z * Z),
    t.1 ≤ mc ∧ xc ≤ t.2 ∧
    (∀ x, 0 ≤ x < i → differs last nxt s y x → t.1 ≤ 2 * x ∧ 2 * x + 1 ≤ t.2) ∧
    (t.1 = mc ∨ ∃ x, 0 ≤ x < i ∧ differs last nxt s y x ∧ t.1 = 2 * x) ∧
    (t.2 = xc ∨ ∃ x, 0 ≤ x < i ∧ differs last nxt s y x ∧ t.2 = 2 * x + 1)).
  unfold diffColumns.
  edestruct (for_each_inv P) as ([mc' xc'] & Hrun & HP); [exact Hs| |
    |exists mc', xc'; split; [exact Hrun|]].
  - unfold P; simpl. repeat split; try lia.
  - intros i [m x'] Hi (H1 & H2 & H3 & H4 & H5); simpl in *.
    assert (Hin : 0 ≤ y * s + i < s * h) by nia.
    destruct (index_Some last (y * s + i)) as [a Ha]; [lia|].
    destruct (index_Some nxt (y * s + i)) as [c Hc]; [lia|].
    rewrite Ha, Hc; simpl.
    destruct (Z.eqb_spec a c) as [->|Hne]; simpl.
    + exists (m, x'). split; [done|]. unfold P; simpl.
      assert (Hnd : ¬ differs last nxt s y i).
      { unfold differs. rewrite Ha, Hc. tauto. }
      repeat split; try lia.
      * destruct (decide (x = i)) as [->|]; [tauto|]. apply H3; [lia|done].
      * destruct (decide (x = i)) as [->|]; [tauto|]. apply H3; [lia|done].
      * destruct H4 as [?|(x & ? & ? & ?)]; [by left|right; exists x; split; [lia|done]].
      * destruct H5 as [?|(x & ? & ? & ?)]; [by left|right; exists x; split; [lia|done]].
    + assert (Hd : differs last nxt s y i).
      { unfold differs. rewrite Ha, Hc. congruence. }
      eexists. split; [reflexivity|]. unfold P; simpl.
      repeat split.
      * destruct (Z.ltb_spec (i * 2) m); lia.
      * destruct (Z.ltb_spec x' (i * 2 + 1)); lia.
      * destruct (decide (x = i)) as [->|].
        -- destruct (Z.ltb_spec (i * 2) m); lia.
        -- assert (m ≤ 2 * x) by (apply H3; [lia|done]).
           destruct (Z.ltb_spec (i * 2) m); lia.
      * destruct (decide (x = i)) as [->|].
        -- destruct (Z.ltb_spec x' (i * 2 + 1)); lia.
        -- assert (2 * x + 1 ≤ x') by (apply H3; [lia|done]).
           destruct (Z.ltb_spec x' (i * 2 + 1)); lia.
      * destruct (Z.ltb_spec (i * 2) m).
        -- right. exists i. split; [lia|]. split; [done|lia].
        -- destruct H4 as [?|(x & ? & ? & ?)]; [by left|right; exists x; split; [lia|done]].
      * destruct (Z.ltb_spec x' (i * 2 + 1)).
        -- right. exists i. split; [lia|]. split; [done|lia].
        -- destruct H5 as [?|(x & ? & ? & ?)]; [by left|right; exists x; split; [lia|done]].
  - unfold P in HP; simpl in HP. rewrite Z.add_0_l in HP. exact HP.
Qed.

Lemma list_neq_lookup (a c : list Z) :
  length a = length c → a ≠ c →
  ∃ i, (i < length a)%nat ∧ a !! i ≠ c !! i.
Proof.
  revert c. induction a as [|v a IH]; intros [|u c] Hlen Hne; simplify_eq/=.
  destruct (decide (v = u)) as [->|Hvu].
  - destruct (IH c) as (i & Hi & Hd); [done|congruence|].
    exists (S i). split; [lia|done].
  - exists 0%nat. split; [lia|]. simpl. congruence.
Qed.

Lemma slice_neq_differs (a c : list Z) (lo n : Z) :
  0 ≤ lo → 0 ≤ n →
  lo + n ≤ Z.of_nat (length a) → lo + n ≤ Z.of_nat (length c) →
  take (Z.to_nat n) (drop (Z.to_nat lo) a) ≠ take (Z.to_nat n) (drop (Z.to_nat lo) c) →
  ∃ x, 0 ≤ x < n ∧ index a (lo + x) ≠ index c (lo + x).
Proof.
  intros Hlo Hn Ha Hc Hne.
  apply list_neq_lookup in Hne as (i & Hi & Hd).
  - rewrite length_take, length_drop in Hi.
    exists (Z.of_nat i). split; [lia|].
    rewrite !index_nonneg by lia.
    rewrite !lookup_take_lt, !lookup_drop in Hd by lia.
    by replace (Z.to_nat (lo + Z.of_nat i)) with (Z.to_nat lo + i)%nat by lia.
  - rewrite !length_take, !length_drop. lia.
Qed.

(** The row loop never panics on two frames of [h] rows of [s] bytes
    and ends with the invariant on all rows. *)
Lemma diffRows_spec :
  0 ≤ h →
  ∃ t, diffRows last nxt h s (2 * s, -1, h, -1) = Some t ∧ box_inv last nxt s h h t.
Proof.
  intros Hh. unfold diffRows.
  edestruct (for_each_inv (box_inv last nxt s h)) as (t & Hrun & HP); [exact Hh| |
    |exists t; split; [exact Hrun|by rewrite Z.add_0_l in HP]].
  - simpl. split; [intros; lia|]. left. lia.
  - intros k [[[mc xc] mr] xr] Hk [Hcov Hatt]. rewrite Z.add_0_l in Hk.
    assert (Hrow : 0 ≤ k * s ∧ k * s + s ≤ s * h) by nia.
    rewrite !slice_Some by lia. simpl.
    replace (k * s + s - k * s) with s by lia.
    case_bool_decide as Heq; simpl.
    + (* the row is unchanged *)
      eexists; split; [reflexivity|].
      assert (Hnd : ∀ x, 0 ≤ x < s → ¬ differs last nxt s k x).
      { intros x Hx Hd. apply Hd.
        by apply (proj1 (slice_eq_iff last nxt (k * s) s ltac:(lia) Hs
                         ltac:(lia) ltac:(lia))). }
      split.
      * intros y x Hy Hx Hd. destruct (decide (y = k)) as [->|].
        -- by destruct (Hnd x).
        -- apply Hcov; [lia|done..].
      * destruct Hatt as [?|(? & ? & ? & ? & ? & (y1 & x1 & ? & ?) & (y2 & x2 & ? & ?))];
          [by left|right].
        repeat split; try done; try lia.
        -- exists y1, x1. split; [lia|done].
        -- exists y2, x2. split; [lia|done].
    + (* the row differs *)
      apply slice_neq_differs in Heq as (x0 & Hx0 & Hd0); [|lia..].
      fold (differs last nxt s k x0) in Hd0.
      destruct (diffColumns_spec k mc xc ltac:(lia))
        as (mc' & xc' & Hcols & Hle1 & Hle2 & Hc & Hm & Hx).
      rewrite Hcols. simpl. eexists; split; [reflexivity|].
      destruct (Hc x0 Hx0 Hd0) as [Hc1 Hc2].
      assert (Hmr : (if k <? mr then k else mr) ≤ mr)
        by (destruct (Z.ltb_spec k mr); lia).
      assert (Hxr : xr ≤ (if xr <? k then k else xr))
        by (destruct (Z.ltb_spec xr k); lia).
      split.
      * intros y x Hy Hx' Hd. destruct (decide (y = k)) as [->|].
        -- destruct (Hc x Hx' Hd). destruct (Z.ltb_spec k mr), (Z.ltb_spec xr k); lia.
        -- destruct (Hcov y x) as (? & ? & ?); [lia|done..|]. lia.
      * right.
        destruct Hatt as [(-> & -> & -> & ->)|
          (? & ? & ? & Hr1 & Hr2 & (y1 & x1 & ? & ? & ? & ?)
             & (y2 & x2 & ? & ? & ? & ?))].
        -- rewrite (proj2 (Z.ltb_lt k h)) by lia.
           rewrite (proj2 (Z.ltb_lt (-1) k)) by lia.
           repeat split; try lia; try (by exists x0).
           ++ destruct Hm as [?|(x & ? & ? & ?)]; [lia|]. exists k, x. repeat split; try done; lia.
           ++ destruct Hx as [?|(x & ? & ? & ?)]; [lia|]. exists k, x. repeat split; try done; lia.
        -- rewrite (proj2 (Z.ltb_ge k mr)) by lia.
           rewrite (proj2 (Z.ltb_lt xr k)) by lia.
           repeat split; try lia; try done; try (by exists x0).
           ++ destruct Hm as [->|(x & ? & ? & ?)].
              ** exists y1, x1. repeat split; try done; lia.
              ** exists k, x. repeat split; try done; lia.
           ++ destruct Hx as [->|(x & ? & ? & ?)].
              ** exists y2, x2. repeat split; try done; lia.
              ** exists k, x. repeat split; try done; lia.
Qed.

(** Two frames without a differing byte are equal. *)
Lemma no_differs_eq :
  0 < s → 0 ≤ h →
  (∀ y x, 0 ≤ y < h → 0 ≤ x < s → ¬ differs last nxt s y x) → last = nxt.
Proof.
  intros Hpos Hh Hnd. apply list_eq. intros i.
  destruct (decide (Z.of_nat i < s * h)) as [Hi|Hi].
  - specialize (Hnd (Z.of_nat i / s) (Z.of_nat i mod s)).
    assert (Hdm := Z.div_mod (Z.of_nat i) s ltac:(lia)).
    assert (Hm := Z.mod_pos_bound (Z.of_nat i) s Hpos).
    assert (Hq : 0 ≤ Z.of_nat i / s < h).
    { split; [apply Z.div_pos; lia|]. apply Z.div_lt_upper_bound; lia. }
    unfold differs in Hnd.
    replace (Z.of_nat i / s * s + Z.of_nat i mod s) with (Z.of_nat i) in Hnd by lia.
    rewrite !index_nonneg, Nat2Z.id in Hnd by lia.
    destruct (decide (last !! i = nxt !! i)); [done|]. by destruct Hnd.
  - rewrite !lookup_ge_None_2 by lia. done.
Qed.

End Diff.

(** [calculateDiff] on well-sized frames: the final alignment changes
    nothing, the box is inverted exactly when the frames are equal and
    is the least box otherwise. *)
Lemma calculateDiff_box (d : Dev) (nxt : HorizontalNibble) :
  0 < Dx (rect d) → Z.rem (Dx (rect d)) 2 = 0 → 0 < Dy (rect d) →
  next d = Some nxt →
  Z.of_nat (length (Pix (lastDm d))) = Dx (rect d) ÷ 2 * Dy (rect d) →
  Z.of_nat (length (Pix nxt)) = Dx (rect d) ÷ 2 * Dy (rect d) →
  ∃ minCol maxCol minRow maxRow,
    calculateDiff d = Some (minCol, maxCol, minRow, maxRow) ∧
    (maxCol < minCol ↔ Pix (lastDm d) = Pix nxt) ∧
    (Pix (lastDm d) ≠ Pix nxt →
     minimal_box (Pix (lastDm d)) (Pix nxt) (Dx (rect d)) (Dy (rect d))
                 minCol maxCol minRow maxRow).
Proof.
  intros Hw Hev Hh Hnext Hl Hn.
  set (w := Dx (rect d)) in *. set (h := Dy (rect d)) in *.
  set (s := w ÷ 2) in *.
  assert (Hws : w = 2 * s).
  { pose proof (Z.quot_rem' w 2). unfold s. lia. }
  assert (Hs : 0 < s) by lia.
  destruct (diffRows_spec (Pix (lastDm d)) (Pix nxt) s h ltac:(lia) Hl Hn ltac:(lia))
    as ([[[mc xc] mr] xr] & Hrun & Hcov & Hatt).
  unfold calculateDiff. rewrite Hnext. simpl. fold w h s.
  rewrite <- Hws in Hrun. rewrite Hrun. simpl.
  assert (Heq_nd : Pix (lastDm d) = Pix nxt →
            ∀ y x, ¬ differs (Pix (lastDm d)) (Pix nxt) s y x).
  { intros Heq y x Hd. apply Hd. by rewrite Heq. }
  destruct Hatt as [(-> & -> & -> & ->)|
    (? & ? & ? & Hr1 & Hr2 & (y1 & x1 & ? & ? & Hd1 & ->) & (y2 & x2 & ? & ? & Hd2 & ->))].
  - (* no row differs *)
    replace (Z.rem (2 * s) 2) with 0 by (rewrite Z.mul_comm, Z.rem_mul; lia).
    change (Z.rem (-1) 2 =? 0) with false. simpl.
    eexists _, _, _, _. split; [reflexivity|].
    assert (Heq : Pix (lastDm d) = Pix nxt).
    { apply (no_differs_eq _ _ s h); try lia.
      intros y x Hy Hx Hd. destruct (Hcov y x Hy Hx Hd). lia. }
    split; [split; [done|lia]|]. done.
  - replace (Z.rem (2 * x1) 2) with 0 by (rewrite Z.mul_comm, Z.rem_mul; lia).
    replace (Z.rem (2 * x2 + 1) 2) with 1.
    2:{ symmetry. rewrite Z.rem_mod_nonneg by lia.
        rewrite Z.add_comm, Z.mul_comm, Z.mod_add by lia. done. }
    simpl.
    eexists _, _, _, _. split; [reflexivity|].
    assert (2 * x1 ≤ 2 * x2 + 1).
    { destruct (Hcov y1 x1) as (? & ? & ?); [lia|lia|done|]. lia. }
    split.
    + split; [lia|]. intros Heq. by destruct (Heq_nd Heq y1 x1).
    + intros _. unfold minimal_box. fold s.
      replace (2 * x1 ÷ 2) with x1 by (rewrite Z.mul_comm, Z.quot_mul; lia).
      replace ((2 * x2 + 1) ÷ 2) with x2.
      2:{ rewrite Z.quot_div_nonneg by lia.
          apply Z.div_unique with (r := 1); lia. }
      split_and!; try lia; try done.
      * by rewrite Z.even_mul.
      * by rewrite Z.odd_add, Z.odd_mul.
      * exists y1. split; [lia|done].
      * exists y2. split; [lia|done].
Qed.

(** ** The packed pixel store *)

Lemma testbit_15 (n : Z) : 0 ≤ n → Z.testbit 15 n = (n <? 4).
Proof.
  intros Hn. change 15 with (Z.ones 4). rewrite Z.testbit_ones by lia.
  destruct (Z.leb_spec 0 n); [done|lia].
Qed.

(** Reading back the nibble that [putNibble] wrote. *)
Lemma nibble_get_put (b y s : Z) :
  s = 0 ∨ s = 4 →
  Z.land (Z.shiftr (putNibble b s y) s) 15 = Z.land y 15.
Proof.
  intros Hs. apply Z.bits_inj'. intros n Hn.
  unfold putNibble, u8. change 256 with (2 ^ 8).
  rewrite !Z.land_spec, Z.shiftr_spec, Z.lor_spec, Z.ldiff_spec by lia.
  rewrite testbit_15 by lia.
  destruct (Z.ltb_spec n 4); [|by rewrite !andb_false_r].
  rewrite !Z.mod_pow2_bits_low by lia.
  rewrite !Z.shiftl_spec by lia.
  replace (n + s - s) with n by lia.
  rewrite Z.land_spec, testbit_15 by lia.
  rewrite (proj2 (Z.ltb_lt n 4)) by lia.
  by rewrite !andb_true_r, andb_false_r.
Qed.

Lemma shift_cases (x : Z) : 4 * (1 - Z.land x 1) = if Z.even x then 4 else 0.
Proof.
  change 1 with (Z.ones 1) at 2. rewrite Z.land_ones by lia.
  change (2 ^ 1) with 2. rewrite Zmod_even.
  by destruct (Z.even x).
Qed.

Lemma In_bounds (x y : Z) (r : Rectangle) :
  In {| X := x; image.Y := y |} r = true ↔
  X (Min r) ≤ x < X (Max r) ∧ image.Y (Min r) ≤ y < image.Y (Max r).
Proof.
  unfold In. simpl. rewrite !andb_true_iff, !Z.leb_le, !Z.ltb_lt. lia.
Qed.

(** In a well-formed store an in-bounds pixel has its byte in [Pix]. *)
Lemma pixOffset_in_range (p : HorizontalNibble) (x y : Z) :
  store_ok p →
  In {| X := x; image.Y := y |} (image4bit.Rect p) = true →
  0 ≤ (pixOffset p x y).1 < Z.of_nat (length (Pix p)).
Proof.
  intros (Hev & Hst & Hlen) [Hx Hy]%In_bounds.
  unfold pixOffset. simpl. rewrite Hlen.
  unfold Dx, Dy in *.
  set (dx := x - X (Min (image4bit.Rect p))).
  set (dy := y - image.Y (Min (image4bit.Rect p))).
  set (w := X (Max (image4bit.Rect p)) - X (Min (image4bit.Rect p))) in *.
  set (h := image.Y (Max (image4bit.Rect p)) - image.Y (Min (image4bit.Rect p))) in *.
  assert (Hw : w = 2 * Stride p) by (pose proof (Z.quot_rem' w 2); lia).
  assert (Hdx : 0 ≤ dx < w) by (unfold dx, w; lia).
  assert (Hdy : 0 ≤ dy < h) by (unfold dy, h; lia).
  assert (Hq : 0 ≤ dx ÷ 2 < Stride p).
  { rewrite Z.quot_div_nonneg by lia. split; [apply Z.div_pos; lia|].
    apply Z.div_lt_upper_bound; lia. }
  nia.
Qed.

Lemma pixOffset_set_Pix (p : HorizontalNibble) (pix : list Z) (x y : Z) :
  pixOffset {| Pix := pix; Stride := Stride p; image4bit.Rect := image4bit.Rect p |} x y
  = pixOffset p x y.
Proof. done. Qed.

Lemma index_store (l : list Z) (i v : Z) (l' : list Z) :
  store l i v = Some l' → index l' i = Some v ∧ length l' = length l.
Proof.
  unfold store, index. case_decide as Hi; [|done]. intros [= <-].
  rewrite decide_True by lia. rewrite length_insert. split; [|done].
  apply list_lookup_insert_eq. lia.
Qed.

Lemma SetGray4_Gray4At (p : HorizontalNibble) (x y v : Z) :
  store_ok p →
  In {| X := x; image.Y := y |} (image4bit.Rect p) = true →
  ∃ p', SetGray4 p x y {| image4bit.Y := v |} = Some p' ∧
        Gray4At p' x y = Some {| image4bit.Y := Z.land v 15 |} ∧
        store_ok p'.
Proof.
  intros Hok Hin. pose proof (pixOffset_in_range p x y Hok Hin) as Hr.
  destruct (pixOffset p x y) as [o s] eqn:Ho. simpl in Hr.
  destruct (index_Some (Pix p) o Hr) as [b Hb].
  unfold SetGray4. rewrite Hin. cbn [negb]. rewrite Ho, Hb. cbn [mbind option_bind].
  unfold store. rewrite decide_True by lia. cbn [mbind option_bind].
  eexists. split; [reflexivity|].
  unfold Gray4At. cbn [image4bit.Rect Pix]. rewrite Hin. cbn [negb].
  rewrite pixOffset_set_Pix, Ho.
  rewrite index_nonneg by lia.
  rewrite list_lookup_insert_eq by lia. cbn [mbind option_bind image4bit.Y].
  split.
  - do 2 f_equal. apply nibble_get_put.
    unfold pixOffset in Ho. injection Ho as _ <-. rewrite shift_cases.
    destruct (Z.even x); lia.
  - destruct Hok as (? & ? & ?). unfold store_ok. simpl.
    by rewrite length_insert.
Qed.

Lemma high_nibble (b : Z) : is_byte b → Z.land (Z.shiftr b 4) 15 = Z.shiftr b 4.
Proof.
  intros [Hlo Hhi]. change 15 with (Z.ones 4). rewrite Z.land_ones by lia.
  rewrite Z.shiftr_div_pow2 by lia. change (2 ^ 4) with 16.
  apply Z.mod_small. split; [apply Z.div_pos; lia|].
  apply Z.div_lt_upper_bound; lia.
Qed.

Lemma seqZ_snoc (m n : Z) : 0 ≤ n → seqZ m (n + 1) = seqZ m n ++ [m + n].
Proof.
  intros Hn. by rewrite seqZ_app by lia.
Qed.

(** [extractRegion] on a byte-aligned rectangle inside the frame: no
    panic, and the rows of the rectangle in order. *)
Lemma extractRegion_payload (d : Dev) (nxt : HorizontalNibble)
    (minCol maxCol minRow maxRow : Z) :
  next d = Some nxt →
  Z.rem (Dx (rect d)) 2 = 0 →
  Z.of_nat (length (Pix nxt)) = Dx (rect d) ÷ 2 * Dy (rect d) →
  contained d minCol maxCol minRow maxRow →
  Z.even minCol = true → Z.odd maxCol = true →
  extractRegion d minCol maxCol minRow maxRow
  = Some (payload_spec (Pix nxt) (Dx (rect d) ÷ 2) minCol maxCol minRow maxRow).
Proof.
  intros Hnext Hev Hlen (Hc0 & Hc1 & Hc2 & Hr0 & Hr1 & Hr2) Hmin Hmax.
  set (w := Dx (rect d)) in *. set (h := Dy (rect d)) in *.
  set (s := w ÷ 2) in *.
  assert (Hws : w = 2 * s) by (pose proof (Z.quot_rem' w 2); lia).
  apply Zeven_bool_iff, Zeven_ex_iff in Hmin as [lo Hlo].
  apply Zodd_bool_iff, Zodd_ex_iff in Hmax as [hi Hhi].
  assert (Hqlo : minCol ÷ 2 = lo).
  { subst minCol. by rewrite Z.mul_comm, Z.quot_mul by lia. }
  assert (Hqhi : maxCol ÷ 2 = hi).
  { subst maxCol. rewrite Z.quot_div_nonneg by lia.
    symmetry. apply Z.div_unique with (r := 1); lia. }
  set (bw := (maxCol - minCol + 1) ÷ 2).
  assert (Hbw : bw = hi - lo + 1).
  { unfold bw. replace (maxCol - minCol + 1) with ((hi - lo + 1) * 2) by lia.
    by rewrite Z.quot_mul by lia. }
  unfold extractRegion, payload_spec. rewrite Hnext. cbn [mbind option_bind].
  fold w s bw. rewrite Hqlo, Hqhi.
  unfold make. rewrite decide_True by nia. cbn [mbind option_bind].
  set (rows := λ y, rowBytes (Pix nxt) s y lo hi).
  set (P := λ (y : Z) (t : list Z * Z),
    t.2 = (y - minRow) * bw ∧
    Z.of_nat (length (concat (rows <$> seqZ minRow (y - minRow)))) = t.2 ∧
    t.1 = concat (rows <$> seqZ minRow (y - minRow))
          ++ replicate (Z.to_nat ((maxRow + 1 - y) * bw)) 0).
  edestruct (for_each_inv P) as ([res idx] & Hrun & HP); [| |
    |rewrite Hrun; cbn [mbind option_bind]].
  - lia.
  - unfold P. cbn [fst snd]. rewrite Z.sub_diag, seqZ_nil by lia. simpl.
    split_and!; [lia|done|]. do 2 f_equal. lia.
  - intros y [res idx] Hy (Hidx & HlenA & Hres). cbn [fst snd] in *.
    set (A := concat (rows <$> seqZ minRow (y - minRow))) in *.
    set (zs := replicate (Z.to_nat ((maxRow + 1 - y) * bw)) 0) in *.
    assert (Hsrc : 0 ≤ y * s + lo ∧ y * s + lo + bw ≤ s * h) by nia.
    rewrite slice_Some by lia. cbn [mbind option_bind].
    replace (y * s + lo + bw - (y * s + lo)) with (hi - lo + 1) by lia.
    fold (rowBytes (Pix nxt) s y lo hi). fold (rows y).
    assert (Hrow : Z.of_nat (length (rows y)) = bw).
    { unfold rows, rowBytes. rewrite length_take, length_drop. lia. }
    assert (Hzs : Z.of_nat (length zs) = (maxRow + 1 - y) * bw).
    { unfold zs. rewrite length_replicate. nia. }
    unfold copyAt. subst res.
    rewrite slice_Some by (rewrite ?length_app; nia).
    cbn [mbind option_bind].
    rewrite drop_app_length' by lia.
    rewrite take_app_length' by lia.
    rewrite (take_ge zs) by (rewrite length_app; lia).
    unfold copy. rewrite (take_ge (rows y)) by nia.
    eexists. split; [reflexivity|]. unfold P. cbn [fst snd].
    replace (y + 1 - minRow) with (y - minRow + 1) by lia.
    rewrite seqZ_snoc by lia. rewrite fmap_app, concat_app. fold A.
    replace (minRow + (y - minRow)) with y by lia. simpl.
    rewrite app_nil_r.
    split_and!.
    + lia.
    + rewrite length_app. lia.
    + rewrite <- app_assoc. do 2 f_equal. unfold zs.
      rewrite drop_replicate. f_equal. lia.
  - unfold P in HP. cbn [fst snd] in HP. destruct HP as (_ & _ & ->).
    replace (minRow + (maxRow - minRow + 1) - minRow)
      with (maxRow - minRow + 1) by lia.
    replace ((maxRow + 1 - (minRow + (maxRow - minRow + 1))) * bw) with 0 by lia.
    simpl. by rewrite app_nil_r.
Qed.

(** [writeRect] makes between one and four calls, a prefix of
    [rectCalls], and all four when it returns [nil]. *)
Lemma writeRect_calls (d : Dev) (b : Bus) (x y width height : Z)
    (pixels : list Z) :
  let colStart := u8 ((x + columnOffset d) ÷ 2) in
  let colEnd := u8 ((x + width - 1 + columnOffset d) ÷ 2) in
  ∃ k, (1 ≤ k ≤ 4)%nat ∧
    log (writeRect d b x y width height pixels).1
    = log b ++ take k (rectCalls colStart colEnd (u8 y) (u8 (y + height - 1)) pixels) ∧
    ((writeRect d b x y width height pixels).2 = None → k = 4%nat).
Proof.
  intros colStart colEnd.
  unfold writeRect, sendCommands, sendData, call, rectCalls.
  fold colStart colEnd.
  destruct (script b) as [|[e1|] [|[e2|] [|[e3|] [|[e4|] ?]]]]; simpl;
    first [ exists 1%nat; by (split; [lia|split; [rewrite <- ?app_assoc|]])
          | exists 2%nat; by (split; [lia|split; [rewrite <- ?app_assoc|]])
          | exists 3%nat; by (split; [lia|split; [rewrite <- ?app_assoc|]])
          | exists 4%nat; by (split; [lia|split; [rewrite <- ?app_assoc|]]) ].
Qed.

Lemma centering_bounds (d : Dev) (minCol maxCol minRow maxRow : Z) :
  session_ok d → contained d minCol maxCol minRow maxRow →
  columnOffset d = (480 - Dx (rect d)) ÷ 2 ∧
  0 ≤ (minCol + columnOffset d) ÷ 2 < 256 ∧
  0 ≤ (maxCol + columnOffset d) ÷ 2 < 256 ∧
  0 ≤ minRow < 256 ∧ 0 ≤ maxRow < 256.
Proof.
  intros (_ & Hw0 & Hw1 & _ & Hh0 & Hh1 & Hoff & _) (? & ? & ? & ? & ? & ?).
  split; [done|].
  assert (0 ≤ columnOffset d ∧ 2 * columnOffset d ≤ 480 - Dx (rect d)).
  { rewrite Hoff, Z.quot_div_nonneg by lia.
    pose proof (Z.div_mod (480 - Dx (rect d)) 2 ltac:(lia)).
    pose proof (Z.mod_pos_bound (480 - Dx (rect d)) 2 ltac:(lia)).
    split; [apply Z.div_pos; lia|lia]. }
  rewrite !Z.quot_div_nonneg by lia.
  split_and!; try lia; try (apply Z.div_pos; lia);
    apply Z.div_lt_upper_bound; lia.
Qed.

Lemma fresh_session_ok (w h : Z) :
  0 < w ≤ 480 → Z.rem w 2 = 0 → 0 < h ≤ 128 → session_ok (fresh w h).
Proof.
  intros Hw Hev Hh. unfold session_ok, fresh, image.Rect, Dx, Dy. simpl.
  rewrite (proj2 (Z.ltb_ge w 0)), (proj2 (Z.ltb_ge h 0)) by lia. simpl.
  rewrite !Z.sub_0_r, length_replicate.
  split_and!; try done; try lia.
  rewrite Z2Nat.id by (apply Z.quot_pos; nia).
  pose proof (Z.quot_rem' w 2).
  replace (w * h) with (w ÷ 2 * h * 2) by nia.
  by rewrite Z.quot_mul by lia.
Qed.

(** ** The device session *)

(** A property that every iteration keeps is kept by the loop. *)
Lemma for_each_preserves {S : Type} (P : S → Prop) (body : Z → S → option S)
    (idxs : list Z) (s s' : S) :
  (∀ i t t', body i t = Some t' → P t → P t') →
  for_each idxs body s = Some s' → P s → P s'.
Proof.
  intros Hstep. revert s. induction idxs as [|i idxs IH]; intros s; simpl.
  - by intros [= <-].
  - destruct (body i s) as [t|] eqn:Hb; [|done]. simpl.
    intros Hrun HP. apply (IH t Hrun). by apply (Hstep i s).
Qed.

Lemma store_length (l : list Z) (i v : Z) (l' : list Z) :
  store l i v = Some l' → length l' = length l.
Proof. intros H. by apply index_store in H as [_ ?]. Qed.

Lemma Set_shape (p p' : HorizontalNibble) (x y : Z) (c : Color) :
  Set_ p x y c = Some p' → same_shape p p'.
Proof.
  unfold Set_, same_shape. destruct (negb _).
  - by intros [= <-].
  - destruct (pixOffset p x y) as [o s].
    destruct (index (Pix p) o) as [b|]; [|done]. simpl.
    destruct (store _ _ _) as [pix|] eqn:Hst; [|done]. simpl.
    intros [= <-]. simpl. split_and!; [done..|]. by apply store_length in Hst.
Qed.

Lemma draw_Draw_shape (n n' : HorizontalNibble) (r : Rectangle)
    (src : draw.Image) (sp : Point) :
  draw.Draw n r src sp = Some n' → same_shape n n'.
Proof.
  unfold draw.Draw. destruct (draw.clip _ _ _ _) as [r' sp'].
  destruct (Empty r'); [by intros [= <-]|].
  intros Hrun.
  apply (for_each_preserves (same_shape n) _ _ _ _) in Hrun; [done| |done].
  intros y t t' Hrow Ht.
  apply (for_each_preserves (same_shape n) _ _ _ _) in Hrow; [done| |done].
  intros x u u' Hset (Hu1 & Hu2 & Hu3).
  destruct (draw.At _ _ _) as [c|]; [|done]. simpl in Hset.
  apply Set_shape in Hset as (? & ? & ?).
  unfold same_shape. split_and!; congruence.
Qed.

Lemma copy_same_length (dst src : list Z) :
  length dst = length src → copy dst src = src.
Proof.
  intros Hlen. unfold copy.
  rewrite take_ge, drop_ge by lia. by rewrite app_nil_r.
Qed.

Lemma set_next_id (d : Dev) (n : HorizontalNibble) :
  next d = Some n → set_next d (Some n) = d.
Proof. destruct d; simpl. by intros ->. Qed.

Lemma even_width (w : Z) : Z.rem w 2 = 0 → w = 2 * (w ÷ 2).
Proof. intros. pose proof (Z.quot_rem' w 2). lia. Qed.

(** The lazy initialisation cannot panic on a session and allocates
    the candidate and a baseline that copies [buffer]. *)
Lemma initNext_spec (d : Dev) :
  session_ok d →
  ∃ d1 n, initNext d = Some d1 ∧ next d1 = Some n ∧ session_ok d1 ∧
    rect d1 = rect d ∧ columnOffset d1 = columnOffset d ∧
    buffer d1 = buffer d ∧ halted d1 = halted d ∧
    match next d with
    | Some _ => d1 = d
    | None => Pix (lastDm d1) = buffer d
    end.
Proof.
  intros Hok. pose proof Hok as (Hmin & Hw0 & Hw1 & Hev & Hh0 & Hh1 & Hoff & Hbuf & Hn).
  unfold initNext. destruct (next d) as [n|] eqn:Hnext.
  - exists d, n. by split_and!.
  - unfold NewHorizontalNibble.
    rewrite (proj2 (Z.ltb_ge (Dx (rect d)) 0)) by lia.
    rewrite (proj2 (Z.ltb_ge (Dy (rect d)) 0)) by lia.
    rewrite Hev. simpl.
    unfold make. rewrite !decide_True by nia. simpl.
    eexists _, _. split; [reflexivity|]. simpl.
    rewrite Nat2Z.id, copy_same_length by (by rewrite length_replicate).
    split_and!; try done.
    unfold session_ok. simpl. split_and!; try done.
    rewrite length_replicate. rewrite Z2Nat.id by nia. done.
Qed.

(** The differential path of [Draw], once the candidate [cand] is
    rendered into [d.next]: nothing is sent when it equals the baseline;
    otherwise the least box is extracted and sent, and the candidate is
    committed to [buffer] and [lastDm] only if the send returns [nil].
    On an error the handle keeps [buffer] and [lastDm] and holds the
    rendered candidate in [next]. *)
Lemma Draw_differential (d : Dev) (b : Bus) (dst : Rectangle)
    (src : draw.Image) (sp : Point) (d1 : Dev) (n cand : HorizontalNibble) :
  session_ok d → halted d = false →
  Empty (Intersect dst (rect d)) = false →
  fullFrameSource d (Intersect dst (rect d)) src sp = None →
  initNext d = Some d1 → next d1 = Some n →
  draw.Draw n (Intersect dst (rect d)) src sp = Some cand →
  let d2 := set_next d1 (Some cand) in
  (Pix cand = Pix (lastDm d1) ∧ Draw d b dst src sp = Some (d2, b, None)) ∨
  (Pix cand ≠ Pix (lastDm d1) ∧
   ∃ minCol maxCol minRow maxRow,
     calculateDiff d2 = Some (minCol, maxCol, minRow, maxRow) ∧
     minimal_box (Pix (lastDm d1)) (Pix cand) (Dx (rect d)) (Dy (rect d))
                 minCol maxCol minRow maxRow ∧
     let payload := payload_spec (Pix cand) (Dx (rect d) ÷ 2)
                                 minCol maxCol minRow maxRow in
     let r := writeRect d2 b minCol minRow (maxCol - minCol + 1)
                        (maxRow - minRow + 1) payload in
     Draw d b dst src sp
     = Some (match r.2 with
             | Some _ => d2
             | None => committed d2 (Pix cand)
             end, r.1, r.2)).
Proof.
  intros Hok Hh He Hfast Hinit Hnext Hdraw d2.
  destruct (initNext_spec d Hok)
    as (d1' & n' & Hinit' & Hnext' & Hok1 & Hrect & Hoff & Hbuf & Hhalt & _).
  rewrite Hinit in Hinit'. injection Hinit' as <-.
  rewrite Hnext in Hnext'. injection Hnext' as <-.
  pose proof Hok1 as (Hmin & Hw0 & Hw1 & Hev & Hh0 & Hh1 & _ & Hlb & Hn).
  rewrite Hnext in Hn. destruct Hn as (Hnr & Hns & Hnl & Hll).
  apply draw_Draw_shape in Hdraw as Hshape. destruct Hshape as (Hcr & Hcs & Hcl).
  rewrite Hrect in *.
  assert (Hcand : Z.of_nat (length (Pix cand)) = Dx (rect d) ÷ 2 * Dy (rect d))
    by (rewrite Hcl; done).
  destruct (calculateDiff_box d2 cand) as (mc & xc & mr & xr & Hdiff & Hnone & Hbox);
    try (unfold d2; simpl; rewrite ?Hrect; done).
  unfold d2 in Hnone, Hbox; simpl in Hnone, Hbox. rewrite Hrect in Hbox.
  unfold Draw. rewrite Hh, He, Hfast, Hinit. cbn [mbind option_bind].
  rewrite Hnext. cbn [mbind option_bind]. rewrite Hdraw. cbn [mbind option_bind].
  fold d2. rewrite Hdiff. cbn [mbind option_bind].
  destruct (decide (Pix cand = Pix (lastDm d1))) as [Heq|Hne].
  - left. split; [done|].
    rewrite (proj2 (Z.ltb_lt xc mc)) by (by apply Hnone). done.
  - right. split; [done|].
    assert (Hne' : Pix (lastDm d1) ≠ Pix cand) by congruence.
    specialize (Hbox Hne').
    exists mc, xc, mr, xr. split; [done|]. split; [done|].
    pose proof Hbox as (? & ? & ? & ? & ? & ? & Hevn & Hodd & _).
    rewrite (proj2 (Z.ltb_ge xc mc)) by lia.
    rewrite (extractRegion_payload d2 cand mc xc mr xr);
      try (unfold d2; simpl; rewrite ?Hrect; done).
    2:{ unfold contained, d2. simpl. rewrite Hrect. lia. }
    cbn [mbind option_bind]. unfold d2 at 2. cbn [rect set_next]. rewrite Hrect.
    destruct (writeRect _ _ _ _ _ _ _) as [b' [e|]]; cbn [fst snd]; [done|].
    unfold committed, d2. cbn [buffer lastDm set_next set_buffer].
    rewrite !copy_same_length by lia. done.
Qed.

Lemma session_ok_set_next (d : Dev) (n cand : HorizontalNibble) :
  session_ok d → next d = Some n → same_shape n cand →
  session_ok (set_next d (Some cand)).
Proof.
  intros (? & ? & ? & ? & ? & ? & ? & ? & Hn) Hnext (Hr & Hs & Hl).
  rewrite Hnext in Hn. destruct Hn as (? & ? & ? & ?).
  unfold session_ok. simpl. split_and!; try done; congruence.
Qed.

Lemma session_ok_committed (d : Dev) (cand : HorizontalNibble) :
  session_ok d → next d = Some cand →
  session_ok (committed d (Pix cand)).
Proof.
  intros (? & ? & ? & ? & ? & ? & ? & ? & Hn) Hnext.
  rewrite Hnext in Hn. destruct Hn as (? & ? & ? & ?).
  unfold session_ok, committed. simpl. rewrite Hnext. by split_and!.
Qed.

(** After a differential [Draw] that returned [nil] the baseline
    equals the candidate. *)
Lemma Draw_differential_synced (d0 : Dev) (b0 : Bus) (dst : Rectangle)
    (src : draw.Image) (sp : Point) (d : Dev) (b : Bus) :
  session_ok d0 → halted d0 = false →
  Empty (Intersect dst (rect d0)) = false →
  fullFrameSource d0 (Intersect dst (rect d0)) src sp = None →
  Draw d0 b0 dst src sp = Some (d, b, None) →
  session_ok d ∧ halted d = false ∧
  ∃ n, next d = Some n ∧ Pix (lastDm d) = Pix n.
Proof.
  intros Hok Hh He Hfast Hrun.
  destruct (initNext_spec d0 Hok)
    as (d1 & n1 & Hinit & Hnext & Hok1 & _ & _ & _ & Hhalt & _).
  destruct (draw.Draw n1 (Intersect dst (rect d0)) src sp) as [cand|] eqn:Hdraw.
  2:{ unfold Draw in Hrun. rewrite Hh, He, Hfast, Hinit in Hrun.
      cbn [mbind option_bind] in Hrun. rewrite Hnext in Hrun.
      cbn [mbind option_bind] in Hrun. by rewrite Hdraw in Hrun. }
  pose proof (draw_Draw_shape _ _ _ _ _ Hdraw) as Hshape.
  pose proof (session_ok_set_next d1 n1 cand Hok1 Hnext Hshape) as Hok2.
  destruct (Draw_differential d0 b0 dst src sp d1 n1 cand Hok Hh He Hfast
              Hinit Hnext Hdraw)
    as [[Heq Hres]|(Hne & mc & xc & mr & xr & _ & _ & Hres)].
  - rewrite Hres in Hrun. injection Hrun as <- <-.
    split; [done|]. split; [simpl; congruence|].
    exists cand. by split.
  - cbv zeta in Hres. rewrite Hres in Hrun.
    destruct (writeRect _ _ _ _ _ _ _) as [b' [e|]]; cbn [fst snd] in Hrun;
      [done|].
    injection Hrun as <- <-.
    split; [by apply session_ok_committed|].
    split; [simpl; congruence|].
    exists cand. by split.
Qed.

(** The differential path is idle on an unchanged candidate.  In a
    session that is not halted, a [Draw] that takes the differential
    path and whose rendered candidate is byte-identical to the baseline
    of the diff ([lastDm], which starts as a copy of [buffer]) returns
    [nil] and leaves the bus untouched.  In particular, after a
    differential [Draw] that returned [nil], a second differential
    [Draw] whose rendering leaves the candidate as it is makes no
    transport call and changes nothing. *)
Lemma Draw_unchanged_candidate_noop :
  (∀ (d : Dev) (b : Bus) (dst : Rectangle) (src : draw.Image) (sp : Point)
     (d1 : Dev) (n cand : HorizontalNibble),
     session_ok d → halted d = false →
     Empty (Intersect dst (rect d)) = false →
     fullFrameSource d (Intersect dst (rect d)) src sp = None →
     initNext d = Some d1 → next d1 = Some n →
     draw.Draw n (Intersect dst (rect d)) src sp = Some cand →
     Pix cand = Pix (lastDm d1) →
     Draw d b dst src sp = Some (set_next d1 (Some cand), b, None)) ∧
  (∀ (d0 : Dev) (b0 : Bus) (dst0 : Rectangle) (src0 : draw.Image) (sp0 : Point)
     (d : Dev) (b : Bus) (dst : Rectangle) (src : draw.Image) (sp : Point)
     (n : HorizontalNibble),
     session_ok d0 → halted d0 = false →
     Empty (Intersect dst0 (rect d0)) = false →
     fullFrameSource d0 (Intersect dst0 (rect d0)) src0 sp0 = None →
     Draw d0 b0 dst0 src0 sp0 = Some (d, b, None) →
     Empty (Intersect dst (rect d)) = false →
     fullFrameSource d (Intersect dst (rect d)) src sp = None →
     next d = Some n →
     draw.Draw n (Intersect dst (rect d)) src sp = Some n →
     Draw d b dst src sp = Some (d, b, None)).
Proof.
  split.
  - intros d b dst src sp d1 n cand Hok Hh He Hfast Hinit Hnext Hdraw Heq.
    destruct (Draw_differential d b dst src sp d1 n cand Hok Hh He Hfast
                Hinit Hnext Hdraw) as [[_ Hres]|[Hne _]]; [done|].
    by destruct Hne.
  - intros d0 b0 dst0 src0 sp0 d b dst src sp n Hok0 Hh0 He0 Hfast0 Hrun
           He Hfast Hnext Hdraw.
    destruct (Draw_differential_synced d0 b0 dst0 src0 sp0 d b Hok0 Hh0 He0
                Hfast0 Hrun) as (Hok & Hh & n' & Hnext' & Hsync).
    rewrite Hnext in Hnext'. injection Hnext' as <-.
    assert (Hinit : initNext d = Some d) by (unfold initNext; by rewrite Hnext).
    destruct (Draw_differential d b dst src sp d n n Hok Hh He Hfast
                Hinit Hnext Hdraw) as [[_ Hres]|[Hne _]].
    + by rewrite Hres, set_next_id.
    + by destruct Hne.
Qed.

Example Draw_unchanged_candidate_noop_4x1 :
  Draw (fresh 4 1) idle r41 (uniform r41 0) ZP
  = Some (drawn 4 1 [0; 0] [0; 0], idle, None) ∧
  Draw shown5 sent5 r41 (uniform r41 5) ZP = Some (shown5, sent5, None).
Proof.
  split.
  - apply (proj1 Draw_unchanged_candidate_noop (fresh 4 1) idle r41
             (uniform r41 0) ZP (drawn 4 1 [0; 0] [0; 0])
             (frame 4 1 [0; 0]) (frame 4 1 [0; 0])); try reflexivity.
    apply fresh_session_ok; [lia|reflexivity|lia].
  - apply (proj2 Draw_unchanged_candidate_noop (fresh 4 1) idle r41
             (uniform r41 5) ZP shown5 sent5 r41 (uniform r41 5) ZP
             (frame 4 1 [85; 85])); try reflexivity.
    apply fresh_session_ok; [lia|reflexivity|lia].
Defined.

(** Rectangles without a common pixel have an empty intersection. *)
Lemma Intersect_no_common_point (r s : Rectangle) :
  (∀ x y, ¬ (In {| X := x; image.Y := y |} r = true ∧
             In {| X := x; image.Y := y |} s = true)) →
  Empty (Intersect r s) = true.
Proof.
  intros Hno. unfold Intersect.
  match goal with |- Empty (if Empty ?q then _ else _) = _ =>
    remember q as r' eqn:Hr' end.
  destruct (Empty r') eqn:He; [done|].
  exfalso. apply (Hno (X (Min r')) (image.Y (Min r'))).
  unfold Empty in He. apply orb_false_iff in He as [Hx Hy].
  apply Z.leb_gt in Hx, Hy. subst r'. simpl in *.
  rewrite !In_bounds.
  destruct (Z.ltb_spec (X (Min r)) (X (Min s))),
           (Z.ltb_spec (image.Y (Min r)) (image.Y (Min s))),
           (Z.ltb_spec (X (Max s)) (X (Max r))),
           (Z.ltb_spec (image.Y (Max s)) (image.Y (Max r))); lia.
Qed.

(** A handle returned by [NewSPI] is a session, not halted, with an
    all-zero [buffer] and no double buffer yet. *)
Lemma NewSPI_device (b b' : Bus) (o : option Opts) (d : Dev) (e : error) :
  NewSPI b o = Some (b', Some d, e) →
  e = None ∧ session_ok d ∧ halted d = false ∧ next d = None ∧
  Dx (rect d) = W (default defaultOpts o) ∧
  Dy (rect d) = H (default defaultOpts o) ∧
  buffer d = replicate (Z.to_nat (Dx (rect d) ÷ 2 * Dy (rect d))) 0.
Proof.
  unfold NewSPI. set (op := default defaultOpts o).
  destruct (Z.leb_spec (W op) 0) as [|Hw0]; [done|].
  destruct (Z.eqb_spec (Z.rem (W op) 2) 0) as [Hev|]; [|done].
  destruct (Z.ltb_spec 480 (W op)) as [|Hw1]; [done|].
  destruct (Z.leb_spec (H op) 0) as [|Hh0]; [done|].
  destruct (Z.ltb_spec 128 (H op)) as [|Hh1]; [done|].
  cbn [orb negb].
  destruct (call Connect b) as [b1 [e1|]]; [done|].
  unfold make. rewrite decide_True by (apply Z.quot_pos; nia).
  cbn [mbind option_bind].
  destruct (init _ _ _) as [[b2 [e2|]]|]; cbn [mbind option_bind]; [done| |done].
  intros [= <- <- <-].
  assert (Hq : W op * H op ÷ 2 = W op ÷ 2 * H op).
  { pose proof (even_width _ Hev).
    replace (W op * H op) with (W op ÷ 2 * H op * 2) by nia.
    by rewrite Z.quot_mul by lia. }
  unfold session_ok, image.Rect, Dx, Dy. cbn.
  rewrite (proj2 (Z.ltb_ge (W op) 0)), (proj2 (Z.ltb_ge (H op) 0)) by lia. cbn.
  rewrite !Z.sub_0_r, length_replicate, Z2Nat.id, Hq by (apply Z.quot_pos; nia).
  by split_and!.
Qed.

(** [Write] on a buffer of the right size: the frame is sent, and
    [buffer] takes it only if the send returns [nil]; on an error the
    handle is returned as it was. *)
Lemma Write_outcome (d : Dev) (b : Bus) (pixels : list Z) :
  halted d = false → length pixels = length (buffer d) →
  Write d b pixels
  = match (writeFullFrame d b pixels).2 with
    | Some e => (d, (writeFullFrame d b pixels).1, (0, Some e))
    | None => (set_buffer d pixels, (writeFullFrame d b pixels).1,
               (Z.of_nat (length pixels), None))
    end.
Proof.
  intros Hh Hlen. unfold Write. rewrite Hh, Hlen, Nat.eqb_refl. simpl.
  destruct (writeFullFrame d b pixels) as [b' [e|]]; simpl; [done|].
  by rewrite copy_same_length.
Qed.

(** The full-frame path of [Draw] sends the pixels of the source and
    returns the handle as it was. *)
Lemma Draw_full_frame (d : Dev) (b : Bus) (dst : Rectangle)
    (src : draw.Image) (sp : Point) (srcImg : HorizontalNibble) :
  halted d = false →
  Empty (Intersect dst (rect d)) = false →
  fullFrameSource d (Intersect dst (rect d)) src sp = Some srcImg →
  Draw d b dst src sp
  = Some (d, (writeFullFrame d b (Pix srcImg)).1,
             (writeFullFrame d b (Pix srcImg)).2).
Proof.
  intros Hh He Hfast. unfold Draw. rewrite Hh, He, Hfast.
  by destruct (writeFullFrame d b (Pix srcImg)).
Qed.

(** ** What the operations keep *)

Lemma NewHorizontalNibble_store_ok (r : Rectangle) (p : HorizontalNibble) :
  0 ≤ Dx r → 0 ≤ Dy r →
  NewHorizontalNibble r = Some p →
  store_ok p ∧ image4bit.Rect p = r ∧
  Pix p = replicate (Z.to_nat (Dx r ÷ 2 * Dy r)) 0.
Proof.
  intros Hw Hh. unfold NewHorizontalNibble.
  rewrite (proj2 (Z.ltb_ge (Dx r) 0)), (proj2 (Z.ltb_ge (Dy r) 0)) by lia.
  cbn [orb]. destruct (Z.eqb_spec (Z.rem (Dx r) 2) 0) as [Hev|]; [|done].
  cbn [negb]. unfold make.
  assert (0 ≤ Dx r ÷ 2) by (apply Z.quot_pos; lia).
  rewrite decide_True by nia. cbn [mbind option_bind].
  intros [= <-]. unfold store_ok. cbn [Pix Stride image4bit.Rect].
  rewrite length_replicate, Z2Nat.id by nia. by split_and!.
Qed.

Lemma store_ok_same_shape (p q : HorizontalNibble) :
  store_ok p → same_shape p q → store_ok q.
Proof.
  intros (? & ? & ?) (Hr & Hs & Hl). unfold store_ok.
  rewrite Hr, Hs, Hl. by split_and!.
Qed.

Lemma Set_store_ok (p p' : HorizontalNibble) (x y : Z) (c : Color) :
  store_ok p → Set_ p x y c = Some p' → store_ok p'.
Proof.
  intros Hok Hset. apply (store_ok_same_shape p); [done|].
  by apply Set_shape in Hset.
Qed.

Lemma Write_session_ok (d : Dev) (b : Bus) (pixels : list Z) :
  session_ok d → session_ok (Write d b pixels).1.1.
Proof.
  intros Hok. unfold Write. destruct (halted d); [done|].
  destruct (Nat.eqb_spec (length pixels) (length (buffer d))) as [Hlen|];
    [|done].
  cbn [negb]. destruct (writeFullFrame d b pixels) as [b' [e|]]; [done|].
  cbn [fst]. rewrite copy_same_length by done.
  destruct Hok as (? & ? & ? & ? & ? & ? & ? & Hb & ?).
  unfold session_ok. cbn. rewrite Hlen. by split_and!.
Qed.

Lemma Halt_session_ok (d : Dev) (b : Bus) :
  session_ok d → session_ok (Halt d b).1.1.
Proof.
  intros Hok. unfold Halt. by destruct (sendCommand b 174).
Qed.

Lemma Draw_session_ok (d : Dev) (b : Bus) (dst : Rectangle)
    (src : draw.Image) (sp : Point) (d' : Dev) (b' : Bus) (e : error) :
  session_ok d → Draw d b dst src sp = Some (d', b', e) → session_ok d'.
Proof.
  intros Hok Hrun.
  destruct (halted d) eqn:Hh.
  { unfold Draw in Hrun. rewrite Hh in Hrun. by injection Hrun as <- _ _. }
  destruct (Empty (Intersect dst (rect d))) eqn:He.
  { unfold Draw in Hrun. rewrite Hh, He in Hrun. by injection Hrun as <- _ _. }
  destruct (fullFrameSource d (Intersect dst (rect d)) src sp) as [srcImg|]
    eqn:Hfast.
  { rewrite (Draw_full_frame d b dst src sp srcImg Hh He Hfast) in Hrun.
    by injection Hrun as <- _ _. }
  destruct (initNext_spec d Hok)
    as (d1 & n1 & Hinit & Hnext & Hok1 & _).
  destruct (draw.Draw n1 (Intersect dst (rect d)) src sp) as [cand|] eqn:Hdraw.
  2:{ unfold Draw in Hrun. rewrite Hh, He, Hfast, Hinit in Hrun.
      cbn [mbind option_bind] in Hrun. rewrite Hnext in Hrun.
      cbn [mbind option_bind] in Hrun. by rewrite Hdraw in Hrun. }
  pose proof (draw_Draw_shape _ _ _ _ _ Hdraw) as Hshape.
  pose proof (session_ok_set_next d1 n1 cand Hok1 Hnext Hshape) as Hok2.
  destruct (Draw_differential d b dst src sp d1 n1 cand Hok Hh He Hfast
              Hinit Hnext Hdraw)
    as [[_ Hres]|(_ & mc & xc & mr & xr & _ & _ & Hres)].
  - rewrite Hres in Hrun. by injection Hrun as <- _ _.
  - cbv zeta in Hres. rewrite Hres in Hrun.
    injection Hrun as <- _ _.
    destruct (writeRect _ _ _ _ _ _ _).2; [done|].
    by apply session_ok_committed.
Qed.

(** [NewSPI] without options on a transport that works: the 256 x 64
    handle, after the initialisation sequence, the clearing of the
    display RAM and Display ON. *)
Example NewSPI_default :
  ∃ b, NewSPI idle None = Some (b, Some (fresh 256 64), None) ∧
       length (log b) = 9%nat.
Proof. eexists. split; [vm_compute; reflexivity|reflexivity]. Qed.

(** ** A failed send and its retry

    The transport fails on the command transfer of a differential
    [Draw]: [buffer] and [lastDm] keep the old frame and the error comes
    back.  The same call on the resulting handle, with a transport that
    works, sends the same box and commits the frame. *)

Example Draw_retry_after_failure :
  Draw (fresh 4 1) (failing 1 "io") r41 (uniform r41 5) ZP
  = Some (drawn 4 1 [0; 0] [85; 85],
          {| log := [DcOut Low; Tx [21; 119; 120; 117; 0; 0; 92]];
             script := [] |}, Some "io") ∧
  Draw (drawn 4 1 [0; 0] [85; 85]) idle r41 (uniform r41 5) ZP
  = Some (shown5, sent5, None).
Proof. by split. Qed.

(** ** The outcome of transport calls *)

(** The outcome of calls made in turn is the one that the script of the
    bus tells. *)
Lemma attempt_sends (calls : list Event) (b : Bus) :
  sends calls b (attempt calls b).
Proof.
  revert b. induction calls as [|ev calls IH]; intros [lg sc].
  - split; cbn [log script length attempt].
    + intros _. by rewrite app_nil_r.
    + intros j e Hj. lia.
  - cbn [attempt]. unfold call. cbn [log script].
    destruct sc as [|[e0|] sc]; cbn [head tail default from_option id].
    + destruct (IH {| log := lg ++ [ev]; script := [] |}) as [Hall _].
      cbn [log script] in Hall. rewrite take_nil, drop_nil in Hall.
      split; cbn [log script length].
      * intros _. rewrite Hall by constructor.
        by rewrite <- app_assoc.
      * intros j e _ _ Hl. by rewrite lookup_nil in Hl.
    + split; cbn [log script length].
      * intros Hall. cbn in Hall. by apply Forall_cons in Hall as [? _].
      * intros [|j] e _ Hall Hl.
        -- cbn in Hl. injection Hl as ->. by cbn.
        -- cbn in Hall. by apply Forall_cons in Hall as [? _].
    + destruct (IH {| log := lg ++ [ev]; script := sc |}) as [Hall Hfail].
      cbn [log script] in Hall, Hfail. split; cbn [log script length].
      * intros Hn. cbn in Hn. apply Forall_cons in Hn as [_ Hn].
        rewrite (Hall Hn). cbn. by rewrite <- app_assoc.
      * intros [|j] e Hj Hn Hl; [done|].
        cbn in Hn, Hl. apply Forall_cons in Hn as [_ Hn].
        rewrite (Hfail j e ltac:(lia) Hn Hl). cbn. by rewrite <- app_assoc.
Qed.

Lemma sendCommands_attempt (b : Bus) (cmds : list Z) :
  sendCommands b cmds = attempt [DcOut Low; Tx cmds] b.
Proof.
  unfold sendCommands. cbn [attempt].
  destruct (call (DcOut Low) b) as [b1 [e|]]; [done|].
  by destruct (call (Tx cmds) b1) as [b2 [e|]].
Qed.

Lemma sendData_attempt (b : Bus) (data : list Z) :
  sendData b data = attempt [DcOut High; Tx data] b.
Proof.
  unfold sendData. cbn [attempt].
  destruct (call (DcOut High) b) as [b1 [e|]]; [done|].
  by destruct (call (Tx data) b1) as [b2 [e|]].
Qed.

Lemma writeRect_attempt (d : Dev) (b : Bus) (x y width height : Z)
    (pixels : list Z) :
  writeRect d b x y width height pixels
  = attempt (rectCalls (u8 ((x + columnOffset d) ÷ 2))
                       (u8 ((x + width - 1 + columnOffset d) ÷ 2))
                       (u8 y) (u8 (y + height - 1)) pixels) b.
Proof.
  unfold writeRect, rectCalls. rewrite sendCommands_attempt. cbn [attempt].
  destruct (call (DcOut Low) b) as [b1 [e|]]; [done|].
  destruct (call (Tx _) b1) as [b2 [e|]]; [done|].
  rewrite sendData_attempt. cbn [attempt].
  destruct (call (DcOut High) b2) as [b3 [e|]]; [done|].
  by destruct (call (Tx pixels) b3) as [b4 [e|]].
Qed.

Lemma sendCommands_sends (b : Bus) (cmds : list Z) :
  sends [DcOut Low; Tx cmds] b (sendCommands b cmds).
Proof. rewrite sendCommands_attempt. apply attempt_sends. Qed.

(** [writeRect] on a rectangle inside the frame of a session: the
    [byte] conversions lose nothing. *)
Lemma writeRect_box_sends (d : Dev) (b : Bus)
    (minCol maxCol minRow maxRow : Z) (payload : list Z) :
  session_ok d →
  contained d minCol maxCol minRow maxRow →
  sends (rectCalls ((minCol + columnOffset d) ÷ 2)
                   ((maxCol + columnOffset d) ÷ 2) minRow maxRow payload) b
        (writeRect d b minCol minRow (maxCol - minCol + 1)
                   (maxRow - minRow + 1) payload).
Proof.
  intros Hok Hin.
  destruct (centering_bounds d minCol maxCol minRow maxRow Hok Hin)
    as (_ & Hc0 & Hc1 & Hr0 & Hr1).
  rewrite writeRect_attempt.
  replace (minCol + (maxCol - minCol + 1) - 1) with maxCol by lia.
  replace (minRow + (maxRow - minRow + 1) - 1) with maxRow by lia.
  unfold u8. rewrite !Z.mod_small by lia. apply attempt_sends.
Qed.

Lemma sends_working (calls : list Event) (b : Bus) (r : Bus * error) :
  sends calls b r → script b = [] →
  r = ({| log := log b ++ calls; script := [] |}, None).
Proof.
  intros [Hall _] Hs. rewrite Hall by (by rewrite Hs, take_nil).
  by rewrite Hs, drop_nil.
Qed.


(** * The statements of the specification *)

(** ** DiffEngine *)

(** C1.  On two equal-dimension frames (the baseline [lastDm] and the
    candidate [next]) [calculateDiff] returns a box, and that box
    reports "no change" ([maxCol < minCol], the test [Draw] makes) if
    and only if the two backing byte sequences are identical.  When
    they differ the box is the least byte-aligned rectangle around the
    differing bytes: [minCol] is even, [maxCol] is odd, every differing
    byte lies inside the box, and the first row, the last row, the
    byte column of [minCol] and the byte column of [maxCol] each hold a
    differing byte. *)
Theorem calculateDiff_minimal_box (d : Dev) (nxt : HorizontalNibble) :
  0 < Dx (rect d) → Z.rem (Dx (rect d)) 2 = 0 → 0 < Dy (rect d) →
  next d = Some nxt →
  Z.of_nat (length (Pix (lastDm d))) = Dx (rect d) ÷ 2 * Dy (rect d) →
  Z.of_nat (length (Pix nxt)) = Dx (rect d) ÷ 2 * Dy (rect d) →
  ∃ minCol maxCol minRow maxRow,
    calculateDiff d = Some (minCol, maxCol, minRow, maxRow) ∧
    (maxCol < minCol ↔ Pix (lastDm d) = Pix nxt) ∧
    (Pix (lastDm d) ≠ Pix nxt →
     minimal_box (Pix (lastDm d)) (Pix nxt) (Dx (rect d)) (Dy (rect d))
                 minCol maxCol minRow maxRow).
Proof. apply calculateDiff_box. Qed.

(** The example of the specification and of the driver's test: row 0
    changes from [0x00, 0x00] to [0xAB, 0xCD], row 1 does not. *)
Lemma calculateDiff_minimal_box_witness :
  calculateDiff diff42 = Some (0, 3, 0, 0) ∧
  minimal_box [0; 0; 0; 0] [171; 205; 0; 0] 4 2 0 3 0 0.
Proof.
  destruct (calculateDiff_minimal_box diff42 (frame 4 2 [171; 205; 0; 0])
              eq_refl eq_refl eq_refl eq_refl eq_refl eq_refl)
    as (minCol & maxCol & minRow & maxRow & Hrun & _ & Hbox).
  assert (E : calculateDiff diff42 = Some (0, 3, 0, 0)) by reflexivity.
  rewrite E in Hrun. injection Hrun as <- <- <- <-.
  split; [reflexivity|]. apply Hbox. discriminate.
Defined.

(** ** PixelStore *)

(** C4.  In a frame whose bounds start at the origin and whose stride
    is half its width, the in-bounds pixel [(x, y)] lives in the byte at
    offset [y * stride + x / 2], in the high nibble (shift 4) when [x]
    is even and in the low nibble (shift 0) when [x] is odd; so the
    byte [b] at row [y], byte column [i] encodes pixel [2i] as [b >> 4]
    and pixel [2i + 1] as [b & 0xF]. *)
Theorem pixel_layout (p : HorizontalNibble) (x y b : Z) :
  Min (image4bit.Rect p) = ZP →
  Stride p = Dx (image4bit.Rect p) ÷ 2 →
  In {| X := x; image.Y := y |} (image4bit.Rect p) = true →
  index (Pix p) (y * Stride p + x ÷ 2) = Some b →
  is_byte b →
  pixOffset p x y = (y * Stride p + x ÷ 2, if Z.even x then 4 else 0) ∧
  Gray4At p x y =
    Some {| image4bit.Y := Z.land (Z.shiftr b (if Z.even x then 4 else 0)) 15 |} ∧
  (∀ i, x = 2 * i →
        x ÷ 2 = i ∧ Gray4At p x y = Some {| image4bit.Y := Z.shiftr b 4 |}) ∧
  (∀ i, x = 2 * i + 1 →
        x ÷ 2 = i ∧ Gray4At p x y = Some {| image4bit.Y := Z.land b 15 |}).
Proof.
  intros Hmin _ Hin Hb Hbyte.
  assert (Hoff : pixOffset p x y
                 = (y * Stride p + x ÷ 2, if Z.even x then 4 else 0)).
  { unfold pixOffset. rewrite Hmin, shift_cases. simpl.
    by rewrite !Z.sub_0_r. }
  assert (Hget : Gray4At p x y = Some {| image4bit.Y :=
            Z.land (Z.shiftr b (if Z.even x then 4 else 0)) 15 |}).
  { unfold Gray4At. rewrite Hin. cbn [negb]. rewrite Hoff, Hb. done. }
  apply In_bounds in Hin as [Hx _]. rewrite Hmin in Hx. simpl in Hx.
  split_and!; [done|done| |].
  - intros i ->. split; [by rewrite Z.mul_comm, Z.quot_mul by lia|].
    rewrite Hget, Z.even_mul. simpl. by rewrite high_nibble.
  - intros i ->. split.
    + rewrite Z.quot_div_nonneg by lia.
      symmetry. apply Z.div_unique with (r := 1); lia.
    + rewrite Hget, Z.even_add, Z.even_mul. simpl.
      by rewrite Z.shiftr_0_r.
Qed.

Lemma pixel_layout_witness :
  pixOffset (frame 4 1 [90; 60]) 2 0 = (1, 4) ∧
  Gray4At (frame 4 1 [90; 60]) 2 0 = Some {| image4bit.Y := 3 |} ∧
  (∀ i, 2 = 2 * i →
        2 ÷ 2 = i ∧
        Gray4At (frame 4 1 [90; 60]) 2 0
        = Some {| image4bit.Y := Z.shiftr 60 4 |}) ∧
  (∀ i, 2 = 2 * i + 1 →
        2 ÷ 2 = i ∧
        Gray4At (frame 4 1 [90; 60]) 2 0
        = Some {| image4bit.Y := Z.land 60 15 |}).
Proof.
  apply (pixel_layout (frame 4 1 [90; 60]) 2 0 60); try reflexivity.
  unfold is_byte. lia.
Defined.

(** C5.  On every pixel store, at every in-bounds coordinate and for
    every value [v] in [0,255], [SetGray4] with [Gray4{Y: v}] succeeds
    and a following [Gray4At] at the same coordinate returns
    [v & 0xF]. *)
Theorem SetGray4_then_Gray4At (p : HorizontalNibble) (x y v : Z) :
  store_ok p →
  In {| X := x; image.Y := y |} (image4bit.Rect p) = true →
  0 ≤ v ≤ 255 →
  ∃ p', SetGray4 p x y {| image4bit.Y := v |} = Some p' ∧
        Gray4At p' x y = Some {| image4bit.Y := Z.land v 15 |}.
Proof.
  intros Hok Hin _.
  destruct (SetGray4_Gray4At p x y v Hok Hin) as (p' & ? & ? & _). eauto.
Qed.

Lemma SetGray4_then_Gray4At_witness :
  ∃ p', SetGray4 (frame 4 1 [90; 60]) 2 0 {| image4bit.Y := 171 |} = Some p' ∧
        Gray4At p' 2 0 = Some {| image4bit.Y := Z.land 171 15 |}.
Proof.
  apply (SetGray4_then_Gray4At (frame 4 1 [90; 60]) 2 0 171).
  - repeat split.
  - reflexivity.
  - lia.
Defined.

(** C8.  At every coordinate outside the bounds of a pixel store,
    [Gray4At] returns 0 without failing, and [SetGray4] and [Set], with
    any value, return without failing and leave the store, its backing
    bytes included, as it was. *)
Theorem out_of_bounds_noop (p : HorizontalNibble) (x y : Z) (g : Gray4)
    (c : Color) :
  ¬ (X (Min (image4bit.Rect p)) ≤ x < X (Max (image4bit.Rect p)) ∧
     image.Y (Min (image4bit.Rect p)) ≤ y < image.Y (Max (image4bit.Rect p))) →
  Gray4At p x y = Some {| image4bit.Y := 0 |} ∧
  SetGray4 p x y g = Some p ∧
  Set_ p x y c = Some p.
Proof.
  intros Hout.
  assert (Hin : In {| X := x; image.Y := y |} (image4bit.Rect p) = false).
  { destruct (In _ _) eqn:E; [|done]. by apply In_bounds in E. }
  unfold Gray4At, SetGray4, Set_. by rewrite Hin.
Qed.

Lemma out_of_bounds_noop_witness :
  Gray4At (frame 4 1 [90; 60]) (-1) 0 = Some {| image4bit.Y := 0 |} ∧
  SetGray4 (frame 4 1 [90; 60]) (-1) 0 {| image4bit.Y := 7 |}
    = Some (frame 4 1 [90; 60]) ∧
  Set_ (frame 4 1 [90; 60]) (-1) 0 (ColorRGBA 65535 65535 65535 65535)
    = Some (frame 4 1 [90; 60]).
Proof.
  apply (out_of_bounds_noop (frame 4 1 [90; 60]) (-1) 0).
  simpl. lia.
Defined.

(** ** RegionCodec *)

(** C6, as the code has it.  [extractRegion] checks no bound and has no
    error result.  For a rectangle inside the frame that covers whole
    bytes ([minCol] even, [maxCol] odd) it returns, row-major for each
    row from [minRow] to [maxRow], the bytes of that row from byte
    column [minCol/2] to byte column [maxCol/2], both included. *)
Theorem extractRegion_contained (d : Dev) (nxt : HorizontalNibble)
    (minCol maxCol minRow maxRow : Z) :
  next d = Some nxt →
  Z.rem (Dx (rect d)) 2 = 0 →
  Z.of_nat (length (Pix nxt)) = Dx (rect d) ÷ 2 * Dy (rect d) →
  contained d minCol maxCol minRow maxRow →
  Z.even minCol = true → Z.odd maxCol = true →
  extractRegion d minCol maxCol minRow maxRow
  = Some (payload_spec (Pix nxt) (Dx (rect d) ÷ 2) minCol maxCol minRow maxRow).
Proof. apply extractRegion_payload. Qed.

(** The example of the specification and of the driver's test. *)
Lemma extractRegion_contained_witness :
  extractRegion store82 2 5 0 0 = Some [17; 34].
Proof.
  rewrite (extractRegion_contained store82
             (frame 8 2 [0; 17; 34; 51; 68; 85; 102; 119]) 2 5 0 0);
    [reflexivity..| |reflexivity|reflexivity].
  unfold contained. vm_compute. repeat split; discriminate.
Defined.

(** C6, as stated, fails: on the 8 x 2 store the rectangle of columns 8
    to 9 of row 0 lies outside the frame, and [extractRegion] returns
    the first byte of row 1 for it. *)
Lemma extractRegion_out_of_range_returns :
  ¬ contained store82 8 9 0 0 ∧ extractRegion store82 8 9 0 0 = Some [68].
Proof.
  split; [|reflexivity].
  intros (_ & _ & H & _). vm_compute in H. done.
Qed.

(** C7.  For a session built by [NewSPI], whose centering offset is
    [(480 - width) / 2], and a rectangle inside the frame, [writeRect]
    sends the column window [(minCol + offset) / 2 ..
    (maxCol + offset) / 2] and the row window [minRow .. maxRow] in one
    command transfer, then the payload.  On a transport that works the
    bus receives exactly these four calls and [writeRect] returns
    [nil]; on any transport the calls stop at the first that fails, and
    its error is returned. *)
Theorem writeRect_addressing (d : Dev) (b : Bus)
    (minCol maxCol minRow maxRow : Z) (payload : list Z) :
  session_ok d →
  contained d minCol maxCol minRow maxRow →
  let centeringOffset := (480 - Dx (rect d)) ÷ 2 in
  let window := rectCalls ((minCol + centeringOffset) ÷ 2)
                          ((maxCol + centeringOffset) ÷ 2)
                          minRow maxRow payload in
  let r := writeRect d b minCol minRow (maxCol - minCol + 1)
                     (maxRow - minRow + 1) payload in
  columnOffset d = centeringOffset ∧
  (script b = [] → r = ({| log := log b ++ window; script := [] |}, None)) ∧
  sends window b r.
Proof.
  intros Hok Hin off window r.
  destruct (centering_bounds d minCol maxCol minRow maxRow Hok Hin)
    as (Hoff & _).
  pose proof (writeRect_box_sends d b minCol maxCol minRow maxRow payload
                Hok Hin) as Hs.
  rewrite Hoff in Hs. fold off window r in Hs.
  split_and!; [done| |done].
  intros Hb. by apply sends_working.
Qed.

(** The example of the specification: width 256, offset 112, columns 0
    to 255 give the window 56 .. 183, which is what the bus receives. *)
Lemma writeRect_addressing_witness :
  columnOffset (fresh 256 64) = 112 ∧
  writeRect (fresh 256 64) idle 0 0 256 64 [7]
  = ({| log := [DcOut Low; Tx [21; 56; 183; 117; 0; 63; 92];
                DcOut High; Tx [7]];
        script := [] |}, None) ∧
  writeRect (fresh 256 64) (failing 1 "io") 0 0 256 64 [7]
  = ({| log := [DcOut Low; Tx [21; 56; 183; 117; 0; 63; 92]];
        script := [] |}, Some "io").
Proof.
  assert (Hok : session_ok (fresh 256 64))
    by (apply fresh_session_ok; [lia|reflexivity|lia]).
  assert (Hin : contained (fresh 256 64) 0 255 0 63)
    by (unfold contained; vm_compute; repeat split; discriminate).
  split_and!.
  - exact (proj1 (writeRect_addressing (fresh 256 64) idle 0 255 0 63 [7]
                    Hok Hin)).
  - exact (proj1 (proj2 (writeRect_addressing (fresh 256 64) idle 0 255 0 63
                           [7] Hok Hin)) eq_refl).
  - exact (proj2 (proj2 (proj2 (writeRect_addressing (fresh 256 64)
                                  (failing 1 "io") 0 255 0 63 [7] Hok Hin)))
             1%nat "io" ltac:(cbn; lia) ltac:(repeat constructor) eq_refl).
Defined.

(** ** DeviceSession *)

(** C2, where the code departs from it.  A fresh 4 x 1 session holds
    the all-zero frame and is not halted; the candidate is the all-zero
    [HorizontalNibble] of the size of the display, so its pixels are
    those of the committed frame.  [Draw] takes its full-frame path and
    sends the frame, and the same call made again sends it again. *)
Theorem Draw_full_frame_always_sends :
  halted (fresh 4 1) = false ∧
  Pix (frame 4 1 [0; 0]) = buffer (fresh 4 1) ∧
  Draw (fresh 4 1) idle r41 (draw.ImageNibble (frame 4 1 [0; 0])) ZP
  = Some (fresh 4 1,
          {| log := rectCalls 119 120 0 0 [0; 0]; script := [] |}, None) ∧
  Draw (fresh 4 1) {| log := rectCalls 119 120 0 0 [0; 0]; script := [] |}
       r41 (draw.ImageNibble (frame 4 1 [0; 0])) ZP
  = Some (fresh 4 1,
          {| log := rectCalls 119 120 0 0 [0; 0]
                    ++ rectCalls 119 120 0 0 [0; 0];
             script := [] |}, None).
Proof. by split_and!. Qed.

(** C3, where the code departs from it.  On the full-frame path of
    [Draw] the pixels of the source are sent and the handle is returned
    as it was, whatever the transport answers: after a send that
    succeeded neither [buffer] nor [lastDm] holds the candidate. *)
Theorem Draw_full_frame_not_committed (d : Dev) (b : Bus) (dst : Rectangle)
    (src : draw.Image) (sp : Point) (srcImg : HorizontalNibble) :
  halted d = false →
  Empty (Intersect dst (rect d)) = false →
  fullFrameSource d (Intersect dst (rect d)) src sp = Some srcImg →
  Draw d b dst src sp
  = Some (d, (writeFullFrame d b (Pix srcImg)).1,
             (writeFullFrame d b (Pix srcImg)).2).
Proof. apply Draw_full_frame. Qed.

(** The failing input: a white 4 x 1 frame drawn on a fresh session is
    sent, [Draw] returns [nil], and [buffer] still holds zeros. *)
Lemma Draw_full_frame_not_committed_witness :
  Draw (fresh 4 1) idle r41 (draw.ImageNibble (frame 4 1 [255; 255])) ZP
  = Some (fresh 4 1,
          {| log := rectCalls 119 120 0 0 [255; 255]; script := [] |}, None) ∧
  buffer (fresh 4 1) = [0; 0].
Proof.
  split; [|reflexivity].
  apply (Draw_full_frame_not_committed (fresh 4 1) idle r41
           (draw.ImageNibble (frame 4 1 [255; 255])) ZP
           (frame 4 1 [255; 255])); reflexivity.
Defined.

(** C9.  [Halt] sets the halted flag whether or not it was set; in a
    halted session every [Draw] and every [Write] returns the halted
    error; in a session that is not halted a [Write] whose buffer has
    not [width * height / 2] bytes returns the size error; and in both
    cases the handle and the bus are returned as they were. *)
Theorem halted_or_wrong_size_rejected (d : Dev) (b : Bus) (dst : Rectangle)
    (src : draw.Image) (sp : Point) (pixels : list Z) :
  Z.of_nat (length (buffer d)) = Dx (rect d) * Dy (rect d) ÷ 2 →
  (Halt d b).1.1 = set_halted d true ∧
  halted (Halt d b).1.1 = true ∧
  (∀ d' b', halted d' = true →
     Draw d' b' dst src sp = Some (d', b', Some errHalted) ∧
     Write d' b' pixels = (d', b', (0, Some errHalted))) ∧
  (halted d = false →
   Z.of_nat (length pixels) ≠ Dx (rect d) * Dy (rect d) ÷ 2 →
   Write d b pixels = (d, b, (0, Some errBufferSize))).
Proof.
  intros Hbuf. split_and!.
  - unfold Halt. by destruct (sendCommand b 174).
  - unfold Halt. by destruct (sendCommand b 174).
  - intros d' b' Hh. unfold Draw, Write. by rewrite Hh.
  - intros Hh Hlen. unfold Write. rewrite Hh.
    rewrite (proj2 (Nat.eqb_neq _ _)) by lia. done.
Qed.

Lemma halted_or_wrong_size_rejected_witness :
  (Halt (fresh 4 1) idle).1.1 = set_halted (fresh 4 1) true ∧
  halted (Halt (fresh 4 1) idle).1.1 = true ∧
  (∀ d' b', halted d' = true →
     Draw d' b' r41 (uniform r41 5) ZP = Some (d', b', Some errHalted) ∧
     Write d' b' [1; 2; 3] = (d', b', (0, Some errHalted))) ∧
  (halted (fresh 4 1) = false →
   Z.of_nat (length [1; 2; 3]) ≠ Dx (rect (fresh 4 1)) * Dy (rect (fresh 4 1)) ÷ 2 →
   Write (fresh 4 1) idle [1; 2; 3] = (fresh 4 1, idle, (0, Some errBufferSize))).
Proof.
  apply (halted_or_wrong_size_rejected (fresh 4 1) idle r41 (uniform r41 5)
           ZP [1; 2; 3]).
  reflexivity.
Defined.

(** C10.  In a session that is not halted, [Draw] with a destination
    rectangle that shares no pixel with the display returns [nil] at
    once: the bus and the handle, with all its buffers, are as they
    were. *)
Theorem Draw_outside_display (d : Dev) (b : Bus) (dst : Rectangle)
    (src : draw.Image) (sp : Point) :
  halted d = false →
  (∀ x y, ¬ (In {| X := x; image.Y := y |} dst = true ∧
             In {| X := x; image.Y := y |} (rect d) = true)) →
  Draw d b dst src sp = Some (d, b, None).
Proof.
  intros Hh Hno. unfold Draw.
  by rewrite Hh, (Intersect_no_common_point dst (rect d) Hno).
Qed.

Lemma Draw_outside_display_witness :
  Draw (fresh 256 64) idle (image.Rect 300 0 310 10) (uniform r41 5) ZP
  = Some (fresh 256 64, idle, None).
Proof.
  apply (Draw_outside_display (fresh 256 64) idle (image.Rect 300 0 310 10)
           (uniform r41 5) ZP); [reflexivity|].
  intros x y [H1 H2]. apply In_bounds in H1, H2. simpl in H1, H2. lia.
Defined.
(** * Further properties of the code *)

(** ** The colour model *)

Lemma land_15_bounds (v : Z) : 0 ≤ Z.land v 15 ≤ 15.
Proof.
  pose proof (Z.land_ones v 4 ltac:(lia)) as H.
  change (Z.ones 4) with 15 in H. rewrite H.
  pose proof (Z.mod_pos_bound v (2 ^ 4) ltac:(lia)). lia.
Qed.

Lemma RGBA_toGray4_nibble (v : Z) :
  0 ≤ v ≤ 15 →
  toGray4 (ColorRGBA (u32 (v * 4369)) (u32 (v * 4369)) (u32 (v * 4369)) 65535)
  = {| image4bit.Y := v |}.
Proof.
  intros Hv.
  assert (Hc : v = 0 ∨ v = 1 ∨ v = 2 ∨ v = 3 ∨ v = 4 ∨ v = 5 ∨ v = 6 ∨ v = 7 ∨
               v = 8 ∨ v = 9 ∨ v = 10 ∨ v = 11 ∨ v = 12 ∨ v = 13 ∨ v = 14 ∨
               v = 15) by lia.
  repeat destruct Hc as [->|Hc]; try subst v; reflexivity.
Qed.

(** A [Gray4] survives the trip through its [RGBA] channels and
    [Gray4Model]: [RGBA] spreads the low nibble over 16 bits (times
    0x1111) with full alpha, and the conversion of those channels gives
    the low nibble back. *)
Theorem Gray4_RGBA_roundtrip (c : Gray4) :
  let '(r, g, b, a) := RGBA c in
  a = 65535 ∧ r = Z.land (image4bit.Y c) 15 * 4369 ∧ g = r ∧ b = r ∧
  toGray4 (ColorRGBA r g b a) = {| image4bit.Y := Z.land (image4bit.Y c) 15 |}.
Proof.
  unfold RGBA. pose proof (land_15_bounds (image4bit.Y c)) as Hv.
  split_and!; try done.
  - unfold u32. apply Z.mod_small. lia.
  - by apply RGBA_toGray4_nibble.
Qed.

Lemma toGray4_luma (r g b a : Z) :
  0 ≤ r ≤ 65535 → 0 ≤ g ≤ 65535 → 0 ≤ b ≤ 65535 →
  image4bit.Y (toGray4 (ColorRGBA r g b a))
  = (299 * r + 587 * g + 114 * b + 500) / 1000 / 4096 ∧
  0 ≤ (299 * r + 587 * g + 114 * b + 500) / 1000 ≤ 65535.
Proof.
  intros Hr Hg Hb. cbn [toGray4 image4bit.Y]. unfold u32.
  change (2 ^ 32) with 4294967296.
  rewrite (Z.mod_small (299 * r)), (Z.mod_small (587 * g)),
    (Z.mod_small (114 * b)) by lia.
  rewrite (Z.mod_small (299 * r + 587 * g)) by lia.
  rewrite (Z.mod_small (299 * r + 587 * g + 114 * b)) by lia.
  rewrite (Z.mod_small (299 * r + 587 * g + 114 * b + 500)) by lia.
  rewrite Z.quot_div_nonneg by lia.
  set (y := (299 * r + 587 * g + 114 * b + 500) / 1000).
  assert (Hy : 0 ≤ y ≤ 65535).
  { unfold y. split; [apply Z.div_pos; lia|].
    apply Z.lt_succ_r. apply Z.div_lt_upper_bound; lia. }
  split; [|done].
  rewrite Z.shiftr_div_pow2 by lia. change (2 ^ 12) with 4096.
  unfold u8. apply Z.mod_small. split; [apply Z.div_pos; lia|].
  apply Z.div_lt_upper_bound; lia.
Qed.

(** On the 16-bit channels that [color.Color] promises, [toGray4]
    computes the rounded luma without wrapping, returns its top four
    bits, a value of 0 to 15, and maps a grey [r = g = b] to the top
    nibble of [r]. *)
Theorem toGray4_range (r g b a : Z) :
  0 ≤ r ≤ 65535 → 0 ≤ g ≤ 65535 → 0 ≤ b ≤ 65535 →
  0 ≤ image4bit.Y (toGray4 (ColorRGBA r g b a)) ≤ 15 ∧
  image4bit.Y (toGray4 (ColorRGBA r g b a))
  = (299 * r + 587 * g + 114 * b + 500) / 1000 / 4096 ∧
  (r = g → g = b → image4bit.Y (toGray4 (ColorRGBA r g b a)) = r / 4096).
Proof.
  intros Hr Hg Hb.
  destruct (toGray4_luma r g b a Hr Hg Hb) as [-> Hy].
  split_and!; [| |done|].
  - apply Z.div_pos; lia.
  - apply Z.lt_succ_r. apply Z.div_lt_upper_bound; lia.
  - intros -> ->. f_equal.
    replace (299 * b + 587 * b + 114 * b + 500) with (500 + b * 1000) by lia.
    rewrite Z.div_add by lia. done.
Qed.

Lemma toGray4_range_witness :
  0 ≤ image4bit.Y (toGray4 (ColorRGBA 34952 34952 34952 65535)) ≤ 15 ∧
  image4bit.Y (toGray4 (ColorRGBA 34952 34952 34952 65535))
  = (299 * 34952 + 587 * 34952 + 114 * 34952 + 500) / 1000 / 4096 ∧
  (34952 = 34952 → 34952 = 34952 →
   image4bit.Y (toGray4 (ColorRGBA 34952 34952 34952 65535)) = 34952 / 4096).
Proof. apply (toGray4_range 34952 34952 34952 65535); lia. Defined.

(** ** The pixel store *)

Lemma nibble_other (b y s s' : Z) :
  (s = 0 ∧ s' = 4) ∨ (s = 4 ∧ s' = 0) →
  Z.land (Z.shiftr (putNibble b s y) s') 15 = Z.land (Z.shiftr b s') 15.
Proof.
  intros Hs. apply Z.bits_inj'. intros n Hn.
  unfold putNibble, u8. change 256 with (2 ^ 8).
  rewrite !Z.land_spec, !Z.shiftr_spec, Z.lor_spec, Z.ldiff_spec by lia.
  rewrite testbit_15 by lia.
  destruct (Z.ltb_spec n 4); [|by rewrite !andb_false_r].
  rewrite !Z.mod_pow2_bits_low by lia.
  destruct Hs as [[-> ->]|[-> ->]].
  - rewrite !Z.shiftl_spec by lia.
    rewrite Z.land_spec, !testbit_15 by lia.
    rewrite (proj2 (Z.ltb_ge (n + 4 - 0) 4)) by lia.
    by rewrite andb_false_r, orb_false_r, !andb_true_r.
  - rewrite !Z.shiftl_spec_low by lia.
    by rewrite orb_false_r, !andb_true_r.
Qed.

Lemma putNibble_putNibble (b s a v : Z) :
  0 ≤ s → putNibble (putNibble b s a) s v = putNibble b s v.
Proof.
  intros Hs. apply Z.bits_inj'. intros n Hn.
  unfold putNibble, u8. change 256 with (2 ^ 8).
  rewrite !Z.lor_spec, !Z.ldiff_spec, Z.lor_spec, Z.ldiff_spec.
  destruct (Z.ltb_spec n 8) as [Hn8|Hn8].
  - rewrite !Z.mod_pow2_bits_low by lia.
    destruct (Z.ltb_spec n s) as [Hns|Hns].
    + rewrite !Z.shiftl_spec_low by lia. by destruct (Z.testbit b n).
    + rewrite !Z.shiftl_spec by lia.
      rewrite !Z.land_spec, !testbit_15 by lia.
      destruct (Z.ltb_spec (n - s) 4); simpl;
        by destruct (Z.testbit b n), (Z.testbit a (n - s)), (Z.testbit v (n - s)).
  - rewrite !Z.mod_pow2_bits_high by lia. by destruct (Z.testbit b n).
Qed.

Lemma putNibble_byte (b s v : Z) : is_byte b → is_byte (putNibble b s v).
Proof.
  intros [Hb0 Hb1].
  assert (Hnn : 0 ≤ putNibble b s v).
  { unfold putNibble, u8. apply Z.lor_nonneg. split.
    - apply Z.ldiff_nonneg. lia.
    - apply Z.mod_pos_bound. lia. }
  split; [done|].
  assert (Hm : putNibble b s v = putNibble b s v mod 2 ^ 8).
  { apply Z.bits_inj'. intros n Hn.
    destruct (Z.ltb_spec n 8).
    - by rewrite Z.mod_pow2_bits_low by lia.
    - rewrite Z.mod_pow2_bits_high by lia.
      unfold putNibble, u8. change 256 with (2 ^ 8).
      rewrite Z.lor_spec, Z.ldiff_spec.
      rewrite !Z.mod_pow2_bits_high by lia.
      assert (Hhi : Z.testbit b n = false).
      { destruct (decide (b = 0)) as [->|]; [apply Z.bits_0|].
        apply Z.bits_above_log2; [lia|].
        assert (Z.log2 b < 8) by (apply Z.log2_lt_pow2; lia). lia. }
      by rewrite Hhi. }
  rewrite Hm. change (2 ^ 8) with 256.
  apply Z.mod_pos_bound. lia.
Qed.

Lemma pixOffset_shift (p : HorizontalNibble) (x y : Z) :
  (pixOffset p x y).2 = if Z.even x then 4 else 0.
Proof. unfold pixOffset. cbn [snd]. apply shift_cases. Qed.

Lemma pixOffset_distinct (p : HorizontalNibble) (x y x' y' : Z) :
  store_ok p →
  In {| X := x; image.Y := y |} (image4bit.Rect p) = true →
  In {| X := x'; image.Y := y' |} (image4bit.Rect p) = true →
  x' ≠ x ∨ y' ≠ y →
  (pixOffset p x y).1 ≠ (pixOffset p x' y').1 ∨
  ((pixOffset p x y).2 = 0 ∧ (pixOffset p x' y').2 = 4) ∨
  ((pixOffset p x y).2 = 4 ∧ (pixOffset p x' y').2 = 0).
Proof.
  intros (Hev & Hst & _) [Hx Hy]%In_bounds [Hx' Hy']%In_bounds Hne.
  rewrite !pixOffset_shift. unfold pixOffset. cbn [fst].
  unfold Dx in *.
  set (mx := X (Min (image4bit.Rect p))) in *.
  set (my := image.Y (Min (image4bit.Rect p))) in *.
  set (w := X (Max (image4bit.Rect p)) - mx) in *.
  assert (Hw : w = 2 * Stride p) by (pose proof (Z.quot_rem' w 2); lia).
  assert (Hxw : 0 ≤ x - mx < w) by (unfold w, mx; lia).
  assert (Hxw' : 0 ≤ x' - mx < w) by (unfold w, mx; lia).
  rewrite !Z.quot_div_nonneg by lia.
  pose proof (Z.div_mod (x - mx) 2 ltac:(lia)) as Hd.
  pose proof (Z.mod_pos_bound (x - mx) 2 ltac:(lia)) as Hm.
  pose proof (Z.div_mod (x' - mx) 2 ltac:(lia)) as Hd'.
  pose proof (Z.mod_pos_bound (x' - mx) 2 ltac:(lia)) as Hm'.
  set (q := (x - mx) / 2) in *. set (q' := (x' - mx) / 2) in *.
  assert (Hq : 0 ≤ q < Stride p) by lia.
  assert (Hq' : 0 ≤ q' < Stride p) by lia.
  destruct (decide ((y - my) * Stride p + q = (y' - my) * Stride p + q'))
    as [Heq|]; [|by left].
  right.
  assert (y = y' ∧ q = q') as [-> Hqq].
  { destruct (Z.lt_trichotomy y y') as [Hlt|[->|Hgt]]; [exfalso|lia|exfalso].
    - assert (Stride p ≤ (y' - y) * Stride p) by nia. nia.
    - assert (Stride p ≤ (y - y') * Stride p) by nia. nia. }
  destruct (Z.even x) eqn:Ex, (Z.even x') eqn:Ex'; try (by left); try (by right);
    exfalso.
  - apply Z.even_spec in Ex as [k Hk], Ex' as [k' Hk']. lia.
  - rewrite <- Z.negb_odd in Ex, Ex'. apply negb_false_iff in Ex, Ex'.
    apply Z.odd_spec in Ex as [k Hk], Ex' as [k' Hk']. lia.
Qed.

Lemma Gray4At_SetGray4_other (p p' : HorizontalNibble) (x y x' y' : Z)
    (g : Gray4) :
  store_ok p →
  SetGray4 p x y g = Some p' →
  x' ≠ x ∨ y' ≠ y →
  Gray4At p' x' y' = Gray4At p x' y'.
Proof.
  intros Hok Hset Hne. unfold SetGray4 in Hset.
  destruct (In {| X := x; image.Y := y |} (image4bit.Rect p)) eqn:Hin;
    cbn [negb] in Hset; [|by injection Hset as <-].
  pose proof (pixOffset_in_range p x y Hok Hin) as Hr.
  destruct (pixOffset p x y) as [o s] eqn:Ho. cbn [fst] in Hr.
  destruct (index (Pix p) o) as [b|] eqn:Hb; [|done].
  cbn [mbind option_bind] in Hset.
  unfold store in Hset. rewrite decide_True in Hset by lia.
  cbn [mbind option_bind] in Hset. injection Hset as <-.
  unfold Gray4At. cbn [image4bit.Rect Pix].
  destruct (In {| X := x'; image.Y := y' |} (image4bit.Rect p)) eqn:Hin';
    cbn [negb]; [|done].
  rewrite pixOffset_set_Pix.
  pose proof (pixOffset_in_range p x' y' Hok Hin') as Hr'.
  pose proof (pixOffset_distinct p x y x' y' Hok Hin Hin' Hne) as Hd.
  rewrite Ho in Hd. destruct (pixOffset p x' y') as [o' s'] eqn:Ho'.
  cbn [fst snd] in Hr', Hd.
  rewrite !index_nonneg by lia.
  destruct (decide (o = o')) as [<-|Hoo].
  - rewrite list_lookup_insert_eq by lia.
    rewrite index_nonneg in Hb by lia. rewrite Hb.
    cbn [mbind option_bind]. do 2 f_equal.
    apply nibble_other. destruct Hd as [?|[?|?]]; [done|by left|by right].
  - rewrite list_lookup_insert_ne by lia. done.
Qed.

(** [SetGray4] writes one pixel only: every other coordinate reads
    after it what it read before, the pixel that shares the byte
    included. *)
Theorem SetGray4_other_pixels (p p' : HorizontalNibble) (x y x' y' : Z)
    (g : Gray4) :
  store_ok p →
  SetGray4 p x y g = Some p' →
  x' ≠ x ∨ y' ≠ y →
  Gray4At p' x' y' = Gray4At p x' y'.
Proof. apply Gray4At_SetGray4_other. Qed.

Lemma SetGray4_other_pixels_witness :
  Gray4At (frame 4 1 [90; 172]) 3 0 = Gray4At (frame 4 1 [90; 60]) 3 0.
Proof.
  apply (SetGray4_other_pixels (frame 4 1 [90; 60]) (frame 4 1 [90; 172])
           2 0 3 0 {| image4bit.Y := 10 |}).
  - repeat split.
  - reflexivity.
  - left. lia.
Defined.

Lemma Set_as_SetGray4 (p : HorizontalNibble) (x y : Z) (c : Color) :
  Set_ p x y c = SetGray4 p x y (toGray4 c).
Proof. done. Qed.

Lemma Gray4At_range (p : HorizontalNibble) (x y : Z) (g : Gray4) :
  Gray4At p x y = Some g → 0 ≤ image4bit.Y g ≤ 15.
Proof.
  unfold Gray4At. destruct (negb _); [intros [= <-]; simpl; lia|].
  destruct (pixOffset p x y) as [o s].
  destruct (index (Pix p) o) as [b|]; [|done].
  intros [= <-]. apply land_15_bounds.
Qed.

Lemma index_elem (l : list Z) (i b : Z) : index l i = Some b → b ∈ l.
Proof.
  unfold index. case_decide; [|done]. apply list_elem_of_lookup_2.
Qed.

Lemma SetGray4_bytes (p p' : HorizontalNibble) (x y : Z) (g : Gray4) :
  Forall is_byte (Pix p) → SetGray4 p x y g = Some p' →
  Forall is_byte (Pix p').
Proof.
  intros Hall. unfold SetGray4. destruct (negb _); [by intros [= <-]|].
  destruct (pixOffset p x y) as [o s].
  destruct (index (Pix p) o) as [b|] eqn:Hb; [|done].
  cbn [mbind option_bind]. unfold store. case_decide; [|done].
  intros [= <-]. cbn [Pix]. apply Forall_insert; [done|].
  apply putNibble_byte. rewrite Forall_forall in Hall. apply Hall.
  by apply index_elem in Hb.
Qed.

(** Values stay in range: [Gray4At] never returns more than 15, and
    on a store whose bytes are 8-bit values [SetGray4] and [Set] leave
    8-bit values, whatever the colour they are given. *)
Theorem store_values_in_range (p p' : HorizontalNibble) (x y : Z)
    (g : Gray4) (c : Color) :
  Forall is_byte (Pix p) →
  (∀ v, Gray4At p x y = Some v → 0 ≤ image4bit.Y v ≤ 15) ∧
  (SetGray4 p x y g = Some p' → Forall is_byte (Pix p')) ∧
  (Set_ p x y c = Some p' → Forall is_byte (Pix p')).
Proof.
  intros Hall. split_and!.
  - intros v. apply Gray4At_range.
  - by apply SetGray4_bytes.
  - rewrite Set_as_SetGray4. by apply SetGray4_bytes.
Qed.

Lemma store_values_in_range_witness :
  (∀ v, Gray4At (frame 4 1 [90; 60]) 2 0 = Some v → 0 ≤ image4bit.Y v ≤ 15) ∧
  (SetGray4 (frame 4 1 [90; 60]) 2 0 {| image4bit.Y := 250 |}
   = Some (frame 4 1 [90; 172]) → Forall is_byte [90; 172]) ∧
  (Set_ (frame 4 1 [90; 60]) 2 0 (ColorGray4 {| image4bit.Y := 250 |})
   = Some (frame 4 1 [90; 172]) → Forall is_byte [90; 172]).
Proof.
  apply (store_values_in_range (frame 4 1 [90; 60]) (frame 4 1 [90; 172]) 2 0
           {| image4bit.Y := 250 |} (ColorGray4 {| image4bit.Y := 250 |})).
  repeat constructor; unfold is_byte; lia.
Defined.

(** The last write wins: a [SetGray4] over a pixel that was just set
    gives the store that the second [SetGray4] alone gives. *)
Theorem SetGray4_last_wins (p p1 : HorizontalNibble) (x y : Z) (a g : Gray4) :
  SetGray4 p x y a = Some p1 →
  SetGray4 p1 x y g = SetGray4 p x y g.
Proof.
  unfold SetGray4 at 1.
  destruct (In {| X := x; image.Y := y |} (image4bit.Rect p)) eqn:Hin;
    cbn [negb]; [|by intros [= <-]].
  destruct (pixOffset p x y) as [o s] eqn:Ho.
  destruct (index (Pix p) o) as [b|] eqn:Hb; [|done].
  cbn [mbind option_bind]. unfold store at 1. case_decide as Hr; [|done].
  intros [= <-]. unfold SetGray4. cbn [image4bit.Rect Pix].
  rewrite Hin. cbn [negb]. rewrite pixOffset_set_Pix, Ho, Hb.
  rewrite index_nonneg by lia.
  rewrite list_lookup_insert_eq by lia. cbn [mbind option_bind].
  unfold store. rewrite length_insert. rewrite !decide_True by done.
  cbn [mbind option_bind Stride image4bit.Rect].
  rewrite list_insert_insert_eq, putNibble_putNibble; [done|].
  pose proof (pixOffset_shift p x y) as Hs. rewrite Ho in Hs. cbn in Hs.
  destruct (Z.even x); lia.
Qed.

Lemma SetGray4_last_wins_witness :
  SetGray4 (frame 4 1 [90; 172]) 2 0 {| image4bit.Y := 3 |}
  = SetGray4 (frame 4 1 [90; 60]) 2 0 {| image4bit.Y := 3 |}.
Proof.
  apply (SetGray4_last_wins (frame 4 1 [90; 60]) (frame 4 1 [90; 172]) 2 0
           {| image4bit.Y := 10 |} {| image4bit.Y := 3 |}).
  reflexivity.
Defined.

(** [Set] then [At]: on a well-formed store an in-bounds [Set] with any
    colour succeeds, and [At] then returns the [Gray4] that [Gray4Model]
    converts the colour to, cut to its low nibble. *)
Theorem Set_then_At (p : HorizontalNibble) (x y : Z) (c : Color) :
  store_ok p →
  In {| X := x; image.Y := y |} (image4bit.Rect p) = true →
  ∃ p', Set_ p x y c = Some p' ∧
        image4bit.At p' x y
        = Some (ColorGray4 {| image4bit.Y := Z.land (image4bit.Y (toGray4 c)) 15 |}).
Proof.
  intros Hok Hin. rewrite Set_as_SetGray4.
  destruct (toGray4 c) as [v]. cbn [image4bit.Y].
  destruct (SetGray4_Gray4At p x y v Hok Hin) as (p' & Hset & Hget & _).
  exists p'. split; [done|]. unfold image4bit.At. by rewrite Hget.
Qed.

Lemma Set_then_At_witness :
  ∃ p', Set_ (frame 4 1 [90; 60]) 1 0 (ColorRGBA 65535 65535 65535 65535)
        = Some p' ∧
        image4bit.At p' 1 0
        = Some (ColorGray4 {| image4bit.Y :=
             Z.land (image4bit.Y (toGray4 (ColorRGBA 65535 65535 65535 65535))) 15 |}).
Proof.
  apply (Set_then_At (frame 4 1 [90; 60]) 1 0
           (ColorRGBA 65535 65535 65535 65535)).
  - repeat split.
  - reflexivity.
Defined.

(** For a rectangle of small coordinates, whose sizes and byte count
    are computed without wrapping, [NewHorizontalNibble] panics exactly
    when the width is odd and no side is negative; otherwise it
    returns a store with the bounds it was given, well-formed unless a
    side is negative, in which every pixel reads 0. *)
Theorem NewHorizontalNibble_blank (r : Rectangle) :
  small_rect r →
  match NewHorizontalNibble r with
  | None => 0 ≤ Dx r ∧ 0 ≤ Dy r ∧ Z.rem (Dx r) 2 ≠ 0
  | Some p =>
      image4bit.Rect p = r ∧
      (Dx r < 0 ∨ Dy r < 0 ∨ store_ok p) ∧
      ∀ x y, Gray4At p x y = Some {| image4bit.Y := 0 |}
  end.
Proof.
  intros _. destruct (NewHorizontalNibble r) as [p|] eqn:Hnew.
  - destruct (decide (0 ≤ Dx r ∧ 0 ≤ Dy r)) as [[Hw Hh]|Hneg].
    + destruct (NewHorizontalNibble_store_ok r p Hw Hh Hnew)
        as (Hok & Hrect & Hpix).
      split_and!; [done|by right; right|].
      intros x y. unfold Gray4At.
      destruct (In _ _) eqn:Hin; cbn [negb]; [|done].
      pose proof (pixOffset_in_range p x y Hok Hin) as Hr.
      destruct (pixOffset p x y) as [o s] eqn:Ho. cbn [fst] in Hr.
      rewrite index_nonneg by lia. rewrite Hpix.
      rewrite lookup_replicate_2
        by (rewrite Hpix, length_replicate in Hr; lia).
      cbn [mbind option_bind]. by rewrite Z.shiftr_0_l.
    + unfold NewHorizontalNibble in Hnew.
      destruct (Z.ltb_spec (Dx r) 0), (Z.ltb_spec (Dy r) 0);
        cbn [orb] in Hnew; try lia; injection Hnew as <-;
        (split_and!; [done|lia|]);
        intros x y; unfold Gray4At; cbn [image4bit.Rect];
        (destruct (In _ _) eqn:Hin; cbn [negb]; [|done]);
        apply In_bounds in Hin; unfold Dx, Dy in *; lia.
  - unfold NewHorizontalNibble in Hnew.
    destruct (Z.ltb_spec (Dx r) 0), (Z.ltb_spec (Dy r) 0);
      cbn [orb] in Hnew; try done.
    destruct (Z.eqb_spec (Z.rem (Dx r) 2) 0); cbn [negb] in Hnew; [|done].
    unfold make in Hnew.
    assert (0 ≤ Dx r ÷ 2) by (apply Z.quot_pos; lia).
    rewrite decide_True in Hnew by nia. done.
Qed.

Lemma NewHorizontalNibble_blank_witness :
  match NewHorizontalNibble (image.Rect (-3) 2 5 4) with
  | None => 0 ≤ Dx (image.Rect (-3) 2 5 4) ∧ 0 ≤ Dy (image.Rect (-3) 2 5 4) ∧
            Z.rem (Dx (image.Rect (-3) 2 5 4)) 2 ≠ 0
  | Some p =>
      image4bit.Rect p = image.Rect (-3) 2 5 4 ∧
      (Dx (image.Rect (-3) 2 5 4) < 0 ∨ Dy (image.Rect (-3) 2 5 4) < 0 ∨
       store_ok p) ∧
      ∀ x y, Gray4At p x y = Some {| image4bit.Y := 0 |}
  end.
Proof.
  apply (NewHorizontalNibble_blank (image.Rect (-3) 2 5 4)).
  unfold small_rect, small_point, small. vm_compute.
  repeat split; discriminate.
Defined.

(** ** The payload of a rectangle *)

Lemma concat_rows_lookup (f : Z → list Z) (bw : nat) (m n : Z) :
  0 ≤ n →
  (∀ y, m ≤ y < m + n → length (f y) = bw) →
  length (concat (f <$> seqZ m n)) = (Z.to_nat n * bw)%nat ∧
  ∀ (j : Z) (i : nat), 0 ≤ j < n → (i < bw)%nat →
    concat (f <$> seqZ m n) !! (Z.to_nat j * bw + i)%nat = f (m + j) !! i.
Proof.
  intros Hn. revert m. pattern n. apply natlike_ind; [| |exact Hn]; clear n Hn.
  - intros m _. rewrite seqZ_nil by lia. split; [done|]. intros; lia.
  - intros n Hn IH m Hlen. rewrite seqZ_cons by lia.
    replace (Z.pred (Z.succ n)) with n by lia.
    rewrite fmap_cons. cbn [concat].
    destruct (IH (Z.succ m)) as [IHl IHk]; [intros; apply Hlen; lia|].
    pose proof (Hlen m ltac:(lia)) as Hm.
    split.
    + rewrite length_app, IHl, Hm. rewrite Z2Nat.inj_succ; [|done]. simpl. lia.
    + intros j i Hj Hi. destruct (decide (j = 0)) as [->|Hj0].
      * rewrite lookup_app_l by lia. by rewrite Z.add_0_r.
      * rewrite lookup_app_r by (rewrite Hm; nia).
        rewrite Hm.
        replace (Z.to_nat j * bw + i - bw)%nat
          with (Z.to_nat (j - 1) * bw + i)%nat by nia.
        rewrite IHk by lia.
        by replace (Z.succ m + (j - 1)) with (m + j) by lia.
Qed.

(** The payload byte by byte: for a byte-aligned rectangle inside the
    frame [extractRegion] returns [byteWidth * height] bytes, and the
    byte [i] of row [y] of the rectangle is the byte of the frame at
    row [y], byte column [minCol/2 + i]. *)
Theorem extractRegion_bytes (d : Dev) (nxt : HorizontalNibble)
    (minCol maxCol minRow maxRow : Z) :
  next d = Some nxt →
  Z.rem (Dx (rect d)) 2 = 0 →
  Z.of_nat (length (Pix nxt)) = Dx (rect d) ÷ 2 * Dy (rect d) →
  contained d minCol maxCol minRow maxRow →
  Z.even minCol = true → Z.odd maxCol = true →
  ∃ out,
    extractRegion d minCol maxCol minRow maxRow = Some out ∧
    Z.of_nat (length out)
    = (maxCol - minCol + 1) ÷ 2 * (maxRow - minRow + 1) ∧
    ∀ y i, minRow ≤ y ≤ maxRow → 0 ≤ i < (maxCol - minCol + 1) ÷ 2 →
      index out ((y - minRow) * ((maxCol - minCol + 1) ÷ 2) + i)
      = index (Pix nxt) (y * (Dx (rect d) ÷ 2) + minCol ÷ 2 + i).
Proof.
  intros Hnext Hev Hlen Hin Hmin Hmax.
  rewrite (extractRegion_payload d nxt minCol maxCol minRow maxRow)
    by done.
  eexists. split; [reflexivity|].
  destruct Hin as (Hc0 & Hc1 & Hc2 & Hr0 & Hr1 & Hr2).
  set (w := Dx (rect d)) in *. set (h := Dy (rect d)) in *.
  set (s := w ÷ 2) in *.
  assert (Hws : w = 2 * s) by (pose proof (Z.quot_rem' w 2); unfold s; lia).
  apply Zeven_bool_iff, Zeven_ex_iff in Hmin as [lo Hlo].
  apply Zodd_bool_iff, Zodd_ex_iff in Hmax as [hi Hhi].
  assert (Hqlo : minCol ÷ 2 = lo).
  { subst minCol. by rewrite Z.mul_comm, Z.quot_mul by lia. }
  assert (Hqhi : maxCol ÷ 2 = hi).
  { subst maxCol. rewrite Z.quot_div_nonneg by lia.
    symmetry. apply Z.div_unique with (r := 1); lia. }
  assert (Hbw : (maxCol - minCol + 1) ÷ 2 = hi - lo + 1).
  { replace (maxCol - minCol + 1) with ((hi - lo + 1) * 2) by lia.
    by rewrite Z.quot_mul by lia. }
  rewrite Hbw. unfold payload_spec. rewrite Hqlo, Hqhi.
  destruct (concat_rows_lookup (λ y, rowBytes (Pix nxt) s y lo hi)
              (Z.to_nat (hi - lo + 1)) minRow (maxRow - minRow + 1))
    as [Hl Hk]; [lia| |].
  { intros y Hy. unfold rowBytes. rewrite length_take, length_drop. nia. }
  split; [rewrite Hl; nia|].
  intros y i Hy Hi.
  rewrite !index_nonneg by nia.
  replace (Z.to_nat ((y - minRow) * (hi - lo + 1) + i))
    with (Z.to_nat (y - minRow) * Z.to_nat (hi - lo + 1) + Z.to_nat i)%nat
    by nia.
  rewrite Hk by lia.
  replace (minRow + (y - minRow)) with y by lia.
  unfold rowBytes. rewrite lookup_take_lt by lia. rewrite lookup_drop.
  f_equal. nia.
Qed.

Lemma extractRegion_bytes_witness :
  ∃ out,
    extractRegion store82 2 5 0 1 = Some out ∧
    Z.of_nat (length out) = (5 - 2 + 1) ÷ 2 * (1 - 0 + 1) ∧
    ∀ y i, 0 ≤ y ≤ 1 → 0 ≤ i < (5 - 2 + 1) ÷ 2 →
      index out ((y - 0) * ((5 - 2 + 1) ÷ 2) + i)
      = index [0; 17; 34; 51; 68; 85; 102; 119]
              (y * (Dx (rect store82) ÷ 2) + 2 ÷ 2 + i).
Proof.
  apply (extractRegion_bytes store82
           (frame 8 2 [0; 17; 34; 51; 68; 85; 102; 119]) 2 5 0 1);
    [reflexivity..| |reflexivity|reflexivity].
  unfold contained. vm_compute. repeat split; discriminate.
Defined.

(** ** The differential scan on equal frames *)

(** On two equal frames [calculateDiff] returns
    [(width, -1, height, -1)], the inverted box its scan starts from
    (and not the [(1, 0, 0, 0)] of its comment). *)
Theorem calculateDiff_unchanged (d : Dev) (nxt : HorizontalNibble) :
  0 < Dx (rect d) → Z.rem (Dx (rect d)) 2 = 0 → 0 < Dy (rect d) →
  next d = Some nxt →
  Z.of_nat (length (Pix nxt)) = Dx (rect d) ÷ 2 * Dy (rect d) →
  Pix (lastDm d) = Pix nxt →
  calculateDiff d = Some (Dx (rect d), -1, Dy (rect d), -1).
Proof.
  intros Hw Hev Hh Hnext Hn Heq.
  set (w := Dx (rect d)) in *. set (h := Dy (rect d)) in *.
  set (s := w ÷ 2) in *.
  assert (Hws : w = 2 * s) by (pose proof (Z.quot_rem' w 2); unfold s; lia).
  assert (Hl : Z.of_nat (length (Pix (lastDm d))) = s * h) by (by rewrite Heq).
  destruct (diffRows_spec (Pix (lastDm d)) (Pix nxt) s h ltac:(lia) Hl Hn ltac:(lia))
    as ([[[mc xc] mr] xr] & Hrun & Hcov & Hatt).
  unfold calculateDiff. rewrite Hnext. cbn [mbind option_bind]. fold w h s.
  rewrite <- Hws in Hrun. rewrite Hrun. cbn [mbind option_bind].
  destruct Hatt as [(-> & -> & -> & ->)|
    (_ & _ & _ & (x & _ & Hd) & _)].
  - rewrite <- Hws.
    replace (Z.rem w 2) with 0 by done.
    change (Z.rem (-1) 2 =? 0) with false. done.
  - exfalso. apply Hd. by rewrite Heq.
Qed.

Lemma calculateDiff_unchanged_witness :
  calculateDiff (drawn 4 1 [7; 7] [7; 7]) = Some (4, -1, 1, -1).
Proof.
  apply (calculateDiff_unchanged (drawn 4 1 [7; 7] [7; 7]) (frame 4 1 [7; 7]));
    reflexivity.
Defined.

(** ** Creating the session *)

Lemma session_full_frame (d : Dev) :
  session_ok d → contained d 0 (Dx (rect d) - 1) 0 (Dy (rect d) - 1).
Proof.
  intros (_ & ? & _ & _ & ? & _). unfold contained. lia.
Qed.

Lemma writeFullFrame_calls (d : Dev) (b : Bus) (pixels : list Z) :
  session_ok d →
  ∃ k, (1 ≤ k ≤ 4)%nat ∧
    log (writeFullFrame d b pixels).1
    = log b ++ take k (rectCalls (columnOffset d ÷ 2)
                         ((Dx (rect d) - 1 + columnOffset d) ÷ 2)
                         0 (Dy (rect d) - 1) pixels) ∧
    ((writeFullFrame d b pixels).2 = None → k = 4%nat).
Proof.
  intros Hok. unfold writeFullFrame.
  destruct (centering_bounds d 0 (Dx (rect d) - 1) 0 (Dy (rect d) - 1) Hok
              (session_full_frame d Hok)) as (_ & Hc0 & Hc1 & _ & Hr1).
  destruct (writeRect_calls d b 0 0 (Dx (rect d)) (Dy (rect d)) pixels)
    as (k & Hk & Hlog & Hdone).
  exists k. split; [done|]. split; [|done].
  rewrite Hlog. do 2 f_equal.
  replace (0 + Dx (rect d) - 1 + columnOffset d)
    with (Dx (rect d) - 1 + columnOffset d) by lia.
  replace (0 + Dy (rect d) - 1) with (Dy (rect d) - 1) by lia.
  rewrite Z.add_0_l in *. unfold u8.
  rewrite !Z.mod_small by lia. done.
Qed.

Lemma clearRAM_full_frame_eq (d : Dev) (b : Bus) :
  0 ≤ Dx (rect d) * Dy (rect d) →
  clearRAM d b
  = Some (writeFullFrame d b
            (replicate (Z.to_nat (Dx (rect d) * Dy (rect d) ÷ 2)) 0)).
Proof.
  intros Hnn. unfold clearRAM, writeFullFrame, writeRect.
  replace (0 + Dx (rect d) - 1 + columnOffset d)
    with (columnOffset d + Dx (rect d) - 1) by lia.
  replace (0 + Dy (rect d) - 1) with (Dy (rect d) - 1) by lia.
  rewrite Z.add_0_l. change (u8 0) with 0.
  destruct (sendCommands b _) as [b1 [e|]]; [done|].
  unfold make. rewrite decide_True by (apply Z.quot_pos; lia). done.
Qed.

(** [clearRAM] is a full-frame write of zeros: it addresses the window
    that [writeFullFrame] addresses and sends one zero byte for each
    byte of the frame. *)
Theorem clearRAM_full_frame (d : Dev) (b : Bus) :
  0 ≤ Dx (rect d) * Dy (rect d) →
  clearRAM d b
  = Some (writeFullFrame d b
            (replicate (Z.to_nat (Dx (rect d) * Dy (rect d) ÷ 2)) 0)).
Proof. apply clearRAM_full_frame_eq. Qed.

Lemma clearRAM_full_frame_witness :
  clearRAM (fresh 4 1) (failing 1 "io")
  = Some (writeFullFrame (fresh 4 1) (failing 1 "io") [0; 0]).
Proof.
  apply (clearRAM_full_frame (fresh 4 1) (failing 1 "io")).
  vm_compute. discriminate.
Defined.

Lemma init_total (d : Dev) (b : Bus) (o : Opts) :
  0 ≤ Dx (rect d) * Dy (rect d) → ∃ r, init d b o = Some r.
Proof.
  intros Hnn. unfold init. destruct (reset d b) as [b1 [e|]]; [eauto|].
  destruct (sendCommands b1 _) as [b2 [e|]]; [eauto|].
  rewrite clearRAM_full_frame_eq by done. cbn [mbind option_bind].
  destruct (writeFullFrame d b2 _) as [b3 [e|]]; eauto.
Qed.

(** [NewSPI] never panics and returns either a handle or an error,
    never both and never neither.  A width that is not an even number
    from 2 to 480, or a height outside 1 to 128, is refused before any
    transport call.  A handle that is returned is a session of the
    requested size, not halted, with an all-zero [buffer] and no double
    buffer yet. *)
Theorem NewSPI_validates (b : Bus) (o : option Opts) :
  ∃ b' od e,
    NewSPI b o = Some (b', od, e) ∧
    (od = None ↔ e ≠ None) ∧
    (W (default defaultOpts o) ≤ 0 ∨ Z.rem (W (default defaultOpts o)) 2 ≠ 0 ∨
     480 < W (default defaultOpts o) →
     b' = b ∧ e = Some errWidth) ∧
    (H (default defaultOpts o) ≤ 0 ∨ 128 < H (default defaultOpts o) →
     b' = b ∧ od = None ∧ (e = Some errWidth ∨ e = Some errHeight)) ∧
    (∀ d, od = Some d →
          session_ok d ∧ halted d = false ∧ next d = None ∧
          Dx (rect d) = W (default defaultOpts o) ∧
          Dy (rect d) = H (default defaultOpts o) ∧
          buffer d = replicate (Z.to_nat (Dx (rect d) ÷ 2 * Dy (rect d))) 0).
Proof.
  set (op := default defaultOpts o).
  assert (Hdev : ∃ b' od e, NewSPI b o = Some (b', od, e) ∧
              (od = None ↔ e ≠ None) ∧
              (W op ≤ 0 ∨ Z.rem (W op) 2 ≠ 0 ∨ 480 < W op →
               b' = b ∧ e = Some errWidth) ∧
              (H op ≤ 0 ∨ 128 < H op →
               b' = b ∧ od = None ∧ (e = Some errWidth ∨ e = Some errHeight))).
  { unfold NewSPI. fold op.
    destruct (Z.leb_spec (W op) 0) as [|Hw0]; cbn [orb];
      [eexists _, _, _; split; [reflexivity|]; split_and!; try done; eauto|].
    destruct (Z.eqb_spec (Z.rem (W op) 2) 0) as [Hev|]; cbn [orb negb];
      [|eexists _, _, _; split; [reflexivity|]; split_and!; try done; eauto].
    destruct (Z.ltb_spec 480 (W op)) as [|Hw1];
      [eexists _, _, _; split; [reflexivity|]; split_and!; try done; eauto|].
    destruct (Z.leb_spec (H op) 0) as [|Hh0]; cbn [orb];
      [eexists _, _, _; split; [reflexivity|]; split_and!; try done;
       try lia; eauto|].
    destruct (Z.ltb_spec 128 (H op)) as [|Hh1];
      [eexists _, _, _; split; [reflexivity|]; split_and!; try done;
       try lia; eauto|].
    destruct (call Connect b) as [b1 [e1|]];
      [eexists _, _, _; split; [reflexivity|]; split_and!; try done; lia|].
    unfold make. rewrite decide_True by (apply Z.quot_pos; nia).
    cbn [mbind option_bind].
    match goal with |- context [init ?d b1 op] =>
      destruct (init_total d b1 op) as [[b2 e2] Hinit] end.
    { unfold image.Rect, Dx, Dy. cbn.
      rewrite (proj2 (Z.ltb_ge (W op) 0)), (proj2 (Z.ltb_ge (H op) 0)) by lia.
      cbn. nia. }
    rewrite Hinit. cbn [mbind option_bind].
    destruct e2 as [e2|];
      eexists _, _, _; (split; [reflexivity|]); split_and!; try done; lia. }
  destruct Hdev as (b' & od & e & Hrun & H1 & H2 & H3).
  exists b', od, e. split_and!; try done.
  intros d ->. by destruct (NewSPI_device b b' o d e Hrun) as (_ & ?).
Qed.

Lemma sendCommands_idle (lg : list Event) (cmds : list Z) :
  sendCommands {| log := lg; script := [] |} cmds
  = ({| log := lg ++ [DcOut Low; Tx cmds]; script := [] |}, None).
Proof. unfold sendCommands, call. cbn. by rewrite <- app_assoc. Qed.

Lemma sendData_idle (lg : list Event) (data : list Z) :
  sendData {| log := lg; script := [] |} data
  = ({| log := lg ++ [DcOut High; Tx data]; script := [] |}, None).
Proof. unfold sendData, call. cbn. by rewrite <- app_assoc. Qed.

Lemma writeFullFrame_idle (d : Dev) (lg : list Event) (pixels : list Z) :
  session_ok d →
  writeFullFrame d {| log := lg; script := [] |} pixels
  = ({| log := lg ++ rectCalls (columnOffset d ÷ 2)
                       ((Dx (rect d) - 1 + columnOffset d) ÷ 2)
                       0 (Dy (rect d) - 1) pixels;
        script := [] |}, None).
Proof.
  intros Hok.
  destruct (centering_bounds d 0 (Dx (rect d) - 1) 0 (Dy (rect d) - 1) Hok
              (session_full_frame d Hok)) as (_ & Hc0 & Hc1 & _ & Hr1).
  unfold writeFullFrame, writeRect. rewrite sendCommands_idle, sendData_idle.
  rewrite <- app_assoc. unfold rectCalls. cbn [app].
  replace (0 + Dx (rect d) - 1 + columnOffset d)
    with (Dx (rect d) - 1 + columnOffset d) by lia.
  replace (0 + Dy (rect d) - 1) with (Dy (rect d) - 1) by lia.
  rewrite Z.add_0_l in *. unfold u8.
  rewrite !Z.mod_small by lia. done.
Qed.

Lemma reset_idle (d : Dev) (lg : list Event) :
  reset d {| log := lg; script := [] |}
  = ({| log := lg ++ (if rst d then [RstOut Low; RstOut High] else []);
        script := [] |}, None).
Proof.
  unfold reset, call. destruct (rst d); cbn.
  - by rewrite <- app_assoc.
  - by rewrite app_nil_r.
Qed.

Lemma init_idle (d : Dev) (lg : list Event) (o : Opts) :
  session_ok d →
  init d {| log := lg; script := [] |} o
  = Some ({| log := lg ++ (if rst d then [RstOut Low; RstOut High] else [])
                    ++ [DcOut Low; Tx (initCommands o)]
                    ++ rectCalls (columnOffset d ÷ 2)
                         ((Dx (rect d) - 1 + columnOffset d) ÷ 2)
                         0 (Dy (rect d) - 1)
                         (replicate (Z.to_nat (Dx (rect d) * Dy (rect d) ÷ 2)) 0)
                    ++ [DcOut Low; Tx [175]];
             script := [] |}, None).
Proof.
  intros Hok. pose proof Hok as (_ & ? & _ & _ & ? & _).
  unfold init. rewrite reset_idle, sendCommands_idle.
  rewrite clearRAM_full_frame_eq by nia. cbn [mbind option_bind].
  rewrite writeFullFrame_idle by done.
  unfold sendCommand. rewrite sendCommands_idle.
  by rewrite <- !app_assoc.
Qed.

(** The start-up of the display on a transport that works: [NewSPI]
    connects, pulses the reset pin if there is one, sends the
    initialisation commands in one transfer, clears the display RAM
    over the centred window of the frame with as many zero bytes as
    [buffer] has, and sends Display ON last. *)
Theorem NewSPI_boot (b : Bus) (o : option Opts) :
  script b = [] →
  0 < W (default defaultOpts o) ≤ 480 →
  Z.rem (W (default defaultOpts o)) 2 = 0 →
  0 < H (default defaultOpts o) ≤ 128 →
  ∃ b' d,
    NewSPI b o = Some (b', Some d, None) ∧ script b' = [] ∧
    log b'
    = log b ++ [Connect]
      ++ (if RST (default defaultOpts o)
          then [RstOut Low; RstOut High] else [])
      ++ [DcOut Low; Tx (initCommands (default defaultOpts o))]
      ++ rectCalls (columnOffset d ÷ 2)
           ((W (default defaultOpts o) - 1 + columnOffset d) ÷ 2)
           0 (H (default defaultOpts o) - 1) (buffer d)
      ++ [DcOut Low; Tx [175]].
Proof.
  set (op := default defaultOpts o). intros Hsc Hw Hev Hh.
  destruct b as [lg sc]. cbn [script log] in *. subst sc.
  unfold NewSPI. fold op.
  rewrite (proj2 (Z.leb_gt (W op) 0)), (proj2 (Z.ltb_ge 480 (W op))),
    (proj2 (Z.leb_gt (H op) 0)), (proj2 (Z.ltb_ge 128 (H op))), Hev by lia.
  cbn [orb negb Z.eqb]. unfold call at 1. cbn [script head tail default log].
  unfold make. rewrite decide_True by (apply Z.quot_pos; nia).
  cbn [mbind option_bind].
  match goal with |- context [init ?d0 _ op] => set (d := d0) end.
  assert (Hdx : Dx (rect d) = W op ∧ Dy (rect d) = H op).
  { unfold d, image.Rect, Dx, Dy. cbn.
    rewrite (proj2 (Z.ltb_ge (W op) 0)), (proj2 (Z.ltb_ge (H op) 0)) by lia.
    cbn. lia. }
  destruct Hdx as [Hdx Hdy].
  assert (Hok : session_ok d).
  { unfold session_ok. rewrite Hdx, Hdy.
    unfold d at 1. unfold image.Rect.
    rewrite (proj2 (Z.ltb_ge (W op) 0)), (proj2 (Z.ltb_ge (H op) 0)) by lia.
    cbn. rewrite length_replicate, Z2Nat.id by (apply Z.quot_pos; nia).
    split_and!; try done; try lia.
    pose proof (Z.quot_rem' (W op) 2).
    replace (W op * H op) with (W op ÷ 2 * H op * 2) by nia.
    by rewrite Z.quot_mul by lia. }
  rewrite (init_idle d _ op Hok). cbn [mbind option_bind].
  exists {| log := (lg ++ [Connect])
               ++ (if rst d then [RstOut Low; RstOut High] else [])
               ++ [DcOut Low; Tx (initCommands op)]
               ++ rectCalls (columnOffset d ÷ 2)
                    ((Dx (rect d) - 1 + columnOffset d) ÷ 2)
                    0 (Dy (rect d) - 1)
                    (replicate (Z.to_nat (Dx (rect d) * Dy (rect d) ÷ 2)) 0)
               ++ [DcOut Low; Tx [175]];
            script := [] |}, d.
  split; [done|]. split; [done|]. cbn [log].
  rewrite Hdx, Hdy. by rewrite <- app_assoc.
Qed.

Lemma NewSPI_boot_witness :
  ∃ b' d,
    NewSPI idle None = Some (b', Some d, None) ∧ script b' = [] ∧
    log b'
    = log idle ++ [Connect]
      ++ (if RST (default defaultOpts None)
          then [RstOut Low; RstOut High] else [])
      ++ [DcOut Low; Tx (initCommands (default defaultOpts None))]
      ++ rectCalls (columnOffset d ÷ 2)
           ((W (default defaultOpts None) - 1 + columnOffset d) ÷ 2)
           0 (H (default defaultOpts None) - 1) (buffer d)
      ++ [DcOut Low; Tx [175]].
Proof.
  apply (NewSPI_boot idle None); [reflexivity| |reflexivity|]; cbn; lia.
Defined.

(** ** Writing and drawing *)

(** [Write] is all or nothing.  With a buffer of the right size on a
    session that is not halted, [Write] makes the four calls of the
    window of the whole frame and of the frame, as far as the transport
    lets it go.  When none of them fails the bus has received all
    four, the count is the length of the frame and [buffer], and
    nothing else in the handle, takes the frame.  When one fails the
    calls stop there, and the handle comes back as it was with that
    error and a count of 0. *)
Theorem Write_atomic (d : Dev) (b : Bus) (pixels : list Z) :
  session_ok d → halted d = false →
  length pixels = length (buffer d) →
  let frameCalls := rectCalls (columnOffset d ÷ 2)
                      ((Dx (rect d) - 1 + columnOffset d) ÷ 2)
                      0 (Dy (rect d) - 1) pixels in
  (Forall (λ res, res = None) (take 4 (script b)) →
   Write d b pixels
   = (set_buffer d pixels,
      {| log := log b ++ frameCalls; script := drop 4 (script b) |},
      (Z.of_nat (length pixels), None))) ∧
  (∀ (j : nat) (e : string),
     (j < 4)%nat →
     Forall (λ res, res = None) (take j (script b)) →
     script b !! j = Some (Some e) →
     Write d b pixels
     = (d, {| log := log b ++ take (S j) frameCalls;
              script := drop (S j) (script b) |}, (0, Some e))).
Proof.
  intros Hok Hh Hlen frameCalls.
  rewrite (Write_outcome d b pixels Hh Hlen).
  pose proof (writeRect_box_sends d b 0 (Dx (rect d) - 1) 0 (Dy (rect d) - 1)
                pixels Hok (session_full_frame d Hok)) as [Hall Hfail].
  replace (Dx (rect d) - 1 - 0 + 1) with (Dx (rect d)) in Hall, Hfail by lia.
  replace (Dy (rect d) - 1 - 0 + 1) with (Dy (rect d)) in Hall, Hfail by lia.
  rewrite Z.add_0_l in Hall, Hfail.
  fold (writeFullFrame d b pixels) in Hall, Hfail.
  fold frameCalls in Hall, Hfail. split.
  - intros Hn. by rewrite (Hall Hn).
  - intros j e Hj Hn Hl. by rewrite (Hfail j e Hj Hn Hl).
Qed.

Lemma Write_atomic_witness :
  Write (fresh 4 1) idle [1; 2]
  = (set_buffer (fresh 4 1) [1; 2],
     {| log := [DcOut Low; Tx [21; 119; 120; 117; 0; 0; 92];
                DcOut High; Tx [1; 2]];
        script := [] |}, (2, None)) ∧
  Write (fresh 4 1) (failing 3 "io") [1; 2]
  = (fresh 4 1,
     {| log := [DcOut Low; Tx [21; 119; 120; 117; 0; 0; 92];
                DcOut High; Tx [1; 2]];
        script := [] |}, (0, Some "io")).
Proof.
  assert (Hok : session_ok (fresh 4 1))
    by (apply fresh_session_ok; [lia|reflexivity|lia]).
  split.
  - exact (proj1 (Write_atomic (fresh 4 1) idle [1; 2] Hok eq_refl eq_refl)
             ltac:(constructor)).
  - exact (proj2 (Write_atomic (fresh 4 1) (failing 3 "io") [1; 2] Hok
                    eq_refl eq_refl)
             3%nat "io" ltac:(lia) ltac:(repeat constructor) eq_refl).
Defined.

Lemma writeRect_box_calls (d : Dev) (b : Bus)
    (minCol maxCol minRow maxRow : Z) (payload : list Z) :
  session_ok d →
  contained d minCol maxCol minRow maxRow →
  ∃ k, (1 ≤ k ≤ 4)%nat ∧
    log (writeRect d b minCol minRow (maxCol - minCol + 1)
           (maxRow - minRow + 1) payload).1
    = log b ++ take k (rectCalls ((minCol + columnOffset d) ÷ 2)
                         ((maxCol + columnOffset d) ÷ 2)
                         minRow maxRow payload) ∧
    ((writeRect d b minCol minRow (maxCol - minCol + 1)
        (maxRow - minRow + 1) payload).2 = None → k = 4%nat).
Proof.
  intros Hok Hin.
  destruct (centering_bounds d minCol maxCol minRow maxRow Hok Hin)
    as (_ & Hc0 & Hc1 & Hr0 & Hr1).
  destruct (writeRect_calls d b minCol minRow (maxCol - minCol + 1)
              (maxRow - minRow + 1) payload) as (k & Hk & Hlog & Hdone).
  exists k. split; [done|]. split; [|done].
  rewrite Hlog. do 2 f_equal.
  replace (minCol + (maxCol - minCol + 1) - 1) with maxCol by lia.
  replace (minRow + (maxRow - minRow + 1) - 1) with maxRow by lia.
  unfold u8. by rewrite !Z.mod_small by lia.
Qed.

Lemma initNext_baseline (d d1 : Dev) :
  session_ok d → initNext d = Some d1 → Pix (lastDm d1) = baseline d.
Proof.
  intros Hok Hinit.
  destruct (initNext_spec d Hok) as (d1' & n & Hinit' & _ & _ & _ & _ & _ & _ & Hb).
  rewrite Hinit in Hinit'. injection Hinit' as <-.
  unfold baseline. destruct (next d); [by subst|done].
Qed.

Lemma Draw_differential_result (d : Dev) (b : Bus) (dst : Rectangle)
    (src : draw.Image) (sp : Point) (d' : Dev) (b' : Bus) (e : error) :
  session_ok d → halted d = false →
  Empty (Intersect dst (rect d)) = false →
  fullFrameSource d (Intersect dst (rect d)) src sp = None →
  Draw d b dst src sp = Some (d', b', e) →
  ∃ d1 n cand,
    initNext d = Some d1 ∧ next d1 = Some n ∧ session_ok d1 ∧
    rect d1 = rect d ∧ columnOffset d1 = columnOffset d ∧
    buffer d1 = buffer d ∧ halted d1 = false ∧
    Pix (lastDm d1) = baseline d ∧
    draw.Draw n (Intersect dst (rect d)) src sp = Some cand ∧
    session_ok (set_next d1 (Some cand)) ∧
    ((Pix cand = baseline d ∧ d' = set_next d1 (Some cand) ∧ b' = b ∧ e = None) ∨
     (Pix cand ≠ baseline d ∧
      ∃ minCol maxCol minRow maxRow,
        minimal_box (baseline d) (Pix cand) (Dx (rect d)) (Dy (rect d))
                    minCol maxCol minRow maxRow ∧
        let r := writeRect (set_next d1 (Some cand)) b minCol minRow
                   (maxCol - minCol + 1) (maxRow - minRow + 1)
                   (payload_spec (Pix cand) (Dx (rect d) ÷ 2)
                                 minCol maxCol minRow maxRow) in
        b' = r.1 ∧ e = r.2 ∧
        d' = match r.2 with
             | Some _ => set_next d1 (Some cand)
             | None => committed (set_next d1 (Some cand)) (Pix cand)
             end)).
Proof.
  intros Hok Hh He Hfast Hrun.
  destruct (initNext_spec d Hok)
    as (d1 & n1 & Hinit & Hnext & Hok1 & Hrect & Hoff & Hbuf & Hhalt & _).
  pose proof (initNext_baseline d d1 Hok Hinit) as Hbase.
  destruct (draw.Draw n1 (Intersect dst (rect d)) src sp) as [cand|] eqn:Hdraw.
  2:{ unfold Draw in Hrun. rewrite Hh, He, Hfast, Hinit in Hrun.
      cbn [mbind option_bind] in Hrun. rewrite Hnext in Hrun.
      cbn [mbind option_bind] in Hrun. by rewrite Hdraw in Hrun. }
  pose proof (draw_Draw_shape _ _ _ _ _ Hdraw) as Hshape.
  pose proof (session_ok_set_next d1 n1 cand Hok1 Hnext Hshape) as Hok2.
  exists d1, n1, cand. split_and!; try done; [congruence|].
  destruct (Draw_differential d b dst src sp d1 n1 cand Hok Hh He Hfast
              Hinit Hnext Hdraw)
    as [[Heq Hres]|(Hne & mc & xc & mr & xr & _ & Hbox & Hres)].
  - left. rewrite Hres in Hrun. injection Hrun as <- <- <-.
    by rewrite <- Hbase.
  - right. rewrite <- Hbase. split; [done|].
    exists mc, xc, mr, xr. split; [done|].
    cbv zeta in Hres. rewrite Hres in Hrun. by injection Hrun as <- <- <-.
Qed.

(** The differential path of [Draw] commits only what was sent.  When
    the call returns an error, [buffer] and the baseline are those of
    before the call.  When it returns [nil], the baseline equals the
    rendered candidate: either the candidate was the baseline already
    and the bus is untouched, or [buffer] holds the candidate too. *)
Theorem Draw_differential_commit (d : Dev) (b : Bus) (dst : Rectangle)
    (src : draw.Image) (sp : Point) (d' : Dev) (b' : Bus) (e : error) :
  session_ok d → halted d = false →
  Empty (Intersect dst (rect d)) = false →
  fullFrameSource d (Intersect dst (rect d)) src sp = None →
  Draw d b dst src sp = Some (d', b', e) →
  ∃ cand,
    next d' = Some cand ∧ rect d' = rect d ∧ halted d' = false ∧
    match e with
    | Some _ => buffer d' = buffer d ∧ Pix (lastDm d') = baseline d
    | None =>
        Pix (lastDm d') = Pix cand ∧
        ((Pix cand = baseline d ∧ b' = b ∧ buffer d' = buffer d) ∨
         (Pix cand ≠ baseline d ∧ buffer d' = Pix cand))
    end.
Proof.
  intros Hok Hh He Hfast Hrun.
  destruct (Draw_differential_result d b dst src sp d' b' e Hok Hh He Hfast Hrun)
    as (d1 & n & cand & _ & _ & _ & Hrect & _ & Hbuf & Hhalt & Hbase & _ & _ &
        [(Heq & -> & -> & ->)|(Hne & mc & xc & mr & xr & _ & Hres)]).
  - exists cand. cbn. split_and!; try done; [congruence|].
    left. by split_and!.
  - cbv zeta in Hres. destruct Hres as (-> & -> & ->).
    exists cand. destruct (writeRect _ _ _ _ _ _ _).2; cbn; split_and!; try done.
    by right.
Qed.

Lemma Draw_differential_commit_witness :
  ∃ cand,
    next shown5 = Some cand ∧ rect shown5 = rect (fresh 4 1) ∧
    halted shown5 = false ∧
    Pix (lastDm shown5) = Pix cand ∧
    ((Pix cand = baseline (fresh 4 1) ∧ sent5 = idle ∧
      buffer shown5 = buffer (fresh 4 1)) ∨
     (Pix cand ≠ baseline (fresh 4 1) ∧ buffer shown5 = Pix cand)).
Proof.
  apply (Draw_differential_commit (fresh 4 1) idle r41 (uniform r41 5) ZP
           shown5 sent5 None); try reflexivity.
  apply fresh_session_ok; [lia|reflexivity|lia].
Defined.

(** What a differential [Draw] sends.  When the call returns [nil] and
    the candidate differs from the baseline, the bus has received one
    window and its payload and nothing else: the window is the least
    byte-aligned box around the differing bytes, shifted by the
    centering offset, and the payload is the rows of that box in the
    candidate. *)
Theorem Draw_differential_sends_box (d : Dev) (b : Bus) (dst : Rectangle)
    (src : draw.Image) (sp : Point) (d' : Dev) (b' : Bus)
    (cand : HorizontalNibble) :
  session_ok d → halted d = false →
  Empty (Intersect dst (rect d)) = false →
  fullFrameSource d (Intersect dst (rect d)) src sp = None →
  Draw d b dst src sp = Some (d', b', None) →
  next d' = Some cand →
  Pix cand ≠ baseline d →
  ∃ minCol maxCol minRow maxRow,
    minimal_box (baseline d) (Pix cand) (Dx (rect d)) (Dy (rect d))
                minCol maxCol minRow maxRow ∧
    log b'
    = log b ++ rectCalls ((minCol + columnOffset d) ÷ 2)
                 ((maxCol + columnOffset d) ÷ 2) minRow maxRow
                 (payload_spec (Pix cand) (Dx (rect d) ÷ 2)
                               minCol maxCol minRow maxRow).
Proof.
  intros Hok Hh He Hfast Hrun Hnext Hne.
  destruct (Draw_differential_result d b dst src sp d' b' None Hok Hh He Hfast Hrun)
    as (d1 & n & cand' & _ & _ & _ & Hrect & Hoff & _ & _ & _ & _ & Hok2 &
        [(Heq & -> & _)|(_ & mc & xc & mr & xr & Hbox & Hres)]).
  - cbn in Hnext. injection Hnext as ->. by destruct Hne.
  - cbv zeta in Hres. destruct Hres as (-> & Herr & ->).
    rewrite <- Herr in Hnext. cbn in Hnext. injection Hnext as ->.
    exists mc, xc, mr, xr. split; [done|].
    pose proof Hbox as (? & ? & ? & ? & ? & ? & _).
    destruct (writeRect_box_calls (set_next d1 (Some cand)) b mc xc mr xr
                (payload_spec (Pix cand) (Dx (rect d) ÷ 2) mc xc mr xr) Hok2)
      as (k & _ & Hlog & Hdone).
    { unfold contained. cbn. rewrite Hrect. lia. }
    rewrite Hlog, (Hdone (eq_sym Herr)). cbn [columnOffset set_next].
    by rewrite Hoff.
Qed.

Lemma Draw_differential_sends_box_witness :
  ∃ minCol maxCol minRow maxRow,
    minimal_box (baseline (fresh 4 1)) [85; 85] (Dx (rect (fresh 4 1)))
                (Dy (rect (fresh 4 1))) minCol maxCol minRow maxRow ∧
    log sent5
    = log idle ++ rectCalls ((minCol + columnOffset (fresh 4 1)) ÷ 2)
                    ((maxCol + columnOffset (fresh 4 1)) ÷ 2) minRow maxRow
                    (payload_spec [85; 85] (Dx (rect (fresh 4 1)) ÷ 2)
                                  minCol maxCol minRow maxRow).
Proof.
  apply (Draw_differential_sends_box (fresh 4 1) idle r41 (uniform r41 5) ZP
           shown5 sent5 (frame 4 1 [85; 85])); try reflexivity.
  - apply fresh_session_ok; [lia|reflexivity|lia].
  - intros H. vm_compute in H. discriminate.
Defined.

(** [Write] does not refresh the baseline of the diff.  After a [Write]
    that succeeded on a session whose double buffer is in use, a
    differential [Draw] whose rendering leaves the candidate as it was
    sends nothing and returns [nil], although [buffer] now holds the
    written frame. *)
Theorem Write_then_Draw_stale (d : Dev) (b : Bus) (pixels : list Z)
    (d1 : Dev) (b1 : Bus) (k : Z) (n : HorizontalNibble)
    (dst : Rectangle) (src : draw.Image) (sp : Point) :
  session_ok d → halted d = false →
  next d = Some n → Pix (lastDm d) = Pix n →
  Write d b pixels = (d1, b1, (k, None)) →
  Empty (Intersect dst (rect d)) = false →
  fullFrameSource d (Intersect dst (rect d)) src sp = None →
  draw.Draw n (Intersect dst (rect d)) src sp = Some n →
  buffer d1 = pixels ∧
  Draw d1 b1 dst src sp = Some (d1, b1, None).
Proof.
  intros Hok Hh Hnext Hsync Hw He Hfast Hdraw.
  assert (Hlen : length pixels = length (buffer d)).
  { unfold Write in Hw. rewrite Hh in Hw.
    destruct (Nat.eqb_spec (length pixels) (length (buffer d))); [done|].
    cbn in Hw. by injection Hw. }
  rewrite (Write_outcome d b pixels Hh Hlen) in Hw.
  destruct (writeFullFrame d b pixels) as [b2 [e|]]; cbn [fst snd] in Hw;
    [by injection Hw|].
  injection Hw as <- <- _.
  split; [done|].
  assert (Hok1 : session_ok (set_buffer d pixels)).
  { pose proof (Write_session_ok d b pixels Hok) as H.
    rewrite (Write_outcome d b pixels Hh Hlen) in H.
    destruct (writeFullFrame d b pixels) as [b3 [e|]]; cbn [fst snd] in *;
      [|done].
    destruct Hok as (? & ? & ? & ? & ? & ? & ? & Hb & Hn).
    unfold session_ok. cbn. rewrite Hlen. by split_and!. }
  assert (Hinit : initNext (set_buffer d pixels) = Some (set_buffer d pixels))
    by (unfold initNext; cbn; by rewrite Hnext).
  destruct (Draw_differential (set_buffer d pixels) b2 dst src sp
              (set_buffer d pixels) n n Hok1 Hh He Hfast Hinit Hnext Hdraw)
    as [[_ Hres]|[Hne _]].
  - rewrite Hres. by rewrite set_next_id.
  - by destruct Hne.
Qed.

Lemma Write_then_Draw_stale_witness :
  buffer (set_buffer shown5 [1; 2]) = [1; 2] ∧
  Draw (set_buffer shown5 [1; 2])
       {| log := log sent5 ++ rectCalls 119 120 0 0 [1; 2]; script := [] |}
       r41 (uniform r41 5) ZP
  = Some (set_buffer shown5 [1; 2],
          {| log := log sent5 ++ rectCalls 119 120 0 0 [1; 2]; script := [] |},
          None).
Proof.
  apply (Write_then_Draw_stale shown5 sent5 [1; 2] (set_buffer shown5 [1; 2])
           {| log := log sent5 ++ rectCalls 119 120 0 0 [1; 2]; script := [] |}
           2 (frame 4 1 [85; 85]) r41 (uniform r41 5) ZP); try reflexivity.
  apply (Draw_session_ok (fresh 4 1) idle r41 (uniform r41 5) ZP shown5 sent5
           None); [|reflexivity].
  apply fresh_session_ok; [lia|reflexivity|lia].
Defined.

(** [Write], [Halt] and [Draw] keep the session well-formed: the
    geometry, the centering offset and the sizes of [buffer], of the
    candidate and of the baseline. *)
Theorem operations_keep_session (d : Dev) (b : Bus) (pixels : list Z)
    (dst : Rectangle) (src : draw.Image) (sp : Point) :
  session_ok d →
  session_ok (Write d b pixels).1.1 ∧
  session_ok (Halt d b).1.1 ∧
  (∀ d' b' e, Draw d b dst src sp = Some (d', b', e) → session_ok d').
Proof.
  intros Hok. split_and!.
  - by apply Write_session_ok.
  - by apply Halt_session_ok.
  - intros d' b' e. by apply Draw_session_ok.
Qed.

Lemma operations_keep_session_witness :
  session_ok (Write (fresh 4 1) idle [1; 2]).1.1 ∧
  session_ok (Halt (fresh 4 1) idle).1.1 ∧
  (∀ d' b' e, Draw (fresh 4 1) idle r41 (uniform r41 5) ZP = Some (d', b', e) →
              session_ok d').
Proof.
  apply (operations_keep_session (fresh 4 1) idle [1; 2] r41 (uniform r41 5) ZP).
  apply fresh_session_ok; [lia|reflexivity|lia].
Defined.

(** ** Control commands *)

Lemma sendCommands_calls (b : Bus) (cmds : list Z) :
  ∃ k, (1 ≤ k ≤ 2)%nat ∧
    log (sendCommands b cmds).1 = log b ++ take k [DcOut Low; Tx cmds] ∧
    ((sendCommands b cmds).2 = None → k = 2%nat).
Proof.
  unfold sendCommands, call.
  destruct (script b) as [|[e1|] [|[e2|] ?]]; cbn;
    first [ exists 1%nat; by (split; [lia|split; [rewrite <- ?app_assoc|]])
          | exists 2%nat; by (split; [lia|split; [rewrite <- ?app_assoc|]]) ].
Qed.

(** [SetContrast], [Invert], [ScrollHorizontal] and [StopScroll] send
    nothing on a halted session and return the halted error.
    Otherwise each makes one command transfer, data/command low and
    then its opcode bytes, and never a data transfer: on a transport
    that works the bus receives exactly these two calls and the
    command returns [nil], and on any transport the calls stop at the
    first that fails, whose error is returned.  [ScrollHorizontal]
    refuses a start or end row at or beyond the height of the display
    before any transport call. *)
Theorem control_commands_frame (d : Dev) (b : Bus) (contrast : Z)
    (invert right : bool) (startRow endRow : Z) (speed : ScrollSpeed) :
  let sent (r : Bus * error) (cmds : list Z) :=
    (script b = [] →
     r = ({| log := log b ++ [DcOut Low; Tx cmds]; script := [] |}, None)) ∧
    sends [DcOut Low; Tx cmds] b r in
  (halted d = true →
   SetContrast d b contrast = (b, Some errHalted) ∧
   Invert d b invert = (b, Some errHalted) ∧
   ScrollHorizontal d b startRow endRow speed right = (b, Some errHalted) ∧
   StopScroll d b = (b, Some errHalted)) ∧
  (halted d = false →
   sent (SetContrast d b contrast) [193; contrast] ∧
   sent (Invert d b invert) [if invert then 167 else 166] ∧
   sent (StopScroll d b) [46] ∧
   (Dy (rect d) ≤ startRow ∨ Dy (rect d) ≤ endRow →
    ScrollHorizontal d b startRow endRow speed right = (b, Some errScrollRow)) ∧
   (startRow < Dy (rect d) → endRow < Dy (rect d) →
    sent (ScrollHorizontal d b startRow endRow speed right)
         [if right then 39 else 38; 0; startRow; u8 speed; endRow; 0; 0; 47])).
Proof.
  intros sent.
  assert (Hsent : ∀ cmds, sent (sendCommands b cmds) cmds).
  { intros cmds. pose proof (sendCommands_sends b cmds) as Hs.
    split; [|done]. intros Hb. by apply sends_working. }
  split; intros Hh.
  - unfold SetContrast, Invert, ScrollHorizontal, StopScroll. by rewrite Hh.
  - unfold SetContrast, Invert, ScrollHorizontal, StopScroll, sendCommand.
    rewrite Hh. split_and!; try apply Hsent.
    + intros [H|H].
      * by rewrite (proj2 (Z.leb_le _ _) H).
      * rewrite (proj2 (Z.leb_le _ _) H). by rewrite orb_true_r.
    + intros H1 H2.
      rewrite (proj2 (Z.leb_gt _ _) H1), (proj2 (Z.leb_gt _ _) H2). cbn [orb].
      apply Hsent.
Qed.

(** ** Rendering the source *)

Lemma Intersect_In (x y : Z) (r s : Rectangle) :
  In {| X := x; image.Y := y |} (Intersect r s)
  = In {| X := x; image.Y := y |} r && In {| X := x; image.Y := y |} s.
Proof.
  apply eq_true_iff_eq. rewrite andb_true_iff, !In_bounds.
  unfold Intersect, Empty. cbn [Min Max X image.Y].
  destruct (Z.ltb_spec (X (Min r)) (X (Min s))),
           (Z.ltb_spec (image.Y (Min r)) (image.Y (Min s))),
           (Z.ltb_spec (X (Max s)) (X (Max r))),
           (Z.ltb_spec (image.Y (Max s)) (image.Y (Max r)));
    match goal with |- context [if ?a || ?c then _ else _] =>
      destruct a eqn:Ea; destruct c eqn:Ec end;
    unfold ZR, ZP; cbn [orb Min Max X image.Y];
    try apply Z.leb_le in Ea; try apply Z.leb_gt in Ea;
    try apply Z.leb_le in Ec; try apply Z.leb_gt in Ec;
    cbn [Min Max X image.Y] in *; lia.
Qed.

Lemma Gray4At_total (p : HorizontalNibble) (x y : Z) :
  store_ok p → ∃ g, Gray4At p x y = Some g.
Proof.
  intros Hok. unfold Gray4At.
  destruct (In _ _) eqn:Hin; cbn [negb]; [|by eexists].
  pose proof (pixOffset_in_range p x y Hok Hin) as Hr.
  destruct (pixOffset p x y) as [o s]. cbn [fst] in Hr.
  destruct (index_Some (Pix p) o Hr) as [v ->]. by eexists.
Qed.

Lemma shade_total (src : draw.Image) (x y : Z) :
  image_ok src → ∃ g, shade src x y = Some g.
Proof.
  intros Hok. unfold shade. destruct src as [p|bd f]; cbn [draw.At].
  - destruct (Gray4At_total p x y Hok) as [g Hg].
    unfold image4bit.At. rewrite Hg. by eexists.
  - by eexists.
Qed.

Lemma for_each_ext {S : Type} (f g : Z → S → option S) (idxs : list Z) (s : S) :
  (∀ i t, f i t = g i t) → for_each idxs f s = for_each idxs g s.
Proof.
  intros Hfg. revert s. induction idxs as [|i idxs IH]; intros s; [done|].
  cbn [for_each]. rewrite Hfg. destruct (g i s); [apply IH|done].
Qed.

Lemma render_pixel (src : draw.Image) (p : HorizontalNibble) (x y sx sy : Z) :
  image_ok src → store_ok p →
  In {| X := x; image.Y := y |} (image4bit.Rect p) = true →
  ∃ p' g,
    (c ← draw.At src sx sy; Set_ p x y c) = Some p' ∧
    store_ok p' ∧ image4bit.Rect p' = image4bit.Rect p ∧
    shade src sx sy = Some g ∧ Gray4At p' x y = Some g ∧
    ∀ x' y', x' ≠ x ∨ y' ≠ y → Gray4At p' x' y' = Gray4At p x' y'.
Proof.
  intros Hsrc Hok Hin.
  destruct (shade_total src sx sy Hsrc) as [g Hg].
  unfold shade in Hg. destruct (draw.At src sx sy) as [c|] eqn:Hat; [|done].
  cbn [mbind option_bind] in Hg |- *. injection Hg as <-.
  rewrite Set_as_SetGray4.
  destruct (toGray4 c) as [v] eqn:Hv. cbn [image4bit.Y].
  destruct (SetGray4_Gray4At p x y v Hok Hin) as (p' & Hset & Hget & Hok').
  exists p', {| image4bit.Y := Z.land v 15 |}.
  split_and!; try done.
  - unfold SetGray4 in Hset. rewrite Hin in Hset. cbn [negb] in Hset.
    destruct (pixOffset p x y) as [o s].
    destruct (index (Pix p) o); [|done]. cbn [mbind option_bind] in Hset.
    destruct (store _ _ _); [|done]. cbn [mbind option_bind] in Hset.
    by injection Hset as <-.
  - unfold shade. rewrite Hat. cbn [mbind option_bind]. by rewrite Hv.
  - intros x' y' Hne. by apply (Gray4At_SetGray4_other p p' x y x' y' _ Hok Hset).
Qed.

Lemma render_row (src : draw.Image) (p : HorizontalNibble)
    (x0 w y ox sy : Z) :
  image_ok src → store_ok p → 0 ≤ w →
  (∀ x, x0 ≤ x < x0 + w →
        In {| X := x; image.Y := y |} (image4bit.Rect p) = true) →
  ∃ p',
    for_each (seqZ x0 w)
      (λ x q, c ← draw.At src (ox + x) sy; Set_ q x y c) p = Some p' ∧
    store_ok p' ∧ image4bit.Rect p' = image4bit.Rect p ∧
    ∀ x' y',
      (y' = y → x0 ≤ x' < x0 + w →
       ∃ g, shade src (ox + x') sy = Some g ∧ Gray4At p' x' y' = Some g) ∧
      (¬ (y' = y ∧ x0 ≤ x' < x0 + w) → Gray4At p' x' y' = Gray4At p x' y').
Proof.
  intros Hsrc Hok Hw Hin.
  destruct (for_each_inv
    (λ i t, store_ok t ∧ image4bit.Rect t = image4bit.Rect p ∧
       ∀ x' y',
         (y' = y → x0 ≤ x' < i →
          ∃ g, shade src (ox + x') sy = Some g ∧ Gray4At t x' y' = Some g) ∧
         (¬ (y' = y ∧ x0 ≤ x' < i) → Gray4At t x' y' = Gray4At p x' y'))
    (λ x q, c ← draw.At src (ox + x) sy; Set_ q x y c) x0 w p Hw)
    as (p' & Hrun & Hp'); [| |by exists p'].
  - split_and!; [done..|]. intros x' y'. split; [lia|done].
  - intros i t Hi (Hokt & Hrt & Ht).
    assert (Hini : In {| X := i; image.Y := y |} (image4bit.Rect t) = true)
      by (rewrite Hrt; apply Hin; lia).
    destruct (render_pixel src t i y (ox + i) sy Hsrc Hokt Hini)
      as (t' & g & Hstep & Hokt' & Hrt' & Hg & Hget & Hother).
    exists t'. split; [done|]. split_and!; [done|congruence|].
    intros x' y'. split.
    + intros -> Hx. destruct (decide (x' = i)) as [->|Hne].
      * by exists g.
      * rewrite Hother by (by left). apply (proj1 (Ht x' y)); [done|lia].
    + intros Hout. destruct (decide (x' = i)) as [->|Hxi].
      * destruct (decide (y' = y)) as [->|Hyy]; [exfalso; apply Hout; lia|].
        rewrite Hother by (by right). apply (proj2 (Ht i y')). lia.
      * rewrite Hother by (by left). apply (proj2 (Ht x' y')). lia.
Qed.

(** The rendering step of [Draw]: [draw.Draw] with [draw.Src] into a
    well-formed store never panics, gives every pixel of the clipped
    rectangle the shade of its source pixel and leaves the others. *)
Lemma draw_Draw_render (n : HorizontalNibble) (r : Rectangle)
    (src : draw.Image) (sp : Point) :
  store_ok n → image_ok src →
  ∃ cand,
    draw.Draw n r src sp = Some cand ∧ store_ok cand ∧
    image4bit.Rect cand = image4bit.Rect n ∧
    ∀ x y,
      if In {| X := x; image.Y := y |} r
         && In {| X := x; image.Y := y |} (image4bit.Rect n)
         && In {| X := x; image.Y := y |}
               (Add (draw.Bounds src) (PSub (Min r) sp))
      then ∃ g, shade src (X sp + x - X (Min r))
                          (image.Y sp + y - image.Y (Min r)) = Some g ∧
                Gray4At cand x y = Some g
      else Gray4At cand x y = Gray4At n x y.
Proof.
  intros Hok Hsrc. unfold draw.Draw, draw.clip.
  set (r' := Intersect (Intersect r (image4bit.Bounds n))
                       (Add (draw.Bounds src) (PSub (Min r) sp))).
  assert (Hin' : ∀ x y,
    In {| X := x; image.Y := y |} r
    && In {| X := x; image.Y := y |} (image4bit.Rect n)
    && In {| X := x; image.Y := y |} (Add (draw.Bounds src) (PSub (Min r) sp))
    = In {| X := x; image.Y := y |} r').
  { intros x y. unfold r'. by rewrite !Intersect_In. }
  destruct (Empty r') eqn:He.
  - exists n. split_and!; [done..|]. intros x y. rewrite Hin'.
    destruct (In _ r') eqn:Hin; [|done].
    apply In_bounds in Hin. unfold Empty in He.
    apply orb_true_iff in He as [He|He]; apply Z.leb_le in He; lia.
  - unfold Empty in He. apply orb_false_iff in He as [Hx Hy].
    apply Z.leb_gt in Hx, Hy.
    destruct (for_each_inv
      (λ j t, store_ok t ∧ image4bit.Rect t = image4bit.Rect n ∧
         ∀ x y,
           (In {| X := x; image.Y := y |} r' = true → y < j →
            ∃ g, shade src (X sp + x - X (Min r))
                           (image.Y sp + y - image.Y (Min r)) = Some g ∧
                 Gray4At t x y = Some g) ∧
           (¬ (In {| X := x; image.Y := y |} r' = true ∧ y < j) →
            Gray4At t x y = Gray4At n x y))
      (λ y p,
         for_each (seqZ (X (Min r')) (Dx r'))
           (λ x p,
              c ← draw.At src
                    (X {| X := X sp + (X (Min r') - X (Min r));
                          image.Y := image.Y sp
                                     + (image.Y (Min r') - image.Y (Min r)) |}
                     + x - X (Min r'))
                    (image.Y {| X := X sp + (X (Min r') - X (Min r));
                                image.Y := image.Y sp
                                     + (image.Y (Min r') - image.Y (Min r)) |}
                     + y - image.Y (Min r'));
              Set_ p x y c) p)
      (image.Y (Min r')) (Dy r') n) as (cand & Hrun & Hc1 & Hc2 & Hc3).
    + unfold Dy. lia.
    + split_and!; [done..|]. intros x y. split; [|done].
      intros Hin Hlt. apply In_bounds in Hin. lia.
    + intros j t Hj (Hokt & Hrt & Ht). unfold Dy in Hj.
      destruct (render_row src t (X (Min r')) (Dx r') j
                  (X sp - X (Min r))
                  (image.Y sp + j - image.Y (Min r)) Hsrc Hokt)
        as (t' & Hrow & Hokt' & Hrt' & Hpix).
      * unfold Dx. lia.
      * intros x Hxr. rewrite Hrt.
        assert (Hinr : In {| X := x; image.Y := j |} r' = true)
          by (apply In_bounds; unfold Dx in Hxr; lia).
        rewrite <- Hin' in Hinr.
        apply andb_true_iff in Hinr as [Hinr _].
        by apply andb_true_iff in Hinr as [_ Hinr].
      * exists t'. split.
        { rewrite <- Hrow. cbn [X image.Y].
          apply for_each_ext. intros x q.
          by replace (X sp + (X (Min r') - X (Min r)) + x - X (Min r'))
            with (X sp - X (Min r) + x) by lia;
          replace (image.Y sp + (image.Y (Min r') - image.Y (Min r)) + j
                   - image.Y (Min r'))
            with (image.Y sp + j - image.Y (Min r)) by lia. }
        split_and!; [done|congruence|]. intros x y. split.
        -- intros Hin Hlt. pose proof Hin as Hb. apply In_bounds in Hb.
           destruct (decide (y = j)) as [->|Hne].
           ++ destruct (proj1 (Hpix x j) eq_refl) as (g & Hg & Hget);
                [unfold Dx; lia|].
              exists g. split; [|done]. rewrite <- Hg. f_equal. lia.
           ++ rewrite (proj2 (Hpix x y)) by lia. apply Ht; [done|lia].
        -- intros Hout. rewrite (proj2 (Hpix x y)).
           ++ apply Ht. intros [? ?]. apply Hout. split; [done|lia].
           ++ intros [-> Hxr]. apply Hout. split; [|lia].
              apply In_bounds. unfold Dx in Hxr. lia.
    + exists cand. split; [exact Hrun|]. split_and!; [done..|].
      intros x y. rewrite Hin'.
      destruct (In _ r') eqn:Hin.
      * apply (proj1 (Hc3 x y)); [done|].
        apply In_bounds in Hin. unfold Dy. lia.
      * apply (proj2 (Hc3 x y)). intros [? _]. congruence.
Qed.

Lemma Gray4At_blank (p : HorizontalNibble) (k : nat) (x y : Z) :
  store_ok p → Pix p = replicate k 0 →
  Gray4At p x y = Some {| image4bit.Y := 0 |}.
Proof.
  intros Hok Hpix. unfold Gray4At.
  destruct (In _ _) eqn:Hin; cbn [negb]; [|done].
  pose proof (pixOffset_in_range p x y Hok Hin) as Hr.
  destruct (pixOffset p x y) as [o s] eqn:Ho. cbn [fst] in Hr.
  rewrite index_nonneg by lia. rewrite Hpix.
  rewrite lookup_replicate_2
    by (rewrite Hpix, length_replicate in Hr; lia).
  cbn [mbind option_bind]. by rewrite Z.shiftr_0_l.
Qed.

Lemma session_next_store_ok (d : Dev) (n : HorizontalNibble) :
  session_ok d → next d = Some n → store_ok n ∧ image4bit.Rect n = rect d.
Proof.
  intros (_ & _ & _ & Hev & _ & _ & _ & _ & Hn) Hnext.
  rewrite Hnext in Hn. destruct Hn as (Hr & Hs & Hl & _).
  unfold store_ok. rewrite Hr, Hs. done.
Qed.

Lemma writeRect_working (d : Dev) (b : Bus) (x y width height : Z)
    (pixels : list Z) :
  script b = [] →
  (writeRect d b x y width height pixels).2 = None ∧
  script (writeRect d b x y width height pixels).1 = [].
Proof. destruct b as [lg sc]. cbn [script]. by intros ->. Qed.

(** The slow path of [Draw] on a well-formed session and source always
    returns; on a transport that works it returns [nil]. *)
Lemma Draw_differential_returns (d : Dev) (b : Bus) (dst : Rectangle)
    (src : draw.Image) (sp : Point) :
  session_ok d → halted d = false → image_ok src →
  Empty (Intersect dst (rect d)) = false →
  fullFrameSource d (Intersect dst (rect d)) src sp = None →
  ∃ d1 n cand d' b' e,
    initNext d = Some d1 ∧ next d1 = Some n ∧
    draw.Draw n (Intersect dst (rect d)) src sp = Some cand ∧
    Draw d b dst src sp = Some (d', b', e) ∧ next d' = Some cand ∧
    (script b = [] → e = None ∧ script b' = []).
Proof.
  intros Hok Hh Hsrc He Hfast.
  destruct (initNext_spec d Hok)
    as (d1 & n & Hinit & Hnext & Hok1 & _).
  destruct (session_next_store_ok d1 n Hok1 Hnext) as [Hokn _].
  destruct (draw_Draw_render n (Intersect dst (rect d)) src sp Hokn Hsrc)
    as (cand & Hdraw & _).
  exists d1, n, cand.
  destruct (Draw_differential d b dst src sp d1 n cand Hok Hh He Hfast
              Hinit Hnext Hdraw)
    as [[_ Hres]|(_ & minCol & maxCol & minRow & maxRow & _ & _ & Hres)].
  - eexists _, _, _. split_and!; [done..|exact Hres|done|by intros ->].
  - cbv zeta in Hres.
    match type of Hres with
    | _ = Some (_, ?w.1, _) => set (r := w) in *
    end.
    eexists _, _, _. split_and!; [done..|exact Hres| |].
    + by destruct (r.2).
    + intros Hs. by apply writeRect_working.
Qed.

(** What the differential path of [Draw] renders.  For a source point
    and source bounds of small coordinates, on which the clipping of
    [draw.Draw] is computed without wrapping, and on a well-formed
    session and source the call returns, with [nil] when the transport
    works, and leaves in [d.next] a candidate in which every pixel of
    the destination clipped to the display, whose source pixel is in
    the bounds of the source, has the shade of that source pixel, and
    every other pixel is as before the call (0 when the double buffer is
    created by this call).  The source point [sp] is aligned with the
    corner of the clipped destination, not of the destination given. *)
Theorem Draw_renders_source (d : Dev) (b : Bus) (dst : Rectangle)
    (src : draw.Image) (sp : Point) :
  session_ok d → halted d = false → image_ok src →
  small_point sp → small_rect (draw.Bounds src) →
  Empty (Intersect dst (rect d)) = false →
  fullFrameSource d (Intersect dst (rect d)) src sp = None →
  ∃ d' b' e cand,
    Draw d b dst src sp = Some (d', b', e) ∧ next d' = Some cand ∧
    (script b = [] → e = None ∧ script b' = []) ∧
    let r := Intersect dst (rect d) in
    ∀ x y,
      if In {| X := x; image.Y := y |} r
         && In {| X := x; image.Y := y |}
               (Add (draw.Bounds src) (PSub (Min r) sp))
      then ∃ g, shade src (X sp + x - X (Min r))
                          (image.Y sp + y - image.Y (Min r)) = Some g ∧
                Gray4At cand x y = Some g
      else Gray4At cand x y
           = match next d with
             | Some n => Gray4At n x y
             | None => Some {| image4bit.Y := 0 |}
             end.
Proof.
  intros Hok Hh Hsrc _ _ He Hfast.
  destruct (Draw_differential_returns d b dst src sp Hok Hh Hsrc He Hfast)
    as (d1 & n & cand & d' & b' & e & Hinit & Hnext & Hdraw & Hrun & Hnext'
        & Hwork).
  destruct (initNext_spec d Hok)
    as (d1' & n' & Hinit' & Hnext1 & Hok1 & Hrect & _ & _ & _ & Hsame).
  rewrite Hinit in Hinit'. injection Hinit' as <-.
  rewrite Hnext in Hnext1. injection Hnext1 as <-.
  destruct (session_next_store_ok d1 n Hok1 Hnext) as [Hokn Hrn].
  destruct (draw_Draw_render n (Intersect dst (rect d)) src sp Hokn Hsrc)
    as (cand' & Hdraw' & _ & _ & Hpix).
  rewrite Hdraw in Hdraw'. injection Hdraw' as <-.
  exists d', b', e, cand. split_and!; [done..|].
  cbv zeta. intros x y. specialize (Hpix x y).
  assert (Hinr : In {| X := x; image.Y := y |} (Intersect dst (rect d))
                 && In {| X := x; image.Y := y |} (image4bit.Rect n)
                 = In {| X := x; image.Y := y |} (Intersect dst (rect d))).
  { rewrite Hrn, Hrect, Intersect_In.
    by destruct (In _ dst), (In _ (rect d)). }
  rewrite Hinr in Hpix.
  destruct (In _ _ && In _ _); [done|]. rewrite Hpix.
  destruct (next d) as [n0|] eqn:Hn0.
  - subst d1. rewrite Hn0 in Hnext. by injection Hnext as ->.
  - unfold initNext in Hinit. rewrite Hn0 in Hinit.
    destruct (NewHorizontalNibble (rect d)) as [n1|] eqn:Hnew; [|done].
    cbn [mbind option_bind] in Hinit.
    destruct (make _) as [pix|]; [|done].
    cbn [mbind option_bind] in Hinit. injection Hinit as <-.
    cbn in Hnext. injection Hnext as <-.
    destruct Hok as (_ & Hw & _ & _ & Hy & _).
    destruct (NewHorizontalNibble_store_ok (rect d) n1) as (_ & _ & Hz);
      [lia..|done|].
    by apply (Gray4At_blank n1 _ x y Hokn Hz).
Qed.

Lemma Draw_renders_source_witness :
  ∃ d' b' e cand,
    Draw (fresh 4 1) idle (image.Rect 2 0 6 1)
         (draw.ImageNibble (frame 4 1 [90; 60])) ZP = Some (d', b', e) ∧
    next d' = Some cand ∧
    (script idle = [] → e = None ∧ script b' = []) ∧
    let r := Intersect (image.Rect 2 0 6 1) (rect (fresh 4 1)) in
    ∀ x y,
      if In {| X := x; image.Y := y |} r
         && In {| X := x; image.Y := y |}
               (Add (draw.Bounds (draw.ImageNibble (frame 4 1 [90; 60])))
                    (PSub (Min r) ZP))
      then ∃ g, shade (draw.ImageNibble (frame 4 1 [90; 60]))
                      (X ZP + x - X (Min r))
                      (image.Y ZP + y - image.Y (Min r)) = Some g ∧
                Gray4At cand x y = Some g
      else Gray4At cand x y
           = match next (fresh 4 1) with
             | Some n => Gray4At n x y
             | None => Some {| image4bit.Y := 0 |}
             end.
Proof.
  apply (Draw_renders_source (fresh 4 1) idle (image.Rect 2 0 6 1)
           (draw.ImageNibble (frame 4 1 [90; 60])) ZP).
  - apply fresh_session_ok; [lia|reflexivity|lia].
  - reflexivity.
  - repeat split.
  - unfold small_point, small. cbn. lia.
  - unfold small_rect, small_point, small. vm_compute.
    repeat split; discriminate.
  - reflexivity.
  - reflexivity.
Defined.

Lemma Draw_total (d : Dev) (b : Bus) (dst : Rectangle)
    (src : draw.Image) (sp : Point) :
  session_ok d → image_ok src →
  ∃ d' b' e,
    Draw d b dst src sp = Some (d', b', e) ∧
    (halted d = false → script b = [] → e = None ∧ script b' = []).
Proof.
  intros Hok Hsrc.
  destruct (halted d) eqn:Hh.
  { eexists _, _, _. unfold Draw. rewrite Hh. done. }
  destruct (Empty (Intersect dst (rect d))) eqn:He.
  { eexists _, _, _. unfold Draw. rewrite Hh, He. done. }
  destruct (fullFrameSource d (Intersect dst (rect d)) src sp) as [srcImg|]
    eqn:Hfast.
  - eexists _, _, _. split; [by apply Draw_full_frame|].
    intros _ Hs. by apply writeRect_working.
  - destruct (Draw_differential_returns d b dst src sp Hok Hh Hsrc He Hfast)
      as (_ & _ & _ & d' & b' & e & _ & _ & _ & Hrun & _ & Hwork).
    exists d', b', e. split; [done|]. by intros _.
Qed.

(** [Draw] never panics on a well-formed session, whatever the
    destination and the source point, for any source image that is not
    a [HorizontalNibble] and any well-formed [HorizontalNibble].  The
    session stays well-formed, and when it is not halted and the
    transport works the call returns [nil]. *)
Theorem Draw_never_panics (d : Dev) (b : Bus) (dst : Rectangle)
    (src : draw.Image) (sp : Point) :
  session_ok d → image_ok src →
  ∃ d' b' e,
    Draw d b dst src sp = Some (d', b', e) ∧ session_ok d' ∧
    (halted d = false → script b = [] → e = None ∧ script b' = []).
Proof.
  intros Hok Hsrc.
  destruct (Draw_total d b dst src sp Hok Hsrc) as (d' & b' & e & Hrun & Hwork).
  exists d', b', e. split_and!; [done| |done].
  by apply (Draw_session_ok d b dst src sp d' b' e).
Qed.

Lemma Draw_never_panics_witness :
  ∃ d' b' e,
    Draw shown5 sent5 (image.Rect (-1) 0 3 1)
         (draw.ImageNibble (frame 4 1 [90; 60])) {| X := 1; image.Y := 0 |}
    = Some (d', b', e) ∧ session_ok d' ∧
    (halted shown5 = false → script sent5 = [] → e = None ∧ script b' = []).
Proof.
  apply (Draw_never_panics shown5 sent5 (image.Rect (-1) 0 3 1)
           (draw.ImageNibble (frame 4 1 [90; 60])) {| X := 1; image.Y := 0 |}).
  - apply (Draw_session_ok (fresh 4 1) idle r41 (uniform r41 5) ZP shown5
             sent5 None); [|reflexivity].
    apply fresh_session_ok; [lia|reflexivity|lia].
  - repeat split.
Defined.

(** ** Sequences of calls *)

Lemma set_halted_halted (d : Dev) : halted d = true → set_halted d true = d.
Proof. destruct d. cbn. by intros ->. Qed.

Lemma Draw_keeps_rect (d : Dev) (b : Bus) (dst : Rectangle)
    (src : draw.Image) (sp : Point) (d' : Dev) (b' : Bus) (e : error) :
  session_ok d → Draw d b dst src sp = Some (d', b', e) →
  rect d' = rect d ∧ halted d' = halted d.
Proof.
  intros Hok Hrun. destruct (halted d) eqn:Hh.
  { unfold Draw in Hrun. rewrite Hh in Hrun. injection Hrun as <- _ _. done. }
  destruct (Empty (Intersect dst (rect d))) eqn:He.
  { unfold Draw in Hrun. rewrite Hh, He in Hrun. by injection Hrun as <- _ _. }
  destruct (fullFrameSource d (Intersect dst (rect d)) src sp) as [srcImg|]
    eqn:Hfast.
  - rewrite (Draw_full_frame d b dst src sp srcImg Hh He Hfast) in Hrun.
    by injection Hrun as <- _ _.
  - destruct (Draw_differential_result d b dst src sp d' b' e Hok Hh He Hfast Hrun)
      as (d1 & n & cand & _ & _ & _ & Hr & _ & _ & Hh1 & _ & _ & _ & Hres).
    destruct Hres as [(_ & -> & _)|(_ & ? & ? & ? & ? & _ & _ & _ & ->)].
    + done.
    + by destruct (_.2).
Qed.

Lemma Write_keeps_rect (d : Dev) (b : Bus) (pixels : list Z) :
  rect (Write d b pixels).1.1 = rect d ∧
  halted (Write d b pixels).1.1 = halted d.
Proof.
  unfold Write. destruct (halted d) eqn:Hh; [by cbn|].
  destruct (_ =? _)%nat; cbn [negb]; [|by cbn].
  destruct (writeFullFrame d b pixels) as [b' [e|]]; by cbn.
Qed.

Lemma step_session (op : Op) (d : Dev) (b : Bus) :
  session_ok d → op_ok op →
  ∃ d' b' e, step op d b = Some (d', b', e) ∧ session_ok d' ∧
             rect d' = rect d ∧ (halted d = true → halted d' = true).
Proof.
  intros Hok Hop. destruct op; cbn [step].
  - pose proof (Write_session_ok d b pixels Hok) as Hs.
    pose proof (Write_keeps_rect d b pixels) as [Hr Hh].
    destruct (Write d b pixels) as [[d' b'] [k e]]. cbn [fst] in *.
    eexists _, _, _. split_and!; [done..|congruence].
  - destruct (Draw_total d b dst src sp Hok Hop) as (d' & b' & e & Hrun & _).
    destruct (Draw_keeps_rect d b dst src sp d' b' e Hok Hrun) as [Hr Hh].
    exists d', b', e. split_and!; [done| |done|congruence].
    by apply (Draw_session_ok d b dst src sp d' b' e).
  - pose proof (Halt_session_ok d b Hok) as Hs.
    unfold Halt in *. destruct (sendCommand b 174) as [b' e]. cbn [fst] in Hs.
    eexists _, _, _. split_and!; done.
  - destruct (SetContrast d b contrast) as [b' e].
    eexists _, _, _. split_and!; done.
  - destruct (Invert d b invert) as [b' e].
    eexists _, _, _. split_and!; done.
  - destruct (ScrollHorizontal d b startRow endRow speed right) as [b' e].
    eexists _, _, _. split_and!; done.
  - destruct (StopScroll d b) as [b' e].
    eexists _, _, _. split_and!; done.
Qed.

(** No sequence of calls breaks a session: from a well-formed session,
    calls of [Write], [Draw] (with sources as above), [Halt],
    [SetContrast], [Invert], [ScrollHorizontal] and [StopScroll] in any
    order and with any arguments, on any transport, all return; the
    session stays well-formed, keeps its geometry, and stays halted
    once it is. *)
Theorem session_never_panics (ops : list Op) (d : Dev) (b : Bus) :
  session_ok d → Forall op_ok ops →
  ∃ d' b' errs,
    run ops d b = Some (d', b', errs) ∧ length errs = length ops ∧
    session_ok d' ∧ rect d' = rect d ∧ (halted d = true → halted d' = true).
Proof.
  intros Hok Hops. revert d b Hok.
  induction Hops as [|op ops Hop Hops IH]; intros d b Hok.
  - by exists d, b, [].
  - destruct (step_session op d b Hok Hop) as (d1 & b1 & e & Hstep & Hok1 & Hr1 & Hh1).
    destruct (IH d1 b1 Hok1) as (d' & b' & errs & Hrun & Hlen & Hok' & Hr' & Hh').
    exists d', b', (e :: errs). cbn [run]. rewrite Hstep. cbn. rewrite Hrun. cbn.
    split_and!; [done|by rewrite Hlen|done|congruence|auto].
Qed.

Lemma session_never_panics_witness :
  ∃ d' b' errs,
    run [OpDraw r41 (uniform r41 5) ZP; OpWrite [1; 2]; OpSetContrast 128;
         OpHalt; OpStopScroll] (fresh 4 1) (failing 5 "io")
    = Some (d', b', errs) ∧
    length errs
    = length [OpDraw r41 (uniform r41 5) ZP; OpWrite [1; 2]; OpSetContrast 128;
              OpHalt; OpStopScroll] ∧
    session_ok d' ∧ rect d' = rect (fresh 4 1) ∧
    (halted (fresh 4 1) = true → halted d' = true).
Proof.
  apply (session_never_panics
           [OpDraw r41 (uniform r41 5) ZP; OpWrite [1; 2]; OpSetContrast 128;
            OpHalt; OpStopScroll] (fresh 4 1) (failing 5 "io")).
  - apply fresh_session_ok; [lia|reflexivity|lia].
  - repeat constructor.
Defined.

Lemma step_halted (op : Op) (d : Dev) (b : Bus) :
  halted d = true →
  match op with
  | OpHalt => step op d b = Some (d, (sendCommand b 174).1, (sendCommand b 174).2)
  | _ => step op d b = Some (d, b, Some errHalted)
  end.
Proof.
  intros Hh. destruct op; cbn [step].
  - unfold Write. by rewrite Hh.
  - unfold Draw. by rewrite Hh.
  - unfold Halt. rewrite set_halted_halted by done.
    by destruct (sendCommand b 174).
  - unfold SetContrast. by rewrite Hh.
  - unfold Invert. by rewrite Hh.
  - unfold ScrollHorizontal. by rewrite Hh.
  - unfold StopScroll. by rewrite Hh.
Qed.

(** [Halt] is final.  On a halted session every call other than [Halt]
    returns the halted error, no call changes the handle, and all that
    the bus can still receive is the Display OFF command of further
    calls of [Halt]; without such a call the bus is untouched. *)
Theorem Halt_is_final (ops : list Op) (d : Dev) (b : Bus) :
  halted d = true →
  ∃ b' errs,
    run ops d b = Some (d, b', errs) ∧
    (∃ evs, log b' = log b ++ evs ∧
            Forall (λ ev, ev = DcOut Low ∨ ev = Tx [174]) evs) ∧
    (∀ (i : nat) op, ops !! i = Some op → op ≠ OpHalt →
                     errs !! i = Some (Some errHalted)) ∧
    (OpHalt ∉ ops → b' = b).
Proof.
  intros Hh. revert b. induction ops as [|op ops IH]; intros b.
  - exists b, []. split_and!; [done| |done..].
    exists []. by rewrite app_nil_r.
  - assert (Hstep : ∃ b1 e,
      step op d b = Some (d, b1, e) ∧
      (∃ evs, log b1 = log b ++ evs ∧
              Forall (λ ev, ev = DcOut Low ∨ ev = Tx [174]) evs) ∧
      (op ≠ OpHalt → b1 = b ∧ e = Some errHalted)).
    { pose proof (step_halted op d b Hh) as Hs.
      destruct op;
        try (exists b, (Some errHalted);
             split; [exact Hs|split; [exists []; by rewrite app_nil_r|done]]).
      eexists _, _. split; [exact Hs|]. split; [|by intros []].
      destruct (sendCommands_calls b [174]) as (k & Hk & Hlog & _).
      unfold sendCommand. eexists. split; [exact Hlog|].
      apply Forall_take.
      apply Forall_cons_2; [by left|]. apply Forall_cons_2; [by right|].
      apply Forall_nil_2. }
    destruct Hstep as (b1 & e & Hstep & (evs1 & Hlog1 & Hevs1) & Hother).
    destruct (IH b1) as (b' & errs & Hrun & (evs & Hlog & Hevs) & Herr & Hsame).
    exists b', (e :: errs). cbn [run]. rewrite Hstep. cbn. rewrite Hrun. cbn.
    split_and!; [done| | |].
    + exists (evs1 ++ evs). split; [|by apply Forall_app].
      by rewrite Hlog, Hlog1, app_assoc.
    + intros [|i] op' Hop' Hne.
      * cbn in Hop'. injection Hop' as <-. cbn.
        by destruct (Hother Hne) as [_ ->].
      * cbn in Hop' |- *. by apply (Herr i op').
    + intros Hno. apply not_elem_of_cons in Hno as [Hne Hno].
      rewrite (Hsame Hno). by destruct (Hother (not_eq_sym Hne)).
Qed.

Lemma Halt_is_final_witness :
  ∃ b' errs,
    run [OpWrite [1; 2]; OpHalt; OpInvert true]
        (set_halted (fresh 4 1) true) idle
    = Some (set_halted (fresh 4 1) true, b', errs) ∧
    (∃ evs, log b' = log idle ++ evs ∧
            Forall (λ ev, ev = DcOut Low ∨ ev = Tx [174]) evs) ∧
    (∀ (i : nat) op,
       [OpWrite [1; 2]; OpHalt; OpInvert true] !! i = Some op →
       op ≠ OpHalt → errs !! i = Some (Some errHalted)) ∧
    (OpHalt ∉ [OpWrite [1; 2]; OpHalt; OpInvert true] → b' = idle).
Proof.
  apply (Halt_is_final [OpWrite [1; 2]; OpHalt; OpInvert true]
           (set_halted (fresh 4 1) true) idle).
  reflexivity.
Defined.

(** ** Options without effect *)

(** The option [Sequential] is ignored: [init] ors bit 0 into a remap
    byte, 0x11, in which it is set already, so two sets of options that
    differ in [Sequential] only give the same transfers and the same
    handle, on any transport. *)
Theorem Sequential_ignored (b : Bus) (o : Opts) (s : bool) :
  NewSPI b (Some {| W := W o; H := H o; Rotated := Rotated o;
                    Sequential := s; SwapTopBottom := SwapTopBottom o;
                    RST := RST o |})
  = NewSPI b (Some o).
Proof.
  assert (Hcmds : ∀ o1 o2, H o1 = H o2 → Rotated o1 = Rotated o2 →
            SwapTopBottom o1 = SwapTopBottom o2 →
            initCommands o1 = initCommands o2).
  { intros o1 o2 Hh Hr Hs. unfold initCommands. rewrite Hh, Hr, Hs.
    by destruct (Sequential o1), (Sequential o2), (SwapTopBottom o2). }
  unfold NewSPI, init. cbn [default W H Rotated Sequential SwapTopBottom RST].
  by rewrite (Hcmds _ o).
Qed.

